(** * Salesforce Pub/Sub API node client: event streaming pipeline

    A shallow embedding of the event parser ([src/utils/eventParser.js]),
    the custom Avro long type and the user-supplied authentication of
    [src/client.js], and the subscription emitter
    ([src/pubSubEventEmitter.js]), with the properties of the
    specification proved or refuted on them.

    Conventions of the embedding:
    - a JavaScript exception is the [None] of an [option] (or the [inl] of
      a sum when the error value matters);
    - a [Buffer] is a [list Z] of bytes, every byte in [0, 256);
    - a JavaScript string is a [string]; the strings the program handles
      here (hex bitmaps, field names, tokens, URLs) are ASCII;
    - integer-valued JavaScript numbers are kept apart from BigInts by the
      constructors of [JSInt]. *)

From Stdlib Require Import ZArith List String Ascii Bool Lia Permutation.
Import ListNotations.
Set Warnings "-register-all".
Open Scope string_scope.
Open Scope list_scope.

(** ** Exceptions as [option] *)

Definition bind {A B : Type} (m : option A) (k : A -> option B) : option B :=
  match m with
  | Some a => k a
  | None => None
  end.

Notation "x <- m ;; k" := (bind m (fun x => k))
  (at level 61, m at next level, right associativity).

(** ** Integer values of JavaScript *)

Module JS.

Local Open Scope Z_scope.

(** The two integer representations of the program: [JNumber z] is the
    double whose value is the integer [z], [JBigInt z] the arbitrary
    precision integer [z].  Not every integer is a double: [JNumber z]
    is a value of the program when [roundToDouble z = z] (below), and
    the functions of this file return no other. *)
Inductive JSInt : Type :=
  | JNumber (z : Z)
  | JBigInt (z : Z).

Definition MAX_SAFE_INTEGER : Z := 2 ^ 53 - 1.
Definition MIN_SAFE_INTEGER : Z := - (2 ^ 53 - 1).

(** [Number(b)] for a BigInt [b]: the double nearest to [b], ties to the
    even significand.  Below 2^53 in magnitude every integer is a double;
    above, a double keeps the 53 leading bits.  (The overflow to Infinity
    beyond 2^1024 is out of reach of 64-bit values and not modelled.) *)
Definition roundToDouble (z : Z) : Z :=
  let a := Z.abs z in
  if a <? 2 ^ 53 then z
  else
    let e := Z.log2 a - 52 in
    let q := a / 2 ^ e in
    let r := a mod 2 ^ e in
    let half := 2 ^ (e - 1) in
    let q' := if (half <? r) || ((half =? r) && Z.odd q) then q + 1 else q in
    Z.sgn z * (q' * 2 ^ e).

(** [Number(x)] on the integer values. *)
Definition Number (x : JSInt) : JSInt :=
  match x with
  | JNumber z => JNumber z
  | JBigInt z => JNumber (roundToDouble z)
  end.

(** [BigInt(x)]: exact on an integer-valued number. *)
Definition BigInt (x : JSInt) : Z :=
  match x with
  | JNumber z => z
  | JBigInt z => z
  end.

(** The mathematical value, whatever the representation. *)
Definition valueOf (x : JSInt) : Z :=
  match x with
  | JNumber z => z
  | JBigInt z => z
  end.

(** [x === y]: never true across the two types. *)
Definition strictEquals (x y : JSInt) : bool :=
  match x, y with
  | JNumber a, JNumber b => a =? b
  | JBigInt a, JBigInt b => a =? b
  | _, _ => false
  end.

(** [x < y]: a number and a BigInt are compared by mathematical value. *)
Definition lessThan (x y : JSInt) : bool :=
  valueOf x <? valueOf y.

End JS.

(** ** Node.js [Buffer] accessors *)

Module Buffer.

Local Open Scope Z_scope.

Definition Buffer := list Z.

(** The value of a byte sequence read most significant byte first. *)
Definition beValue (bytes : list Z) : Z :=
  fold_left (fun acc b => acc * 256 + b) bytes 0.

(** [buf.readBigUInt64BE()]: the first eight bytes, big-endian; a
    RangeError when the buffer is shorter. *)
Definition readBigUInt64BE (buf : Buffer) : option Z :=
  if (8 <=? List.length buf)%nat then Some (beValue (firstn 8 buf)) else None.

(** [buf.writeBigUInt64BE(v, 0)] on a fresh 8-byte buffer: a RangeError
    outside [0, 2^64). *)
Definition writeBigUInt64BE (v : Z) : option Buffer :=
  if (0 <=? v) && (v <? 2 ^ 64) then
    Some (map (fun k => Z.land (Z.shiftr v (8 * (7 - k))) 255)
              [0; 1; 2; 3; 4; 5; 6; 7])
  else None.

(** [buf.readBigInt64LE()]: the first eight bytes, little-endian, as a
    two's complement signed value. *)
Definition readBigInt64LE (buf : Buffer) : option Z :=
  if (8 <=? List.length buf)%nat then
    let u := beValue (rev (firstn 8 buf)) in
    Some (if u <? 2 ^ 63 then u else u - 2 ^ 64)
  else None.

(** [buf.writeBigInt64LE(v, 0)] on a fresh 8-byte buffer: a RangeError
    outside [-2^63, 2^63). *)
Definition writeBigInt64LE (v : Z) : option Buffer :=
  if (- 2 ^ 63 <=? v) && (v <? 2 ^ 63) then
    Some (map (fun k => Z.land (Z.shiftr v (8 * k)) 255)
              [0; 1; 2; 3; 4; 5; 6; 7])
  else None.

(** The eight bytes of [v], most significant first, as quotients and
    remainders: what big-endian order means. *)
Definition bigEndianBytes (v : Z) : list Z :=
  [ (v / 2 ^ 56) mod 256; (v / 2 ^ 48) mod 256; (v / 2 ^ 40) mod 256;
    (v / 2 ^ 32) mod 256; (v / 2 ^ 24) mod 256; (v / 2 ^ 16) mod 256;
    (v / 2 ^ 8) mod 256; v mod 256 ].

End Buffer.

(** ** Replay identifiers ([src/utils/eventParser.js]) *)

Module ReplayId.

Import JS Buffer.
Local Open Scope Z_scope.

(** [decodeReplayId]: [Number(encodedReplayId.readBigUInt64BE())]. *)
Definition decodeReplayId (encodedReplayId : Buffer) : option JSInt :=
  big <- readBigUInt64BE encodedReplayId ;;
  Some (Number (JBigInt big)).

(** [encodeReplayId]: [buf.writeBigUInt64BE(BigInt(replayId), 0)]. *)
Definition encodeReplayId (replayId : JSInt) : option Buffer :=
  writeBigUInt64BE (BigInt replayId).

End ReplayId.

(** ** JavaScript string primitives used by the parser *)

Module Str.

(** [s.startsWith(p)]. *)
Definition startsWith (s p : string) : bool := String.prefix p s.

(** [s.substring(n)]: the string without its first [n] characters. *)
Fixpoint substringFrom (n : nat) (s : string) : string :=
  match n, s with
  | O, _ => s
  | S n', String _ s' => substringFrom n' s'
  | S _, EmptyString => EmptyString
  end.

(** [s.replaceAll(c, r)] for a one-character pattern [c]. *)
Fixpoint replaceAll (c : ascii) (r : string) (s : string) : string :=
  match s with
  | EmptyString => EmptyString
  | String a s' =>
      if Ascii.eqb a c then String.append r (replaceAll c r s')
      else String a (replaceAll c r s')
  end.

(** [s.split("").reverse().join("")]. *)
Definition reverse (s : string) : string :=
  string_of_list_ascii (rev (list_ascii_of_string s)).

(** [s.indexOf(c)] for a one-character pattern: -1 when absent. *)
Fixpoint indexOfFrom (c : ascii) (s : string) (i : Z) : Z :=
  match s with
  | EmptyString => (-1)%Z
  | String a s' => if Ascii.eqb a c then i else indexOfFrom c s' (i + 1)%Z
  end.

Definition indexOf (s : string) (c : ascii) : Z := indexOfFrom c s 0%Z.

(** [s.split(c)] for a one-character separator: the segments between the
    separators, never an empty array. *)
Fixpoint split (c : ascii) (s : string) : list string :=
  match s with
  | EmptyString => [EmptyString]
  | String a s' =>
      if Ascii.eqb a c then EmptyString :: split c s'
      else
        match split c s' with
        | seg :: segs => String a seg :: segs
        | [] => [String a EmptyString]
        end
  end.

(** White space skipped by [parseInt] (the ASCII part of it). *)
Definition isWhiteSpace (c : ascii) : bool :=
  let n := nat_of_ascii c in
  (((9 <=? n) && (n <=? 13)) || (n =? 32))%nat.

Fixpoint trimStart (s : string) : string :=
  match s with
  | String c s' => if isWhiteSpace c then trimStart s' else s
  | EmptyString => EmptyString
  end.

Definition digitValue (c : ascii) : option Z :=
  let n := nat_of_ascii c in
  if ((48 <=? n) && (n <=? 57))%nat then Some (Z.of_nat (n - 48)) else None.

(** The longest prefix of decimal digits; [acc] is [None] until a digit
    has been read. *)
Fixpoint parseDigits (s : string) (acc : option Z) : option Z :=
  match s with
  | String c s' =>
      match digitValue c with
      | Some d =>
          parseDigits s'
            (Some (10 * match acc with Some a => a | None => 0 end + d)%Z)
      | None => acc
      end
  | EmptyString => acc
  end.

(** [parseInt(s, 10)]: leading white space, an optional sign, then the
    digits up to the first other character; [None] is NaN.  (The value is
    kept exact; a double rounds it only beyond 2^53, far above any array
    index.) *)
Definition parseInt (s : string) : option Z :=
  match trimStart s with
  | String "-" s' => option_map Z.opp (parseDigits s' None)
  | String "+" s' => parseDigits s' None
  | s' => parseDigits s' None
  end.

(** Every character of [s] satisfies [p]. *)
Fixpoint allChars (p : ascii -> bool) (s : string) : bool :=
  match s with
  | EmptyString => true
  | String c s' => p c && allChars p s'
  end.

(** Some character of [s] satisfies [p]. *)
Fixpoint someChar (p : ascii -> bool) (s : string) : bool :=
  match s with
  | EmptyString => false
  | String c s' => p c || someChar p s'
  end.

End Str.

(** ** Avro schema types, as far as the parser looks at them

    The Avro library is an external collaborator.  Of a parsed schema the
    parser uses: the field list of a record ([getFields]), the name and
    type of a field ([getName] / [_name], [_type]), the branches of a
    union ([getTypes], a method that only union types have) and the test
    [instanceof RecordType]. *)

Module Avro.

Inductive AvroType : Type :=
  | OtherType (name : string)
  | RecordType (fields : list Field)
  | UnionType (types : list AvroType)
with Field : Type :=
  | mkField (_name : string) (_type : AvroType).

Definition getName (f : Field) : string :=
  match f with mkField n _ => n end.

Definition fieldType (f : Field) : AvroType :=
  match f with mkField _ t => t end.

(** [type.getTypes()]: a TypeError on a type that is not a union. *)
Definition getTypes (t : AvroType) : option (list AvroType) :=
  match t with
  | UnionType types => Some types
  | _ => None
  end.

Definition instanceofRecordType (t : AvroType) : bool :=
  match t with
  | RecordType _ => true
  | _ => false
  end.

(** [type.getFields()]: a method that only record types have, so a
    TypeError on a type that is not a record. *)
Definition getFields (t : AvroType) : option (list Field) :=
  match t with
  | RecordType fields => Some fields
  | _ => None
  end.

End Avro.

(** ** Decoded values *)

Module Value.

Import JS.

Inductive JSPrimitive : Type :=
  | PUndefined
  | PNull
  | PBoolean (b : bool)
  | PInt (n : JSInt)
  | PString (s : string).

(** An object is the ordered list of its own enumerable properties, keys
    pairwise distinct; an array is the object whose keys are its indices.
    A decoded record is a tree: no object is shared between two places. *)
Inductive JSValue : Type :=
  | JSPrim (p : JSPrimitive)
  | JSObject (props : list (string * JSValue)).

Definition typeof (v : JSValue) : string :=
  match v with
  | JSObject _ => "object"
  | JSPrim PNull => "object"
  | JSPrim PUndefined => "undefined"
  | JSPrim (PBoolean _) => "boolean"
  | JSPrim (PInt (JNumber _)) => "number"
  | JSPrim (PInt (JBigInt _)) => "bigint"
  | JSPrim (PString _) => "string"
  end.

(** The truth value of [v] in a condition. *)
Definition truthy (v : JSValue) : bool :=
  match v with
  | JSObject _ => true
  | JSPrim PNull => false
  | JSPrim PUndefined => false
  | JSPrim (PBoolean b) => b
  | JSPrim (PInt n) => negb (valueOf n =? 0)%Z
  | JSPrim (PString s) => negb (s =? "")
  end.

(** [Object.keys(v)]. *)
Definition keys (v : JSValue) : list string :=
  match v with
  | JSObject props => map fst props
  | JSPrim _ => []
  end.

End Value.

(** ** The event parser ([src/utils/eventParser.js]) *)

Module EventParser.

Import Str Avro Value.

(** [hexToBin]: drop the two-character prefix, then sixteen successive
    [replaceAll], in the order of the source. *)
Definition hexToBin (hex : string) : string :=
  let bin := substringFrom 2 hex in
  let bin := replaceAll "0" "0000" bin in
  let bin := replaceAll "1" "0001" bin in
  let bin := replaceAll "2" "0010" bin in
  let bin := replaceAll "3" "0011" bin in
  let bin := replaceAll "4" "0100" bin in
  let bin := replaceAll "5" "0101" bin in
  let bin := replaceAll "6" "0110" bin in
  let bin := replaceAll "7" "0111" bin in
  let bin := replaceAll "8" "1000" bin in
  let bin := replaceAll "9" "1001" bin in
  let bin := replaceAll "A" "1010" bin in
  let bin := replaceAll "B" "1011" bin in
  let bin := replaceAll "C" "1100" bin in
  let bin := replaceAll "D" "1101" bin in
  let bin := replaceAll "E" "1110" bin in
  let bin := replaceAll "F" "1111" bin in
  bin.

(** One turn of the loop of [getFieldNamesFromBitmap] at index [i]. *)
Definition pushIfSet (binValue : string) (fields : list Field)
    (fieldNames : list string) (i : nat) : list string :=
  match String.get i binValue, nth_error fields i with
  | Some c, Some f =>
      if Ascii.eqb c "1" then fieldNames ++ [getName f] else fieldNames
  | _, _ => fieldNames
  end.

(** [getFieldNamesFromBitmap]: the loop runs [i] from 0 while
    [i < binValue.length && i < fields.length]. *)
Definition getFieldNamesFromBitmap (fields : list Field)
    (fieldBitmapAsHex : string) : list string :=
  let binValue := reverse (hexToBin fieldBitmapAsHex) in
  fold_left (pushIfSet binValue fields)
    (seq 0 (Nat.min (String.length binValue) (List.length fields))) [].

(** [array.forEach] with a callback that may throw. *)
Fixpoint forEach {A S : Type} (callback : S -> A -> option S)
    (l : list A) (s : S) : option S :=
  match l with
  | [] => Some s
  | a :: l' => s' <- callback s a ;; forEach callback l' s'
  end.

(** [getChildFields]: the fields of the record-typed branches of the
    parent's union type.  [parentField] is [None] for [undefined], on
    which the property access throws, as [getTypes] does on a type that
    is not a union; [getFields] is called behind the test
    [instanceof RecordType]. *)
Definition getChildFields (parentField : option Field)
    : option (list Field) :=
  parent <- parentField ;;
  types <- getTypes (fieldType parent) ;;
  forEach
    (fun fields type =>
       if instanceofRecordType type
       then recordFields <- getFields type ;; Some (fields ++ recordFields)
       else Some fields)
    types [].

(** [array[index]] for the result of [parseInt]: [undefined] unless the
    index is an integer within the array. *)
Definition arrayGet {A : Type} (l : list A) (index : option Z) : option A :=
  match index with
  | Some z => if (0 <=? z)%Z then nth_error l (Z.to_nat z) else None
  | None => None
  end.

(** The callback of the compound-field loop of [parseFieldBitmaps]. *)
Definition addChildFieldNames (allFields : list Field)
    (fieldNames : list string) (fieldBitmapAsHex : string)
    : option (list string) :=
  match split "-" fieldBitmapAsHex with
  | parentIndex :: childBitmap :: _ =>
      let parentField := arrayGet allFields (parseInt parentIndex) in
      childFields <- getChildFields parentField ;;
      parent <- parentField ;;
      let childFieldNames := getFieldNamesFromBitmap childFields childBitmap in
      Some (fieldNames ++
            map (fun fieldName =>
                   String.append (getName parent)
                     (String.append "." fieldName))
                childFieldNames)
  | _ => Some fieldNames
  end.

(** [parseFieldBitmaps]. *)
Definition parseFieldBitmaps (allFields : list Field)
    (fieldBitmapsAsHex : list string) : option (list string) :=
  match fieldBitmapsAsHex with
  | [] => Some []
  | first :: _ =>
      let fieldNames :=
        if startsWith first "0x" then getFieldNamesFromBitmap allFields first
        else [] in
      if (1 <? List.length fieldBitmapsAsHex)%nat
         && negb (indexOf (last fieldBitmapsAsHex "") "-" =? -1)%Z
      then forEach (addChildFieldNames allFields) fieldBitmapsAsHex fieldNames
      else Some fieldNames
  end.

(** [flattenSinglePropertyObjects]: the object after the in-place update.
    Every entry of [Object.entries(theObject)] assigns at most its own
    key, so the update is entry by entry. *)
Fixpoint flattenSinglePropertyObjects (theObject : JSValue) : JSValue :=
  match theObject with
  | JSPrim _ => theObject
  | JSObject props =>
      JSObject
        (map (fun entry : string * JSValue =>
                let (key, value) := entry in
                if negb (key =? "ChangeEventHeader")%string
                   && truthy value && (typeof value =? "object")%string
                then
                  match value with
                  | JSObject [(_, subValue)] =>
                      if truthy subValue
                         && (typeof subValue =? "object")%string
                      then (key, flattenSinglePropertyObjects subValue)
                      else (key, subValue)
                  | _ => entry
                  end
                else entry)
             props)
  end.

(** The callback of the [forEach] of [flattenSinglePropertyObjects], on
    its own: what becomes of one entry. *)
Definition flattenEntry (entry : string * JSValue) : string * JSValue :=
  let (key, value) := entry in
  if negb (key =? "ChangeEventHeader")%string
     && truthy value && (typeof value =? "object")%string
  then
    match value with
    | JSObject [(_, subValue)] =>
        if truthy subValue && (typeof subValue =? "object")%string
        then (key, flattenSinglePropertyObjects subValue)
        else (key, subValue)
    | _ => entry
    end
  else entry.

(** The unwrapped value of a single-key object holding [subValue], with
    the flattening repeated on it when it is itself an object. *)
Definition unwrapped (subValue : JSValue) : JSValue :=
  match subValue with
  | JSObject _ => flattenSinglePropertyObjects subValue
  | JSPrim _ => subValue
  end.

End EventParser.

(** ** The custom Avro long type ([CUSTOM_LONG_AVRO_TYPE], [src/client.js]) *)

Module LongType.

Import JS Buffer.
Local Open Scope Z_scope.

(** [BigInt.asIntN(64, big)]. *)
Definition asIntN64 (big : Z) : Z := (big + 2 ^ 63) mod 2 ^ 64 - 2 ^ 63.

(** [fromBuffer]: a BigInt strictly outside the safe range, a number
    inside. *)
Definition fromBuffer (buf : Buffer) : option JSInt :=
  big <- readBigInt64LE buf ;;
  Some (if lessThan (JBigInt big) (JNumber MIN_SAFE_INTEGER)
           || lessThan (JNumber MAX_SAFE_INTEGER) (JBigInt big)
        then JBigInt big
        else Number (JBigInt (asIntN64 big))).

(** [toBuffer]: both branches of the [instanceof] test write
    [BigInt(n)] (a BigInt is its own [BigInt(n)]). *)
Definition toBuffer (n : JSInt) : option Buffer :=
  writeBigInt64LE (BigInt n).

(** [fromJSON] is [BigInt], [toJSON] is [Number]. *)
Definition fromJSON (n : JSInt) : JSInt := JBigInt (BigInt n).

Definition toJSON (n : JSInt) : JSInt := Number n.

(** [isValid]: an integer-valued number, or a BigInt. *)
Definition isValid (n : JSInt) : bool :=
  match n with
  | JNumber z => (z mod 1 =? 0)
  | JBigInt _ => true
  end.

(** [compare]: [n1 === n2 ? 0 : n1 < n2 ? -1 : 1]. *)
Definition compare (n1 n2 : JSInt) : Z :=
  if strictEquals n1 n2 then 0 else if lessThan n1 n2 then -1 else 1.

(** The comparison by numeric value that the specification asks for. *)
Definition numericCompare (n1 n2 : JSInt) : Z :=
  match valueOf n1 ?= valueOf n2 with
  | Eq => 0
  | Lt => -1
  | Gt => 1
  end.

(** A value in the representation [fromBuffer] chooses for it. *)
Definition canonical (n : JSInt) : Prop :=
  match n with
  | JNumber z => MIN_SAFE_INTEGER <= z <= MAX_SAFE_INTEGER
  | JBigInt z => z < MIN_SAFE_INTEGER \/ MAX_SAFE_INTEGER < z
  end.

End LongType.

(** ** User-supplied authentication ([connectWithAuth], [src/client.js]) *)

Module Auth.

Import Str.

(** The argument handed to [#connectToPubSubApi]. *)
Record ConnectionMetadata : Type := mkConnectionMetadata {
  accessToken : option string;
  instanceUrl : string;
  organizationId : string
}.

(** The three errors the function throws, with the value quoted in the
    message. *)
Inductive ValidationError : Type :=
  | InvalidInstanceUrl (supplied : option string)
  | UnparsableAccessToken
  | InvalidOrgId (supplied : string).

(** [!s] for an optional string argument: absent, or empty. *)
Definition falsy (s : option string) : bool :=
  match s with
  | None => true
  | Some s => (s =? "")%string
  end.

(** [accessToken.split("!").at(0)]; a TypeError when the token is absent. *)
Definition deriveOrganizationId (accessToken : option string)
    : option string :=
  token <- accessToken ;;
  hd_error (split "!" token).

(** [connectWithAuth], up to the call of [#connectToPubSubApi]: the
    metadata passed on, or the error thrown. *)
Definition connectWithAuth (accessToken instanceUrl organizationId
    : option string) : ValidationError + ConnectionMetadata :=
  match instanceUrl with
  | Some url =>
      if falsy instanceUrl || negb (startsWith url "https://")
      then inl (InvalidInstanceUrl instanceUrl)
      else
        let derived :=
          if falsy organizationId then deriveOrganizationId accessToken
          else organizationId in
        match derived with
        | None => inl UnparsableAccessToken
        | Some validOrganizationId =>
            if negb (String.length validOrganizationId =? 15)%nat
               && negb (String.length validOrganizationId =? 18)%nat
            then inl (InvalidOrgId validOrganizationId)
            else inr (mkConnectionMetadata accessToken url
                        validOrganizationId)
        end
  | None => inl (InvalidInstanceUrl instanceUrl)
  end.

End Auth.

(** ** The subscription emitter and the stream handlers
    ([src/pubSubEventEmitter.js], [#subscribe] in [src/client.js]) *)

Module Subscription.

Import JS Buffer ReplayId Value.
Local Open Scope Z_scope.

(** An event of a server message. *)
Record RawEvent : Type := mkRawEvent {
  replayId : Buffer;
  schemaId : string;
  payload : Buffer
}.

(** The result of [parseEvent]. *)
Record ParsedEvent : Type := mkParsedEvent {
  parsedReplayId : JSInt;
  parsedPayload : JSValue
}.

(** The message of an [EventParseError]: which of the two templates, and
    the replay identifier it quotes. *)
Inductive ParseErrorMessage : Type :=
  | FailedWithReplayId (replayId : JSInt)
  | FailedWithUnknownReplayId (latestReplayId : JSInt).

Record EventParseError : Type := mkEventParseError {
  message : ParseErrorMessage;
  cause : string;
  errorReplayId : option JSInt;
  event : RawEvent;
  errorLatestReplayId : JSInt
}.

(** A message of the server stream; [events] is [None] when the property
    is absent, which is how a message without events is delivered. *)
Record FetchResponse : Type := mkFetchResponse {
  latestReplayId : Buffer;
  events : option (list RawEvent);
  pendingNumRequested : Z
}.

(** The same message after [data.latestReplayId = latestReplayId]. *)
Record KeepaliveData : Type := mkKeepaliveData {
  keepaliveLatestReplayId : JSInt;
  keepaliveEvents : option (list RawEvent);
  keepalivePendingNumRequested : Z
}.

(** The second argument of [emit]; [ThrownArgs] is a value caught from
    [super.emit] and emitted in its turn. *)
Inductive Args : Type :=
  | NoArgs
  | ParsedArgs (parsedEvent : ParsedEvent)
  | ParseErrorArgs (parseError : EventParseError)
  | StreamErrorArgs (error : string)
  | KeepaliveArgs (data : KeepaliveData)
  | StatusArgs (status : string)
  | ThrownArgs (thrown : string).

(** The emitter: its three private fields, and the notifications handed
    to [super.emit] so far, oldest first. *)
Record PubSubEventEmitter : Type := mkPubSubEventEmitter {
  topicName : string;
  requestedEventCount : Z;
  receivedEventCount : Z;
  emitted : list (string * Args)
}.

(** The constructor. *)
Definition newPubSubEventEmitter (topic : string) (requested : Z)
    : PubSubEventEmitter :=
  mkPubSubEventEmitter topic requested 0 [].

(** [emit(eventName, args)]: the count, then [super.emit], of which the
    record keeps the call.  What [super.emit] does with the notification
    is up to the listeners: see [superEmit] below. *)
Definition emit (eventName : string) (args : Args)
    (emitter : PubSubEventEmitter) : PubSubEventEmitter :=
  let received :=
    if (eventName =? "data")%string then receivedEventCount emitter + 1
    else receivedEventCount emitter in
  mkPubSubEventEmitter (topicName emitter) (requestedEventCount emitter)
    received (emitted emitter ++ [(eventName, args)]).

Definition getRequestedEventCount (emitter : PubSubEventEmitter) : Z :=
  requestedEventCount emitter.

Definition getReceivedEventCount (emitter : PubSubEventEmitter) : Z :=
  receivedEventCount emitter.

Definition setRequestedEventCount (requested : Z)
    (emitter : PubSubEventEmitter) : PubSubEventEmitter :=
  mkPubSubEventEmitter (topicName emitter) requested
    (receivedEventCount emitter) (emitted emitter).

(** [replayId ? ... : ...] on the replay identifier of a failed event:
    [undefined] and 0 are falsy. *)
Definition parseErrorMessage (replayId : option JSInt)
    (latestReplayId : JSInt) : ParseErrorMessage :=
  match replayId with
  | Some id =>
      if valueOf id =? 0 then FailedWithUnknownReplayId latestReplayId
      else FailedWithReplayId id
  | None => FailedWithUnknownReplayId latestReplayId
  end.

(** In this section the listeners registered on the emitter return
    normally and one of them is registered for "error", so that every
    call of [super.emit] returns; section [Listeners] takes the
    per-event callback up again without that. *)

Section Handlers.

(** The awaited schema lookup followed by [parseEvent(schema, event)]:
    [Some (inr parsedEvent)], or [Some (inl error)] with the error either
    of them throws, for an event whose lookup settles; [None] for an
    event whose lookup never settles, which is what happens when the
    schema the server sends does not parse: [avro.parse] throws inside
    the callback of [GetSchema], and the promise awaited is neither
    resolved nor rejected.  Both depend on the transport and on the Avro
    library.  The events of a stream differ by their replay identifier,
    so the outcome is a function of the event. *)
Variable decodeEvent : RawEvent -> option (string + ParsedEvent).

(** The body of the per-event callback.  On an event whose lookup never
    settles the callback stays suspended at its [await] and does
    nothing; otherwise it runs, from the point where the lookup has
    settled, as one step, since nothing else in it awaits.  The [catch]
    around the emission of the parse error stays idle here; [perEvent]
    below is the callback with it. *)
Definition onEvent (latest : JSInt) (emitter : PubSubEventEmitter)
    (ev : RawEvent) : PubSubEventEmitter :=
  match decodeEvent ev with
  | None => emitter
  | Some outcome =>
      let emitter :=
        match outcome with
        | inr parsedEvent => emit "data" (ParsedArgs parsedEvent) emitter
        | inl error =>
            let decoded := decodeReplayId (replayId ev) in
            let parseError :=
              mkEventParseError (parseErrorMessage decoded latest) error
                decoded ev latest in
            emit "error" (ParseErrorArgs parseError) emitter
        end in
      if getReceivedEventCount emitter =? getRequestedEventCount emitter
      then emit "lastevent" NoArgs emitter
      else emitter
  end.

(** The per-event steps of a batch, in the order [completion] in which
    the schema lookups settle. *)
Definition processEvents (latest : JSInt) (completion : list RawEvent)
    (emitter : PubSubEventEmitter) : PubSubEventEmitter :=
  fold_left (onEvent latest) completion emitter.

(** The listener of the stream's "data": [None] when decoding the latest
    replay identifier throws.  The events complete in batch order here;
    [processEvents] gives every other order. *)
Definition onData (data : FetchResponse) (emitter : PubSubEventEmitter)
    : option PubSubEventEmitter :=
  latest <- decodeReplayId (latestReplayId data) ;;
  match events data with
  | Some evs => Some (processEvents latest evs emitter)
  | None =>
      Some (emit "keepalive"
              (KeepaliveArgs
                 (mkKeepaliveData latest (events data)
                    (pendingNumRequested data)))
              emitter)
  end.

(** The listeners of "end", "error" and "status". *)
Definition onEnd (emitter : PubSubEventEmitter) : PubSubEventEmitter :=
  emit "end" NoArgs emitter.

Definition onError (error : string) (emitter : PubSubEventEmitter)
    : PubSubEventEmitter :=
  emit "error" (StreamErrorArgs error) emitter.

Definition onStatus (status : string) (emitter : PubSubEventEmitter)
    : PubSubEventEmitter :=
  emit "status" (StatusArgs status) emitter.

(** How many notifications named [eventName] a log holds. *)
Definition countEmitted (eventName : string) (log : list (string * Args))
    : nat :=
  List.length (filter (fun n => (fst n =? eventName)%string) log).

(** Whether the schema lookup and [parseEvent] succeed on an event. *)
Definition decodes (ev : RawEvent) : bool :=
  match decodeEvent ev with
  | Some (inr _) => true
  | _ => false
  end.

(** Whether the schema lookup or [parseEvent] throws on an event. *)
Definition fails (ev : RawEvent) : bool :=
  match decodeEvent ev with
  | Some (inl _) => true
  | _ => false
  end.

(** Whether the schema lookup of an event settles. *)
Definition settles (ev : RawEvent) : bool :=
  match decodeEvent ev with
  | Some _ => true
  | None => false
  end.

(** How many events of a list decode, and how many fail. *)
Definition countDecoded (evs : list RawEvent) : nat :=
  List.length (filter decodes evs).

Definition countFailed (evs : list RawEvent) : nat :=
  List.length (filter fails evs).

(** The notification [onEvent] emits for the event itself: none for an
    event whose lookup never settles. *)
Definition eventNotification (latest : JSInt) (ev : RawEvent)
    : list (string * Args) :=
  match decodeEvent ev with
  | Some (inr parsedEvent) => [("data", ParsedArgs parsedEvent)]
  | Some (inl error) =>
      [("error",
        ParseErrorArgs
          (mkEventParseError
             (parseErrorMessage (decodeReplayId (replayId ev)) latest)
             error (decodeReplayId (replayId ev)) ev latest))]
  | None => []
  end.

End Handlers.

(** How the promise of the per-event callback ends: fulfilled, rejected,
    or suspended for good at its [await]. *)
Inductive Completion : Type :=
  | Fulfilled
  | Rejected (reason : string)
  | Suspended.

Section Listeners.

Variable decodeEvent : RawEvent -> option (string + ParsedEvent).

(** What [super.emit] does with a notification, which depends on the
    listeners registered on the emitter: [None] when it returns,
    [Some thrown] when it throws.  It throws what a listener throws and,
    by the rule of Node's [EventEmitter], an "error" that has no
    listener.  It is taken to depend on the notification only, and the
    logger to return, as [console] does. *)
Variable superEmit : string -> Args -> option string.

(** The [try] block of the callback after the lookup has settled with
    [outcome]: the emitter, and the error caught, if any.  A "data"
    whose listener throws has been counted already. *)
Definition tryEmitData (outcome : string + ParsedEvent)
    (emitter : PubSubEventEmitter) : PubSubEventEmitter * option string :=
  match outcome with
  | inr parsedEvent =>
      (emit "data" (ParsedArgs parsedEvent) emitter,
       superEmit "data" (ParsedArgs parsedEvent))
  | inl error => (emitter, Some error)
  end.

(** The [catch] block on [error]: the parse error is emitted; when that
    throws, what was thrown is emitted in its turn, and what this second
    emission throws leaves the callback. *)
Definition catchAndEmitError (latest : JSInt) (ev : RawEvent)
    (error : string) (emitter : PubSubEventEmitter)
    : PubSubEventEmitter * option string :=
  let decoded := decodeReplayId (replayId ev) in
  let parseError :=
    mkEventParseError (parseErrorMessage decoded latest) error
      decoded ev latest in
  let emitter := emit "error" (ParseErrorArgs parseError) emitter in
  match superEmit "error" (ParseErrorArgs parseError) with
  | None => (emitter, None)
  | Some eventParseError =>
      (emit "error" (ThrownArgs eventParseError) emitter,
       superEmit "error" (ThrownArgs eventParseError))
  end.

(** The per-event callback, whatever the listeners do. *)
Definition perEvent (latest : JSInt) (emitter : PubSubEventEmitter)
    (ev : RawEvent) : PubSubEventEmitter * Completion :=
  match decodeEvent ev with
  | None => (emitter, Suspended)
  | Some outcome =>
      let (emitter, caught) := tryEmitData outcome emitter in
      let (emitter, thrown) :=
        match caught with
        | Some error => catchAndEmitError latest ev error emitter
        | None => (emitter, None)
        end in
      match thrown with
      | Some reason => (emitter, Rejected reason)
      | None =>
          if getReceivedEventCount emitter =? getRequestedEventCount emitter
          then
            (emit "lastevent" NoArgs emitter,
             match superEmit "lastevent" NoArgs with
             | Some reason => Rejected reason
             | None => Fulfilled
             end)
          else (emitter, Fulfilled)
      end
  end.

End Listeners.

End Subscription.

(** ** The resolver as the specification words it

    These definitions follow the specification, not the code; the
    theorems below compare the parser with them. *)

Module BitmapSpec.

Import Str Avro.

(** The digits the parser expands. *)
Definition isUpperHex (c : ascii) : bool :=
  let n := nat_of_ascii c in
  (((48 <=? n) && (n <=? 57)) || ((65 <=? n) && (n <=? 70)))%nat.

(** The lower-case letters a to f. *)
Definition isLowerHex (c : ascii) : bool :=
  let n := nat_of_ascii c in
  ((97 <=? n) && (n <=? 102))%nat.

(** The value of a hexadecimal digit of either case (0 for any other
    character). *)
Definition hexDigitValue (c : ascii) : Z :=
  let n := nat_of_ascii c in
  if ((48 <=? n) && (n <=? 57))%nat then Z.of_nat (n - 48)
  else if ((65 <=? n) && (n <=? 70))%nat then Z.of_nat (n - 55)
  else if ((97 <=? n) && (n <=? 102))%nat then Z.of_nat (n - 87)
  else 0%Z.

(** The number a string of hexadecimal digits denotes, four bits a
    digit. *)
Definition hexValue (digits : string) : Z :=
  fold_left (fun acc c => (16 * acc + hexDigitValue c)%Z)
    (list_ascii_of_string digits) 0%Z.

(** The names of the fields whose position, counted from [i], is a set
    bit of [v], in declaration order. *)
Fixpoint setBitFieldsFrom (v : Z) (i : nat) (fields : list Field)
    : list string :=
  match fields with
  | [] => []
  | f :: fields' =>
      (if Z.testbit v (Z.of_nat i) then [getName f] else [])
      ++ setBitFieldsFrom v (S i) fields'
  end.

Definition setBitFields (v : Z) (fields : list Field) : list string :=
  setBitFieldsFrom v 0 fields.

(** The four low bits of [v] as a binary numeral, most significant bit
    first. *)
Definition binary4 (v : Z) : string :=
  let bit (k : Z) : ascii := if Z.testbit v k then "1"%char else "0"%char in
  String (bit 3%Z) (String (bit 2%Z) (String (bit 1%Z)
    (String (bit 0%Z) EmptyString))).

(** The member fields of the record-typed branches of a union. *)
Definition recordBranchFields (t : AvroType) : option (list Field) :=
  match t with
  | UnionType branches =>
      Some (flat_map (fun branch => match branch with
                                    | RecordType fields => fields
                                    | _ => []
                                    end) branches)
  | _ => None
  end.

(** One entry read as the pair ["<parentFieldIndex>-<childBitmapHex>"]:
    the dotted names it yields under the resolver [resolve] of a single
    bitmap; an entry without separator yields none; [None] when the
    parent cannot be resolved. *)
Definition resolvePair (resolve : list Field -> string -> list string)
    (allFields : list Field) (entry : string) : option (list string) :=
  match split "-" entry with
  | parentFieldIndex :: childBitmapHex :: _ =>
      index <- parseInt parentFieldIndex ;;
      parent <- (if (0 <=? index)%Z then nth_error allFields (Z.to_nat index)
                 else None) ;;
      nested <- recordBranchFields (fieldType parent) ;;
      Some (map (fun child => String.append (getName parent)
                                (String.append "." child))
                (resolve nested childBitmapHex))
  | _ => Some []
  end.

(** All entries read as pairs, their names in sequence order. *)
Fixpoint resolvePairs (resolve : list Field -> string -> list string)
    (allFields : list Field) (entries : list string)
    : option (list string) :=
  match entries with
  | [] => Some []
  | entry :: entries' =>
      names <- resolvePair resolve allFields entry ;;
      rest <- resolvePairs resolve allFields entries' ;;
      Some (names ++ rest)
  end.

(** A hexadecimal digit of either case. *)
Definition isHexDigit (c : ascii) : bool := isUpperHex c || isLowerHex c.

End BitmapSpec.

(** ** Auxiliary notions for the proofs about bitmaps *)

Module BitmapAux.

Import Str Avro BitmapSpec.

(** What the parser makes of one character of a bitmap: the four bits of
    an upper-case digit, any other character as it is. *)
Definition expandDigit (c : ascii) : string :=
  if isUpperHex c then binary4 (hexDigitValue c) else String c EmptyString.

Fixpoint expandDigits (s : string) : string :=
  match s with
  | EmptyString => EmptyString
  | String c s' => String.append (expandDigit c) (expandDigits s')
  end.

(** The number whose set bits the parser reads off the digits of a
    bitmap: an upper-case digit counts for the four bits of its value,
    any other character for a single bit that is not set. *)
Definition readValue (digits : string) : Z :=
  fold_left (fun acc c => if isUpperHex c
                          then (16 * acc + hexDigitValue c)%Z
                          else (2 * acc)%Z)
    (list_ascii_of_string digits) 0%Z.

(** The upper-case form of a hexadecimal digit. *)
Definition toUpperHex (c : ascii) : ascii :=
  if isLowerHex c then ascii_of_nat (nat_of_ascii c - 32) else c.

Fixpoint mapChars (f : ascii -> ascii) (s : string) : string :=
  match s with
  | EmptyString => EmptyString
  | String c s' => String (f c) (mapChars f s')
  end.

(** The names of the fields that face a "1" when a bit string and a
    field list are laid side by side. *)
Fixpoint namesOfBits (bits : string) (fields : list Field) : list string :=
  match bits, fields with
  | String c bits', f :: fields' =>
      (if Ascii.eqb c "1" then [getName f] else [])
      ++ namesOfBits bits' fields'
  | _, _ => []
  end.

(** Whether position [i] of a bit string holds a "1". *)
Definition bitAt (bits : list ascii) (i : nat) : bool :=
  match nth_error bits i with
  | Some c => Ascii.eqb c "1"
  | None => false
  end.

(** How many "1" a string holds. *)
Fixpoint countOnes (s : string) : nat :=
  match s with
  | EmptyString => 0
  | String c s' => (if Ascii.eqb c "1" then 1 else 0) + countOnes s'
  end.

End BitmapAux.

(** ** Sample data for the concrete instances below *)

Module Sample.

Import JS Buffer ReplayId Avro Value Subscription.

(** A decoder that fails on an empty payload and on a replay identifier
    it cannot read, and never settles on the schema "schema-0", which
    does not parse. *)
Definition decodeEvent (ev : RawEvent) : option (string + ParsedEvent) :=
  if (schemaId ev =? "schema-0")%string then None
  else
    match decodeReplayId (replayId ev), payload ev with
    | Some id, _ :: _ => Some (inr (mkParsedEvent id (JSObject [])))
    | Some _, [] => Some (inl "truncated payload")
    | None, _ => Some (inl "truncated replay id")
    end.

Definition goodEvent : RawEvent :=
  mkRawEvent [0; 0; 0; 0; 0; 0; 0; 1]%Z "schema-1" [2; 4]%Z.

Definition badEvent : RawEvent :=
  mkRawEvent [0; 0; 0; 0; 0; 0; 0; 2]%Z "schema-1" [].

(** What [super.emit] does on an emitter whose listeners return and
    that has none for "error". *)
Definition noErrorListener (eventName : string) (args : Args)
    : option string :=
  if (eventName =? "error")%string then Some "Unhandled error" else None.

(** A message with the two events, and a message without events. *)
Definition batch : FetchResponse :=
  mkFetchResponse [0; 0; 0; 0; 0; 0; 0; 2]%Z (Some [goodEvent; badEvent]) 0.

Definition keepalive : FetchResponse :=
  mkFetchResponse [0; 0; 0; 0; 0; 0; 0; 2]%Z None 98.

(** The fields of a change event: five scalars and, at index 4, a
    compound address. *)
Definition scalar (name : string) : Field :=
  mkField name (UnionType [OtherType "null"; OtherType "string"]).

Definition address : Field :=
  mkField "Address"
    (UnionType
       [OtherType "null";
        RecordType [scalar "Street"; scalar "City"; scalar "PostalCode"]]).

Definition accountFields : list Field :=
  [scalar "Name"; scalar "Phone"; scalar "Website"; scalar "Industry";
   address; scalar "Rating"].

(** A record of five scalar fields. *)
Definition leadFields : list Field :=
  [scalar "Name"; scalar "Phone"; scalar "Company"; scalar "Email";
   scalar "Status"].

(** A decoded change event: union values arrive wrapped in an object
    with the branch name as its single key. *)
Definition accountAttributes : list (string * JSValue) :=
  [("ChangeEventHeader",
    JSObject [("entityName", JSPrim (PString "Account"))]);
   ("Name", JSObject [("string", JSPrim (PString "Acme"))]);
   ("Employees", JSPrim (PInt (JNumber 5)));
   ("Address",
    JSObject
      [("Address",
        JSObject
          [("Street", JSObject [("string", JSPrim (PString "Main"))]);
           ("City", JSPrim PNull)])]);
   ("Owner", JSObject [("a", JSObject [("b", JSPrim (PBoolean true))])])].

Definition decodedAccount : JSValue := JSObject accountAttributes.

End Sample.

(** * Further parts of the program *)

(** ** Configuration ([src/utils/configuration.js]) *)

Module Configuration.

(** [process.env] once [dotenv.config()] has run. *)
Definition Env := string -> option string.

Definition AUTH_USER_SUPPLIED : string := "user-supplied".
Definition AUTH_USERNAME_PASSWORD : string := "username-password".
Definition AUTH_OAUTH_CLIENT_CREDENTIALS : string :=
  "oauth-client-credentials".
Definition AUTH_OAUTH_JWT_BEARER : string := "oauth-jwt-bearer".

(** The three errors of [load], with the value their message quotes. *)
Inductive ConfigurationError : Type :=
  | MissingVariable (varName : string)
  | PrivateKeyFileUnreadable
  | InvalidAuthType (value : option string).

(** [!process.env[varName]]: unset, or empty. *)
Definition missing (env : Env) (varName : string) : bool :=
  match env varName with
  | None => true
  | Some value => (value =? "")%string
  end.

(** [#checkMandatoryVariables]: the first missing variable throws. *)
Fixpoint checkMandatoryVariables (env : Env) (varNames : list string)
    : ConfigurationError + unit :=
  match varNames with
  | [] => inr tt
  | varName :: varNames' =>
      if missing env varName then inl (MissingVariable varName)
      else checkMandatoryVariables env varNames'
  end.

Definition getAuthType (env : Env) : option string :=
  env "SALESFORCE_AUTH_TYPE".

Definition getSfLoginUrl (env : Env) : option string :=
  env "SALESFORCE_LOGIN_URL".

Definition getSfUsername (env : Env) : option string :=
  env "SALESFORCE_USERNAME".

Definition getSfClientId (env : Env) : option string :=
  env "SALESFORCE_CLIENT_ID".

Definition getSfClientSecret (env : Env) : option string :=
  env "SALESFORCE_CLIENT_SECRET".

Definition getPubSubEndpoint (env : Env) : option string :=
  env "PUB_SUB_ENDPOINT".

(** A value inside a template literal or a string concatenation. *)
Definition toText (value : option string) : string :=
  match value with
  | Some s => s
  | None => "undefined"
  end.

(** [getSfSecuredPassword]: the password, followed by the security token
    when one is set. *)
Definition getSfSecuredPassword (env : Env) : option string :=
  if missing env "SALESFORCE_TOKEN" then env "SALESFORCE_PASSWORD"
  else Some (String.append (toText (env "SALESFORCE_PASSWORD"))
               (toText (env "SALESFORCE_TOKEN"))).

(** [getSfPrivateKey]: [readFile] stands for [fs.readFileSync], [None]
    when it throws (as it does on an absent path). *)
Definition getSfPrivateKey (readFile : string -> option string) (env : Env)
    : ConfigurationError + string :=
  match env "SALESFORCE_PRIVATE_KEY_FILE" with
  | Some keyPath =>
      match readFile keyPath with
      | Some key => inr key
      | None => inl PrivateKeyFileUnreadable
      end
  | None => inl PrivateKeyFileUnreadable
  end.

(** [getAuthType() === mode]. *)
Definition isAuth (mode : string) (env : Env) : bool :=
  match getAuthType env with
  | Some value => (value =? mode)%string
  | None => false
  end.

Definition isUserSuppliedAuth : Env -> bool := isAuth AUTH_USER_SUPPLIED.
Definition isUsernamePasswordAuth : Env -> bool :=
  isAuth AUTH_USERNAME_PASSWORD.
Definition isOAuthClientCredentialsAuth : Env -> bool :=
  isAuth AUTH_OAUTH_CLIENT_CREDENTIALS.
Definition isOAuthJwtBearerAuth : Env -> bool := isAuth AUTH_OAUTH_JWT_BEARER.

(** [load]. *)
Definition load (readFile : string -> option string) (env : Env)
    : ConfigurationError + unit :=
  match checkMandatoryVariables env
          ["SALESFORCE_AUTH_TYPE"; "PUB_SUB_ENDPOINT"] with
  | inl error => inl error
  | inr _ =>
      if isUsernamePasswordAuth env then
        checkMandatoryVariables env
          ["SALESFORCE_LOGIN_URL"; "SALESFORCE_USERNAME";
           "SALESFORCE_PASSWORD"]
      else if isOAuthClientCredentialsAuth env then
        checkMandatoryVariables env
          ["SALESFORCE_LOGIN_URL"; "SALESFORCE_CLIENT_ID";
           "SALESFORCE_CLIENT_SECRET"]
      else if isOAuthJwtBearerAuth env then
        match checkMandatoryVariables env
                ["SALESFORCE_LOGIN_URL"; "SALESFORCE_CLIENT_ID";
                 "SALESFORCE_USERNAME"; "SALESFORCE_PRIVATE_KEY_FILE"] with
        | inl error => inl error
        | inr _ =>
            match getSfPrivateKey readFile env with
            | inl error => inl error
            | inr _ => inr tt
            end
        end
      else if negb (isUserSuppliedAuth env) then
        inl (InvalidAuthType (getAuthType env))
      else inr tt
  end.

End Configuration.

(** ** Authentication flows ([src/utils/auth.js], [connect] of
    [src/client.js]) *)

Module SalesforceAuth.

Import Configuration.
Local Open Scope Z_scope.

(** The three flows [authenticate] chooses from. *)
Inductive Flow : Type :=
  | UsernamePasswordFlow
  | OAuthClientCredentialsFlow
  | OAuthJwtBearerFlow.

(** The dispatch of [authenticate]: [None] is the throw of
    "Unsupported authentication mode.". *)
Definition selectFlow (env : Env) : option Flow :=
  if isUsernamePasswordAuth env then Some UsernamePasswordFlow
  else if isOAuthClientCredentialsAuth env then
    Some OAuthClientCredentialsFlow
  else if isOAuthJwtBearerAuth env then Some OAuthJwtBearerFlow
  else None.

(** What [connect] does before any network call. *)
Inductive ConnectError : Type :=
  | UserSuppliedModeSelected
  | FailedToAuthenticate.

Definition connect (env : Env) : ConnectError + Flow :=
  if isUserSuppliedAuth env then inl UserSuppliedModeSelected
  else
    match selectFlow env with
    | Some flow => inr flow
    | None => inl FailedToAuthenticate
    end.

(** A request handed to [fetch], and its response.  [json] is the parsed
    body as its string properties, [None] when [response.json()]
    throws. *)
Record Request : Type := mkRequest {
  url : string;
  method : option string;
  contentType : option string;
  authorization : option string;
  body : option string
}.

Record Response : Type := mkResponse {
  status : Z;
  text : string;
  json : option (list (string * string))
}.

(** The result of the OAuth flows. *)
Record ConnectionMetadata : Type := mkConnectionMetadata {
  accessToken : option string;
  instanceUrl : option string;
  organizationId : option string;
  username : option string
}.

Inductive AuthenticationError : Type :=
  | FetchFailed
  | InvalidJson
  | AuthenticationHttpError (httpStatus : Z) (responseText : string)
  | UserInfoHttpError (httpStatus : Z) (responseText : string).

(** A property of a parsed JSON object. *)
Fixpoint property (name : string) (object : list (string * string))
    : option string :=
  match object with
  | [] => None
  | (key, value) :: object' =>
      if (key =? name)%string then Some value else property name object'
  end.

Definition tokenRequest (env : Env) (requestBody : string) : Request :=
  mkRequest
    (String.append (toText (getSfLoginUrl env)) "/services/oauth2/token")
    (Some "post") (Some "application/x-www-form-urlencoded") None
    (Some requestBody).

Definition userInfoRequest (env : Env) (access_token : option string)
    : Request :=
  mkRequest
    (String.append (toText (getSfLoginUrl env)) "/services/oauth2/userinfo")
    None None (Some (String.append "Bearer " (toText access_token))) None.

(** [#authWithOAuth]: the result, and the requests issued, in order.
    [fetch] answers a request, [None] when it rejects. *)
Definition authWithOAuth (fetch : Request -> option Response) (env : Env)
    (requestBody : string)
    : (AuthenticationError + ConnectionMetadata) * list Request :=
  let loginRequest := tokenRequest env requestBody in
  match fetch loginRequest with
  | None => (inl FetchFailed, [loginRequest])
  | Some loginResponse =>
      if negb (status loginResponse =? 200) then
        (inl (AuthenticationHttpError (status loginResponse)
                (text loginResponse)),
         [loginRequest])
      else
        match json loginResponse with
        | None => (inl InvalidJson, [loginRequest])
        | Some login =>
            let access_token := property "access_token" login in
            let instance_url := property "instance_url" login in
            let infoRequest := userInfoRequest env access_token in
            match fetch infoRequest with
            | None => (inl FetchFailed, [loginRequest; infoRequest])
            | Some userInfoResponse =>
                if negb (status userInfoResponse =? 200) then
                  (inl (UserInfoHttpError (status userInfoResponse)
                          (text userInfoResponse)),
                   [loginRequest; infoRequest])
                else
                  match json userInfoResponse with
                  | None => (inl InvalidJson, [loginRequest; infoRequest])
                  | Some info =>
                      (inr (mkConnectionMetadata access_token instance_url
                              (property "organization_id" info)
                              (property "preferred_username" info)),
                       [loginRequest; infoRequest])
                  end
            end
        end
  end.

End SalesforceAuth.

(** ** The schema cache ([#getEventSchema], [#getEventSchemaById] and
    the two fetches, [src/client.js]) *)

Module SchemaCache.

Import Avro.

(** A schema as the client keeps it. *)
Record Schema : Type := mkSchema {
  id : string;
  type : AvroType
}.

(** The [Map] of the client: its entries in insertion order. *)
Definition SchemaMap := list (string * Schema).

(** [map.get(key)]. *)
Fixpoint get (key : string) (map : SchemaMap) : option Schema :=
  match map with
  | [] => None
  | (k, schema) :: map' =>
      if (k =? key)%string then Some schema else get key map'
  end.

(** [map.set(key, schema)]: a present key keeps its place. *)
Fixpoint set (key : string) (schema : Schema) (map : SchemaMap)
    : SchemaMap :=
  match map with
  | [] => [(key, schema)]
  | (k, old) :: map' =>
      if (k =? key)%string then (k, schema) :: map'
      else (k, old) :: set key schema map'
  end.

(** The calls made on the gRPC client. *)
Inductive Rpc : Type :=
  | GetTopic (topicName : string)
  | GetSchema (schemaId : string).

(** The transport: the answer of [GetTopic] (the schema id of a topic)
    and of [GetSchema] (the JSON text of a schema), or the error passed
    to the callback. *)
Record Transport : Type := mkTransport {
  getTopic : string -> string + string;
  getSchema : string -> string + string
}.

(** The state the lookups act on: the cache, and the calls made so far,
    oldest first. *)
Record ClientState : Type := mkClientState {
  schemaCache : SchemaMap;
  calls : list Rpc
}.

(** The two errors the lookups throw, with their cause. *)
Inductive SchemaError : Type :=
  | FailedToLoadSchemaForTopic (topicName : string) (cause : string)
  | FailedToLoadSchemaForId (schemaId : string) (cause : string).

(** A lookup by schema id or by topic name. *)
Inductive Lookup : Type :=
  | ById (schemaId : string)
  | ByTopic (topicName : string).

(** What happens on the client, one uninterrupted piece of code each:
    a lookup is called and runs up to its [await]; the callback of a
    [GetTopic] runs with the answer of the server; the callback of a
    [GetSchema] made for the lookup of [key] runs with the answer of the
    server, followed, when it resolves the promise, by the rest of the
    lookup. *)
Inductive Event : Type :=
  | Called (lookup : Lookup)
  | TopicAnswered (topicName : string) (answer : string + string)
  | SchemaAnswered (key schemaId : string) (answer : string + string).

(** The client while lookups overlap: its state, and the lookups
    suspended at their [await], each with the key it was called for and
    the call it waits for. *)
Record Client : Type := mkClient {
  state : ClientState;
  inFlight : list (string * Rpc)
}.

Definition sameRpc (a b : Rpc) : bool :=
  match a, b with
  | GetTopic t1, GetTopic t2 => (t1 =? t2)%string
  | GetSchema s1, GetSchema s2 => (s1 =? s2)%string
  | _, _ => false
  end.

(** One of the lookups in flight for [key] that wait for [rpc] is taken
    out; [None] when there is none. *)
Fixpoint resume (key : string) (rpc : Rpc) (waiting : list (string * Rpc))
    : option (list (string * Rpc)) :=
  match waiting with
  | [] => None
  | (k, r) :: waiting' =>
      if (k =? key)%string && sameRpc r rpc then Some waiting'
      else rest <- resume key rpc waiting' ;; Some ((k, r) :: rest)
  end.

Section WithTransport.

(** [avro.parse] with the registry of the client: [None] when it
    throws. *)
Variable parse : string -> option AvroType.

Variable transport : Transport.

(** [#fetchEventSchemaWithClientById]: what its promise settles to,
    [None] when it never settles, which is the case when [avro.parse]
    throws inside the callback of [GetSchema]. *)
Definition fetchEventSchemaWithClientById (schemaId : string)
    (state : ClientState) : option (string + Schema) * ClientState :=
  let state' :=
    mkClientState (schemaCache state) (calls state ++ [GetSchema schemaId]) in
  match getSchema transport schemaId with
  | inl schemaError => (Some (inl schemaError), state')
  | inr schemaJson =>
      match parse schemaJson with
      | Some schemaType => (Some (inr (mkSchema schemaId schemaType)), state')
      | None => (None, state')
      end
  end.

(** [#fetchEventSchemaWithClient]. *)
Definition fetchEventSchemaWithClient (topicName : string)
    (state : ClientState) : option (string + Schema) * ClientState :=
  let state' :=
    mkClientState (schemaCache state) (calls state ++ [GetTopic topicName]) in
  match getTopic transport topicName with
  | inl topicError => (Some (inl topicError), state')
  | inr schemaId => fetchEventSchemaWithClientById schemaId state'
  end.

(** [#getEventSchemaById], run alone: from its call to the point where
    its promise settles, with nothing else running on the client while
    it awaits the fetch.  [step] below gives the lookups that overlap. *)
Definition getEventSchemaById (schemaId : string) (state : ClientState)
    : option (SchemaError + Schema) * ClientState :=
  match get schemaId (schemaCache state) with
  | Some schema => (Some (inr schema), state)
  | None =>
      match fetchEventSchemaWithClientById schemaId state with
      | (Some (inr schema), state') =>
          (Some (inr schema),
           mkClientState (set schemaId schema (schemaCache state'))
             (calls state'))
      | (Some (inl error), state') =>
          (Some (inl (FailedToLoadSchemaForId schemaId error)), state')
      | (None, state') => (None, state')
      end
  end.

(** [#getEventSchema], run alone. *)
Definition getEventSchema (topicName : string) (state : ClientState)
    : option (SchemaError + Schema) * ClientState :=
  match get topicName (schemaCache state) with
  | Some schema => (Some (inr schema), state)
  | None =>
      match fetchEventSchemaWithClient topicName state with
      | (Some (inr schema), state') =>
          (Some (inr schema),
           mkClientState (set topicName schema (schemaCache state'))
             (calls state'))
      | (Some (inl error), state') =>
          (Some (inl (FailedToLoadSchemaForTopic topicName error)), state')
      | (None, state') => (None, state')
      end
  end.

(** The call of a lookup, up to its [await]: on a hit it returns at
    once; on a miss it makes its first call and waits. *)
Definition called (lookup : Lookup) (client : Client) : Client :=
  let key := match lookup with ById schemaId => schemaId
                             | ByTopic topicName => topicName end in
  let rpc := match lookup with ById schemaId => GetSchema schemaId
                             | ByTopic topicName => GetTopic topicName end in
  match get key (schemaCache (state client)) with
  | Some _ => client
  | None =>
      mkClient
        (mkClientState (schemaCache (state client))
           (calls (state client) ++ [rpc]))
        (inFlight client ++ [(key, rpc)])
  end.

(** One event on the client; [None] when no lookup in flight waits for
    the answer.  An error rejects the lookup; a schema id makes the
    lookup by topic call [GetSchema]; a schema that parses resolves the
    fetch, and the lookup, resumed, sets the cache under its key; a
    schema that does not parse leaves the lookup unsettled. *)
Definition step (event : Event) (client : Client) : option Client :=
  match event with
  | Called lookup => Some (called lookup client)
  | TopicAnswered topicName answer =>
      waiting <- resume topicName (GetTopic topicName) (inFlight client) ;;
      match answer with
      | inl topicError => Some (mkClient (state client) waiting)
      | inr schemaId =>
          Some (mkClient
                  (mkClientState (schemaCache (state client))
                     (calls (state client) ++ [GetSchema schemaId]))
                  (waiting ++ [(topicName, GetSchema schemaId)]))
      end
  | SchemaAnswered key schemaId answer =>
      waiting <- resume key (GetSchema schemaId) (inFlight client) ;;
      match answer with
      | inl schemaError => Some (mkClient (state client) waiting)
      | inr schemaJson =>
          match parse schemaJson with
          | Some schemaType =>
              Some (mkClient
                      (mkClientState
                         (set key (mkSchema schemaId schemaType)
                            (schemaCache (state client)))
                         (calls (state client)))
                      waiting)
          | None => Some (mkClient (state client) waiting)
          end
      end
  end.

(** A sequence of events, in the order in which they happen. *)
Fixpoint steps (events : list Event) (client : Client) : option Client :=
  match events with
  | [] => Some client
  | event :: events' =>
      client' <- step event client ;; steps events' client'
  end.

(** The key whose cache entry an event may set. *)
Definition settledKey (event : Event) : option string :=
  match event with
  | SchemaAnswered key _ (inr _) => Some key
  | _ => None
  end.

(** The events of a lookup by schema id that runs alone, with the
    answers of [transport]. *)
Definition aloneById (schemaId : string) (state : ClientState)
    : list Event :=
  match get schemaId (schemaCache state) with
  | Some _ => [Called (ById schemaId)]
  | None =>
      [Called (ById schemaId);
       SchemaAnswered schemaId schemaId (getSchema transport schemaId)]
  end.

(** The events of a lookup by topic name that runs alone. *)
Definition aloneByTopic (topicName : string) (state : ClientState)
    : list Event :=
  match get topicName (schemaCache state) with
  | Some _ => [Called (ByTopic topicName)]
  | None =>
      Called (ByTopic topicName)
      :: TopicAnswered topicName (getTopic transport topicName)
      :: match getTopic transport topicName with
         | inr schemaId =>
             [SchemaAnswered topicName schemaId
                (getSchema transport schemaId)]
         | inl _ => []
         end
  end.

End WithTransport.

End SchemaCache.

(** ** [parseEvent] ([src/utils/eventParser.js]) *)

Module ParseEvent.

Import JS Buffer ReplayId Avro Value EventParser.

(** The change event header of a decoded payload: its three bitmap
    lists, arrays of strings by the schema of the header, and its other
    attributes. *)
Record ChangeEventHeader : Type := mkChangeEventHeader {
  nulledFields : list string;
  diffFields : list string;
  changedFields : list string;
  otherHeaderAttributes : list (string * JSValue)
}.

(** A decoded payload: the header when it has one, and its other
    attributes in order. *)
Record Payload : Type := mkPayload {
  header : option ChangeEventHeader;
  attributes : list (string * JSValue)
}.

Record ParsedEvent : Type := mkParsedEvent {
  replayId : JSInt;
  payload : Payload
}.

(** What [parseEvent] throws: the TypeError of [schema.type.getFields()]
    on a schema that is not a record, the error of [decodeReplayId], the
    error of the Avro decoder, or "Failed to parse <list>". *)
Inductive ParseFailure : Type :=
  | SchemaNotRecord
  | ReplayIdUnreadable
  | PayloadUndecodable
  | FailedToParse (list_name : string).

(** A [try] around [parseFieldBitmaps] with its [catch]. *)
Definition tryParse (list_name : string) (allFields : list Field)
    (bitmaps : list string) : ParseFailure + list string :=
  match parseFieldBitmaps allFields bitmaps with
  | Some names => inr names
  | None => inl (FailedToParse list_name)
  end.

(** The three replacements in the header, in the order of the source. *)
Definition parseHeader (allFields : list Field) (h : ChangeEventHeader)
    : ParseFailure + ChangeEventHeader :=
  match tryParse "nulledFields" allFields (nulledFields h) with
  | inl failure => inl failure
  | inr nulled =>
      match tryParse "diffFields" allFields (diffFields h) with
      | inl failure => inl failure
      | inr diff =>
          match tryParse "changedFields" allFields (changedFields h) with
          | inl failure => inl failure
          | inr changed =>
              inr (mkChangeEventHeader nulled diff changed
                     (otherHeaderAttributes h))
          end
      end
  end.

(** [parseEvent]: [fromBuffer] stands for [schema.type.fromBuffer],
    [None] when it throws; [schemaType] is [schema.type]. *)
Definition parseEvent (fromBuffer : Buffer -> option Payload)
    (schemaType : AvroType) (encodedReplayId encodedPayload : Buffer)
    : ParseFailure + ParsedEvent :=
  match getFields schemaType with
  | None => inl SchemaNotRecord
  | Some allFields =>
      match decodeReplayId encodedReplayId with
      | None => inl ReplayIdUnreadable
      | Some decoded =>
          match fromBuffer encodedPayload with
          | None => inl PayloadUndecodable
          | Some decodedPayload =>
              let parsedHeader :=
                match header decodedPayload with
                | Some h =>
                    match parseHeader allFields h with
                    | inl failure => inl failure
                    | inr h' => inr (Some h')
                    end
                | None => inr None
                end in
              match parsedHeader with
              | inl failure => inl failure
              | inr header' =>
                  inr (mkParsedEvent decoded
                         (mkPayload header'
                            (map flattenEntry (attributes decodedPayload))))
              end
          end
      end
  end.

(** The first of the three bitmap lists of a header that does not
    resolve, if any. *)
Definition firstUnresolved (allFields : list Field) (h : ChangeEventHeader)
    : option string :=
  match parseFieldBitmaps allFields (nulledFields h) with
  | None => Some "nulledFields"
  | Some _ =>
      match parseFieldBitmaps allFields (diffFields h) with
      | None => Some "diffFields"
      | Some _ =>
          match parseFieldBitmaps allFields (changedFields h) with
          | None => Some "changedFields"
          | Some _ => None
          end
      end
  end.

End ParseEvent.

(** ** The primitive values of a decoded record *)

Module Leaves.

Import Value.

(** The primitive values a value holds, in order. *)
Fixpoint leaves (v : JSValue) : list JSPrimitive :=
  match v with
  | JSPrim p => [p]
  | JSObject props => flat_map (fun entry => leaves (snd entry)) props
  end.

(** The number of objects and primitives of a value. *)
Fixpoint size (v : JSValue) : nat :=
  match v with
  | JSPrim _ => 1
  | JSObject props =>
      S (fold_right (fun entry n => size (snd entry) + n) 0 props)
  end.

End Leaves.

(** ** The stream of a subscription ([#subscribe], [src/client.js]) *)

Module Stream.

Import JS Buffer ReplayId Subscription.
Local Open Scope Z_scope.

(** What the gRPC stream delivers to the four listeners. *)
Inductive StreamEvent : Type :=
  | StreamData (data : FetchResponse)
  | StreamEnd
  | StreamError (error : string)
  | StreamStatus (status : string).

(** The listener of one stream event: [None] when it throws. *)
Definition handle (decodeEvent : RawEvent -> option (string + ParsedEvent))
    (emitter : PubSubEventEmitter) (ev : StreamEvent)
    : option PubSubEventEmitter :=
  match ev with
  | StreamData data => onData decodeEvent data emitter
  | StreamEnd => Some (onEnd emitter)
  | StreamError error => Some (onError error emitter)
  | StreamStatus status => Some (onStatus status emitter)
  end.

(** A sequence of stream events, up to the first listener that throws. *)
Fixpoint run (decodeEvent : RawEvent -> option (string + ParsedEvent))
    (evs : list StreamEvent) (emitter : PubSubEventEmitter)
    : option PubSubEventEmitter :=
  match evs with
  | [] => Some emitter
  | ev :: evs' =>
      emitter' <- handle decodeEvent emitter ev ;;
      run decodeEvent evs' emitter'
  end.

(** What a listener may do to the emitter: append notifications, and
    count the "data" among them. *)
Definition extends (em em' : PubSubEventEmitter) : Prop :=
  exists added,
    emitted em' = emitted em ++ added
    /\ receivedEventCount em'
       = receivedEventCount em + Z.of_nat (countEmitted "data" added)
    /\ topicName em' = topicName em
    /\ requestedEventCount em' = requestedEventCount em.

(** Every event of a list decodes. *)
Definition allDecode (decodeEvent : RawEvent -> option (string + ParsedEvent))
    (evs : list RawEvent) : Prop :=
  Forall (fun ev => decodes decodeEvent ev = true) evs.

(** The subscribe request written on the stream. *)
Record SubscribeRequest : Type := mkSubscribeRequest {
  requestTopicName : string;
  numRequested : Z;
  replayPreset : option Z;
  requestReplayId : option Buffer
}.

(** What the three subscribe methods throw: the RangeError of
    [encodeReplayId], raised while the request is built, or the error
    [#subscribe] wraps. *)
Inductive SubscribeError : Type :=
  | ReplayIdOutOfRange
  | FailedToSubscribe (topic : string).

(** [#subscribe]: the request written and the emitter returned;
    [connected] tells whether the gRPC client is set. *)
Definition subscribeWith (connected : bool) (request : SubscribeRequest)
    : SubscribeError + SubscribeRequest * PubSubEventEmitter :=
  if connected then
    inr (request,
         newPubSubEventEmitter (requestTopicName request)
           (numRequested request))
  else inl (FailedToSubscribe (requestTopicName request)).

Definition subscribe (connected : bool) (topic : string) (requested : Z)
    : SubscribeError + SubscribeRequest * PubSubEventEmitter :=
  subscribeWith connected (mkSubscribeRequest topic requested None None).

Definition subscribeFromEarliestEvent (connected : bool) (topic : string)
    (requested : Z)
    : SubscribeError + SubscribeRequest * PubSubEventEmitter :=
  subscribeWith connected
    (mkSubscribeRequest topic requested (Some 1%Z) None).

Definition subscribeFromReplayId (connected : bool) (topic : string)
    (requested : Z) (replayId : JSInt)
    : SubscribeError + SubscribeRequest * PubSubEventEmitter :=
  match encodeReplayId replayId with
  | None => inl ReplayIdOutOfRange
  | Some encoded =>
      subscribeWith connected
        (mkSubscribeRequest topic requested (Some 2%Z) (Some encoded))
  end.

End Stream.

(** ** Subsequences *)

Module Seq.

(** [l1] is [l2] with some elements left out. *)
Inductive Subsequence {A : Type} : list A -> list A -> Prop :=
  | sub_nil : Subsequence [] []
  | sub_skip (x : A) (l1 l2 : list A) :
      Subsequence l1 l2 -> Subsequence l1 (x :: l2)
  | sub_keep (x : A) (l1 l2 : list A) :
      Subsequence l1 l2 -> Subsequence (x :: l1) (x :: l2).

End Seq.

(** ** Sample data for the further instances *)

Module Fixtures.

Import Configuration SalesforceAuth SchemaCache Avro.
Local Open Scope Z_scope.

(** An environment from a list of bindings. *)
Fixpoint envOf (bindings : list (string * string)) : Env :=
  fun varName =>
    match bindings with
    | [] => None
    | (name, value) :: bindings' =>
        if (name =? varName)%string then Some value
        else envOf bindings' varName
    end.

Definition clientCredentialsEnv : Env :=
  envOf [("SALESFORCE_AUTH_TYPE", "oauth-client-credentials");
         ("PUB_SUB_ENDPOINT", "api.pubsub.salesforce.com:7443");
         ("SALESFORCE_LOGIN_URL", "https://login.salesforce.com");
         ("SALESFORCE_CLIENT_ID", "3MVG9");
         ("SALESFORCE_CLIENT_SECRET", "s3cr3t")].

Definition unknownModeEnv : Env :=
  envOf [("SALESFORCE_AUTH_TYPE", "password");
         ("PUB_SUB_ENDPOINT", "api.pubsub.salesforce.com:7443")].

Definition noFiles (path : string) : option string := None.

(** An identity endpoint that accepts the token request and refuses the
    user-info request, and one that refuses the token request. *)
Definition halfwayFetch (request : Request) : option Response :=
  match authorization request with
  | None =>
      Some (mkResponse 200 ""
              (Some [("access_token", "00D!tok");
                     ("instance_url", "https://acme.my.salesforce.com")]))
  | Some _ => Some (mkResponse 403 "Forbidden" None)
  end.

Definition acceptingFetch (request : Request) : option Response :=
  match authorization request with
  | None =>
      Some (mkResponse 200 ""
              (Some [("access_token", "00D!tok");
                     ("instance_url", "https://acme.my.salesforce.com")]))
  | Some _ =>
      Some (mkResponse 200 ""
              (Some [("organization_id", "00D5e000000abcdEAA");
                     ("preferred_username", "ada@acme.com")]))
  end.

Definition refusingFetch (request : Request) : option Response :=
  Some (mkResponse 400 "invalid_client" None).

(** A transport that knows one topic and its schema, and a second
    schema that does not parse. *)
Definition orderType : AvroType :=
  RecordType [mkField "Amount" (OtherType "double")].

Definition orderJson : string := "{Order__e}".

Definition parse (schemaJson : string) : option AvroType :=
  if (schemaJson =? orderJson)%string then Some orderType else None.

Definition transport : Transport :=
  mkTransport
    (fun topicName =>
       if (topicName =? "/event/Order__e")%string then inr "schema-1"
       else inl "NOT_FOUND")
    (fun schemaId =>
       if (schemaId =? "schema-1")%string then inr orderJson
       else if (schemaId =? "schema-0")%string then inr "{"
       else inl "NOT_FOUND").

Definition emptyState : ClientState := mkClientState [] [].

End Fixtures.

(** ** Proof automation *)

(** Case analysis on the 256 characters. *)
Ltac each_ascii c := destruct c as [[] [] [] [] [] [] [] []].

(** * Properties *)

(** ** Replay identifiers *)

Module ReplayIdFacts.

Import JS Buffer ReplayId.
Local Open Scope Z_scope.

Lemma land_255 (x : Z) : Z.land x 255 = x mod 256.
Proof.
  change 255 with (Z.ones 8). rewrite Z.land_ones by lia. reflexivity.
Qed.

Lemma byte_of_shift (v k : Z) :
  0 <= k -> Z.land (Z.shiftr v k) 255 = (v / 2 ^ k) mod 256.
Proof.
  intros Hk. rewrite land_255, Z.shiftr_div_pow2 by assumption. reflexivity.
Qed.

Lemma writeBigUInt64BE_bytes (v : Z) :
  0 <= v < 2 ^ 64 -> writeBigUInt64BE v = Some (bigEndianBytes v).
Proof.
  intros Hv. unfold writeBigUInt64BE.
  replace ((0 <=? v) && (v <? 2 ^ 64)) with true.
  - cbn [map]. rewrite !byte_of_shift by lia. unfold bigEndianBytes.
    repeat f_equal. cbn. rewrite Z.div_1_r. reflexivity.
  - symmetry. apply andb_true_iff. split; [apply Z.leb_le | apply Z.ltb_lt]; lia.
Qed.

Lemma beValue_bigEndianBytes (v : Z) :
  0 <= v < 2 ^ 64 -> beValue (bigEndianBytes v) = v.
Proof.
  intros Hv. unfold beValue, bigEndianBytes. cbn [fold_left].
  change (2 ^ 56) with 72057594037927936.
  change (2 ^ 48) with 281474976710656.
  change (2 ^ 40) with 1099511627776.
  change (2 ^ 32) with 4294967296.
  change (2 ^ 24) with 16777216.
  change (2 ^ 16) with 65536.
  change (2 ^ 8) with 256.
  change (2 ^ 64) with 18446744073709551616 in Hv.
  Z.to_euclidean_division_equations; lia.
Qed.

Lemma roundToDouble_exact (z : Z) : Z.abs z <= 2 ^ 53 -> roundToDouble z = z.
Proof.
  intros Hz. unfold roundToDouble.
  destruct (Z.abs z <? 2 ^ 53) eqn:Hlt; [reflexivity|].
  apply Z.ltb_ge in Hlt.
  assert (Ha : Z.abs z = 2 ^ 53) by lia.
  rewrite Ha. cbn -[Z.mul Z.sgn].
  destruct (Z.abs_eq_or_opp z) as [E | E]; rewrite E in Ha.
  - subst z. reflexivity.
  - assert (z = - 2 ^ 53) by lia. subst z. reflexivity.
Qed.

(** C2 (as amended): for every unsigned 64-bit integer, given as a number
    or as a BigInt, [encodeReplayId] writes exactly eight bytes, most
    significant first; [decodeReplayId] of them is always a standard
    number, the double nearest to the integer, and it is the integer
    itself whenever that is at most 2^53. *)
Theorem replay_id_round_trip (replayId : JSInt) :
  0 <= valueOf replayId < 2 ^ 64 ->
  exists buf,
    encodeReplayId replayId = Some buf
    /\ List.length buf = 8%nat
    /\ buf = bigEndianBytes (valueOf replayId)
    /\ Forall (fun b => 0 <= b < 256) buf
    /\ beValue buf = valueOf replayId
    /\ decodeReplayId buf = Some (JNumber (roundToDouble (valueOf replayId)))
    /\ (valueOf replayId <= 2 ^ 53 ->
        decodeReplayId buf = Some (JNumber (valueOf replayId))).
Proof.
  intros Hv. exists (bigEndianBytes (valueOf replayId)).
  assert (Henc : encodeReplayId replayId
                 = Some (bigEndianBytes (valueOf replayId))).
  { unfold encodeReplayId.
    replace (BigInt replayId) with (valueOf replayId)
      by (destruct replayId; reflexivity).
    apply writeBigUInt64BE_bytes; exact Hv. }
  assert (Hdec : decodeReplayId (bigEndianBytes (valueOf replayId))
                 = Some (JNumber (roundToDouble (valueOf replayId)))).
  { unfold decodeReplayId, readBigUInt64BE.
    change (8 <=? List.length (bigEndianBytes (valueOf replayId)))%nat
      with true.
    change (firstn 8 (bigEndianBytes (valueOf replayId)))
      with (bigEndianBytes (valueOf replayId)).
    rewrite beValue_bigEndianBytes by exact Hv. reflexivity. }
  repeat split.
  - exact Henc.
  - unfold bigEndianBytes.
    repeat (apply Forall_cons; [apply Z.mod_pos_bound; lia|]).
    apply Forall_nil.
  - apply beValue_bigEndianBytes; exact Hv.
  - exact Hdec.
  - intros Hsafe. rewrite Hdec, roundToDouble_exact; [reflexivity|].
    rewrite Z.abs_eq; lia.
Qed.

Lemma replay_id_round_trip_witness :
  exists buf,
    encodeReplayId (JBigInt 258) = Some buf
    /\ List.length buf = 8%nat
    /\ buf = bigEndianBytes 258
    /\ Forall (fun b => 0 <= b < 256) buf
    /\ beValue buf = 258
    /\ decodeReplayId buf = Some (JNumber (roundToDouble 258))
    /\ (258 <= 2 ^ 53 -> decodeReplayId buf = Some (JNumber 258)).
Proof.
  apply (replay_id_round_trip (JBigInt 258)). simpl. lia.
Defined.

(** C2 (as stated) fails at 2^53 + 1: the decoded value is the number
    2^53, neither the integer encoded nor a BigInt. *)
Lemma replay_id_round_trip_loses_precision :
  exists buf,
    encodeReplayId (JBigInt 9007199254740993) = Some buf
    /\ decodeReplayId buf = Some (JNumber 9007199254740992)
    /\ decodeReplayId buf <> Some (JNumber 9007199254740993)
    /\ decodeReplayId buf <> Some (JBigInt 9007199254740993).
Proof.
  exists [0; 32; 0; 0; 0; 0; 0; 1].
  repeat split; try reflexivity; vm_compute; discriminate.
Qed.

End ReplayIdFacts.

(** ** The custom long type *)

Module LongTypeFacts.

Import JS Buffer LongType.
Local Open Scope Z_scope.

Lemma fromBuffer_canonical (buf : Buffer) (n : JSInt) :
  fromBuffer buf = Some n -> canonical n.
Proof.
  unfold fromBuffer, bind. destruct (readBigInt64LE buf) as [big|]; [|discriminate].
  unfold lessThan, valueOf.
  destruct (big <? MIN_SAFE_INTEGER) eqn:Hlo; cbn [orb].
  - intros [= <-]. left. apply Z.ltb_lt. exact Hlo.
  - destruct (MAX_SAFE_INTEGER <? big) eqn:Hhi.
    + intros [= <-]. right. apply Z.ltb_lt. exact Hhi.
    + intros [= <-]. apply Z.ltb_ge in Hlo, Hhi.
      unfold MIN_SAFE_INTEGER, MAX_SAFE_INTEGER in *.
      assert (Has : asIntN64 big = big).
      { unfold asIntN64. rewrite Z.mod_small; lia. }
      unfold Number. rewrite Has, ReplayIdFacts.roundToDouble_exact.
      * cbn. lia.
      * lia.
Qed.

(** On two values in their canonical representation, as [fromBuffer]
    yields them, [compare] is the numeric comparison. *)
Lemma compare_canonical (n1 n2 : JSInt) :
  canonical n1 -> canonical n2 -> compare n1 n2 = numericCompare n1 n2.
Proof.
  unfold compare, numericCompare, strictEquals, lessThan.
  destruct n1 as [a | a], n2 as [b | b]; cbn [canonical valueOf];
    unfold MIN_SAFE_INTEGER, MAX_SAFE_INTEGER; intros H1 H2;
    destruct (Z.compare_spec a b) as [E | L | G];
    try (subst b; rewrite ?Z.eqb_refl; try reflexivity; lia);
    try (replace (a =? b) with false by (symmetry; apply Z.eqb_neq; lia));
    try (replace (a <? b) with true by (symmetry; apply Z.ltb_lt; lia));
    try (replace (a <? b) with false by (symmetry; apply Z.ltb_ge; lia));
    reflexivity.
Qed.

Lemma compare_decoded (buf1 buf2 : Buffer) (n1 n2 : JSInt) :
  fromBuffer buf1 = Some n1 -> fromBuffer buf2 = Some n2 ->
  compare n1 n2 = numericCompare n1 n2.
Proof.
  intros H1 H2.
  apply compare_canonical; eapply fromBuffer_canonical; eassumption.
Qed.

(** A number and a BigInt of the same value never compare equal. *)
Lemma compare_mixed_equal (z : Z) :
  compare (JNumber z) (JBigInt z) = 1
  /\ compare (JBigInt z) (JNumber z) = 1
  /\ numericCompare (JNumber z) (JBigInt z) = 0.
Proof.
  unfold compare, numericCompare, strictEquals, lessThan. cbn [valueOf].
  rewrite Z.ltb_irrefl, Z.compare_refl. repeat split.
Qed.

(** C4: at the number 5 and the BigInt 5, both valid values of the type
    and numerically equal, [compare] answers 1 where the numeric
    comparison is 0: [===] is false across the two representations and
    [<] is false on equal values.  The BigInt is the value [fromJSON]
    gives, the number the value [fromBuffer] gives. *)
Theorem compare_mixed_representations :
  isValid (JNumber 5) = true
  /\ isValid (JBigInt 5) = true
  /\ fromBuffer [5; 0; 0; 0; 0; 0; 0; 0] = Some (JNumber 5)
  /\ fromJSON (JNumber 5) = JBigInt 5
  /\ compare (JNumber 5) (JBigInt 5) = 1
  /\ compare (JBigInt 5) (JNumber 5) = 1
  /\ numericCompare (JNumber 5) (JBigInt 5) = 0.
Proof. repeat split. Qed.

End LongTypeFacts.

(** ** Strings *)

Module StrFacts.

Import Str.

Lemma indexOfFrom_absent (c : ascii) (s : string) (i : Z) :
  (0 <= i)%Z ->
  indexOfFrom c s i = (-1)%Z <-> someChar (fun a => Ascii.eqb a c) s = false.
Proof.
  revert i. induction s as [| a s IH]; intros i Hi; cbn [indexOfFrom someChar].
  - split; reflexivity.
  - destruct (Ascii.eqb a c); cbn [orb].
    + split; [lia | discriminate].
    + apply IH. lia.
Qed.

Lemma indexOf_absent (c : ascii) (s : string) :
  indexOf s c = (-1)%Z <-> someChar (fun a => Ascii.eqb a c) s = false.
Proof. apply indexOfFrom_absent. lia. Qed.

(** The first segment of [split] holds no separator, and the string is
    that segment, followed, when there are more segments, by a separator
    and the string the other segments come from. *)
Lemma split_first_segment (c : ascii) (s : string) :
  exists seg rest,
    split c s = seg :: rest
    /\ indexOf seg c = (-1)%Z
    /\ (rest = [] -> s = seg)
    /\ (rest <> [] ->
        exists tail, s = String.append seg (String c tail)
                     /\ split c tail = rest).
Proof.
  induction s as [| a s IH].
  - exists EmptyString, []. repeat split; try reflexivity.
    intros H; contradiction.
  - destruct IH as (seg & rest & Hs & Hi & Hnil & Hcons). cbn [split].
    destruct (Ascii.eqb a c) eqn:Hac.
    + apply Ascii.eqb_eq in Hac. subst a.
      exists EmptyString, (split c s). repeat split; try reflexivity.
      * rewrite Hs. discriminate.
      * intros _. exists s. split; reflexivity.
    + rewrite Hs. exists (String a seg), rest. repeat split.
      * apply indexOf_absent. cbn [someChar]. rewrite Hac.
        apply indexOf_absent in Hi. exact Hi.
      * intros H. rewrite (Hnil H). reflexivity.
      * intros H. destruct (Hcons H) as (tail & Ht & Hrest).
        exists tail. split; [|exact Hrest]. rewrite Ht. reflexivity.
Qed.

End StrFacts.

(** ** User-supplied authentication *)

Module AuthFacts.

Import Str Auth.

(** C9: with [id] the supplied organization id, or, when that is absent
    (or empty), the first segment of the access token split on "!":
    the call throws when the instance URL is absent or does not start
    with "https://"; it throws when the length of [id] is neither 15 nor
    18 (and when there is neither an id nor a token to derive it from);
    otherwise it goes on with the token, the URL and [id].  A derived
    [id] holds no "!" and the token is [id], or [id], a "!" and more. *)
Theorem connectWithAuth_validation
    (accessToken instanceUrl organizationId : option string) :
  let secure := match instanceUrl with
                | Some url => startsWith url "https://"
                | None => false
                end in
  let validId := if falsy organizationId
                 then deriveOrganizationId accessToken
                 else organizationId in
  deriveOrganizationId (Some "00Dxx0000!abc") = Some "00Dxx0000"
  /\ (forall token, falsy organizationId = true ->
       accessToken = Some token ->
       exists id, validId = Some id
                  /\ indexOf id "!" = (-1)%Z
                  /\ (token = id
                      \/ exists tail,
                           token = String.append id (String "!" tail)))
  /\ (secure = false ->
      connectWithAuth accessToken instanceUrl organizationId
      = inl (InvalidInstanceUrl instanceUrl))
  /\ (secure = true -> validId = None ->
      connectWithAuth accessToken instanceUrl organizationId
      = inl UnparsableAccessToken)
  /\ (forall id, secure = true -> validId = Some id ->
       String.length id <> 15 -> String.length id <> 18 ->
       connectWithAuth accessToken instanceUrl organizationId
       = inl (InvalidOrgId id))
  /\ (forall url id, instanceUrl = Some url -> secure = true ->
       validId = Some id ->
       String.length id = 15 \/ String.length id = 18 ->
       connectWithAuth accessToken instanceUrl organizationId
       = inr (mkConnectionMetadata accessToken url id)).
Proof.
  intros secure validId. split; [reflexivity|].
  split; [|split; [|split; [|split]]].
  - intros token Hfalsy Htoken. subst validId. rewrite Hfalsy, Htoken.
    cbn [deriveOrganizationId bind].
    destruct (StrFacts.split_first_segment "!" token)
      as (seg & rest & Hs & Hi & Hnil & Hcons).
    rewrite Hs. exists seg. split; [reflexivity|]. split; [exact Hi|].
    destruct rest as [| r rest].
    + left. apply Hnil. reflexivity.
    + right. destruct Hcons as (tail & Ht & _); [discriminate|].
      exists tail. exact Ht.
  - subst secure. unfold connectWithAuth.
    destruct instanceUrl as [url|]; [|reflexivity].
    intros ->. rewrite orb_true_r. reflexivity.
  - intros Hsec Hid. subst secure. unfold connectWithAuth.
    destruct instanceUrl as [url|]; [|discriminate].
    rewrite Hsec.
    assert (Hurl : falsy (Some url) = false).
    { destruct url; [discriminate Hsec | reflexivity]. }
    rewrite Hurl. cbn [orb negb]. fold validId. rewrite Hid. reflexivity.
  - intros id Hsec Hid H15 H18. subst secure. unfold connectWithAuth.
    destruct instanceUrl as [url|]; [|discriminate].
    rewrite Hsec.
    assert (Hurl : falsy (Some url) = false).
    { destruct url; [discriminate Hsec | reflexivity]. }
    rewrite Hurl. cbn [orb negb]. fold validId. rewrite Hid.
    apply Nat.eqb_neq in H15, H18. rewrite H15, H18. reflexivity.
  - intros url id -> Hsec Hid Hlen. subst secure. unfold connectWithAuth.
    rewrite Hsec.
    assert (Hurl : falsy (Some url) = false).
    { destruct url; [discriminate Hsec | reflexivity]. }
    rewrite Hurl. cbn [orb negb]. fold validId. rewrite Hid.
    destruct Hlen as [H | H]; rewrite H; reflexivity.
Qed.

Lemma connectWithAuth_validation_witness :
  connectWithAuth (Some "00D5e000000abcd!AQEAQ")
    (Some "https://acme.my.salesforce.com") None
  = inr (mkConnectionMetadata (Some "00D5e000000abcd!AQEAQ")
           "https://acme.my.salesforce.com" "00D5e000000abcd")
  /\ connectWithAuth (Some "00D5e000000abcd!AQEAQ")
       (Some "https://acme.my.salesforce.com") (Some "00D5e000000abcde")
     = inl (InvalidOrgId "00D5e000000abcde")
  /\ connectWithAuth (Some "00D5e000000abcd!AQEAQ")
       (Some "http://acme.my.salesforce.com") None
     = inl (InvalidInstanceUrl (Some "http://acme.my.salesforce.com")).
Proof.
  split; [|split].
  - destruct (connectWithAuth_validation (Some "00D5e000000abcd!AQEAQ")
                (Some "https://acme.my.salesforce.com") None)
      as (_ & _ & _ & _ & _ & Hok).
    apply Hok; [reflexivity | reflexivity | reflexivity | left; reflexivity].
  - destruct (connectWithAuth_validation (Some "00D5e000000abcd!AQEAQ")
                (Some "https://acme.my.salesforce.com")
                (Some "00D5e000000abcde"))
      as (_ & _ & _ & _ & Hid & _).
    apply Hid; [reflexivity | reflexivity | cbn; lia | cbn; lia].
  - destruct (connectWithAuth_validation (Some "00D5e000000abcd!AQEAQ")
                (Some "http://acme.my.salesforce.com") None)
      as (_ & _ & Hurl & _).
    apply Hurl. reflexivity.
Defined.

End AuthFacts.

(** ** The subscription handlers *)

Module SubscriptionFacts.

Import JS Buffer ReplayId Value Subscription.
Local Open Scope Z_scope.

Lemma countEmitted_app (name : string) (l1 l2 : list (string * Args)) :
  countEmitted name (l1 ++ l2)
  = (countEmitted name l1 + countEmitted name l2)%nat.
Proof.
  unfold countEmitted. rewrite filter_app, length_app. reflexivity.
Qed.

Section WithDecoder.

Variable decodeEvent : RawEvent -> option (string + ParsedEvent).

(** One event, step by step. *)
Lemma onEvent_spec (latest : JSInt) (em : PubSubEventEmitter)
    (ev : RawEvent) :
  let received' :=
    receivedEventCount em + (if decodes decodeEvent ev then 1 else 0) in
  let em' := onEvent decodeEvent latest em ev in
  topicName em' = topicName em
  /\ requestedEventCount em' = requestedEventCount em
  /\ receivedEventCount em' = received'
  /\ emitted em'
     = emitted em ++ eventNotification decodeEvent latest ev
         ++ (if settles decodeEvent ev
                && (received' =? requestedEventCount em)
             then [("lastevent", NoArgs)] else []).
Proof.
  unfold onEvent, eventNotification, decodes, settles,
    getReceivedEventCount, getRequestedEventCount.
  destruct (decodeEvent ev) as [[error | parsedEvent] |];
    cbn -[Z.add Z.eqb]; rewrite ?Z.add_0_r, ?app_nil_r;
    try match goal with
        | |- context [?a =? ?b] => destruct (a =? b)
        end;
    cbn; rewrite <- ?app_assoc; repeat split.
Qed.

(** The name of the notification of an event. *)
Lemma eventNotification_names (latest : JSInt) (ev : RawEvent)
    (name : string) :
  countEmitted name (eventNotification decodeEvent latest ev)
  = ((if decodes decodeEvent ev && (name =? "data")%string then 1 else 0)
     + (if fails decodeEvent ev && (name =? "error")%string then 1 else 0))%nat.
Proof.
  unfold eventNotification, decodes, fails, countEmitted.
  destruct (decodeEvent ev) as [[error | parsedEvent] |];
    cbn [filter fst andb]; [| |reflexivity].
  - rewrite String.eqb_sym. destruct (name =? "error")%string; reflexivity.
  - rewrite String.eqb_sym. destruct (name =? "data")%string; reflexivity.
Qed.

Lemma countDecoded_cons (ev : RawEvent) (evs : list RawEvent) :
  countDecoded decodeEvent (ev :: evs)
  = ((if decodes decodeEvent ev then 1 else 0)
     + countDecoded decodeEvent evs)%nat.
Proof.
  unfold countDecoded. cbn [filter].
  destruct (decodes decodeEvent ev); reflexivity.
Qed.

Lemma countFailed_cons (ev : RawEvent) (evs : list RawEvent) :
  countFailed decodeEvent (ev :: evs)
  = ((if fails decodeEvent ev then 1 else 0)
     + countFailed decodeEvent evs)%nat.
Proof.
  unfold countFailed. cbn [filter].
  destruct (fails decodeEvent ev); reflexivity.
Qed.

(** An event decodes, fails or never settles: the first two are counted,
    and they make up the whole list when every lookup settles. *)
Lemma countDecoded_countFailed (evs : list RawEvent) :
  (countDecoded decodeEvent evs + countFailed decodeEvent evs
   <= List.length evs)%nat
  /\ (forallb (settles decodeEvent) evs = true ->
      (countDecoded decodeEvent evs + countFailed decodeEvent evs)%nat
      = List.length evs).
Proof.
  induction evs as [| ev evs [IHle IHeq]]; [split; reflexivity|].
  rewrite countDecoded_cons, countFailed_cons. cbn [List.length forallb].
  unfold decodes, fails, settles in *.
  destruct (decodeEvent ev) as [[error | parsedEvent] |]; cbn [andb];
    (split; [lia | intros Hall; try discriminate Hall;
                   specialize (IHeq Hall); lia]).
Qed.

Lemma countDecoded_Permutation (l1 l2 : list RawEvent) :
  Permutation l1 l2 ->
  countDecoded decodeEvent l1 = countDecoded decodeEvent l2.
Proof.
  induction 1; rewrite ?countDecoded_cons in *; lia.
Qed.

Lemma countFailed_Permutation (l1 l2 : list RawEvent) :
  Permutation l1 l2 ->
  countFailed decodeEvent l1 = countFailed decodeEvent l2.
Proof.
  induction 1; rewrite ?countFailed_cons in *; lia.
Qed.

(** The events of a list, in the order given: the counter, and how many
    "data", "error" and "lastevent" notifications are added. *)
Lemma processEvents_counts (latest : JSInt) (evs : list RawEvent) :
  forall em,
    let em' := processEvents decodeEvent latest evs em in
    requestedEventCount em' = requestedEventCount em
    /\ receivedEventCount em'
       = receivedEventCount em + Z.of_nat (countDecoded decodeEvent evs)
    /\ countEmitted "data" (emitted em')
       = (countEmitted "data" (emitted em)
          + countDecoded decodeEvent evs)%nat
    /\ countEmitted "error" (emitted em')
       = (countEmitted "error" (emitted em)
          + countFailed decodeEvent evs)%nat
    /\ (receivedEventCount em + Z.of_nat (countDecoded decodeEvent evs)
        < requestedEventCount em ->
        countEmitted "lastevent" (emitted em')
        = countEmitted "lastevent" (emitted em)).
Proof.
  induction evs as [| ev evs IH]; intros em.
  - cbn. repeat split; lia.
  - cbn zeta. unfold processEvents. cbn [fold_left].
    fold (processEvents decodeEvent latest evs
            (onEvent decodeEvent latest em ev)).
    destruct (IH (onEvent decodeEvent latest em ev))
      as (Hq & Hr & Hd & He & Hl).
    destruct (onEvent_spec latest em ev) as (_ & Hq1 & Hr1 & Hl1).
    rewrite Hq1, Hr1, Hl1 in *. clear Hq1 Hr1 Hl1.
    rewrite Hq, Hr, Hd, He, countDecoded_cons, countFailed_cons.
    clear Hq Hr Hd He.
    rewrite !countEmitted_app, !eventNotification_names in *.
    clear IH. revert Hl.
    generalize (countDecoded decodeEvent evs). intros n Hl.
    assert (Hlast : forall name (t : bool),
               countEmitted name
                 (if t then [("lastevent", NoArgs)] else [])
               = if t && (name =? "lastevent")%string then 1%nat
                 else 0%nat).
    { intros name [|]; unfold countEmitted; cbn [filter fst andb];
        [|reflexivity].
      rewrite String.eqb_sym. destruct (name =? "lastevent")%string;
        reflexivity. }
    rewrite !Hlast in *. cbn [String.eqb Ascii.eqb Bool.eqb andb] in *.
    rewrite ?andb_false_r, ?andb_true_r in *.
    repeat split; try lia.
    + destruct (decodes decodeEvent ev); lia.
    + intros Hlt. rewrite Hl by (destruct (decodes decodeEvent ev); lia).
      replace (receivedEventCount em
               + (if decodes decodeEvent ev then 1 else 0)
               =? requestedEventCount em) with false
        by (symmetry; apply Z.eqb_neq;
            destruct (decodes decodeEvent ev); lia).
      rewrite andb_false_r. lia.
Qed.

End WithDecoder.

(** A message with events: the listener runs the per-event steps, with
    the decoded latest replay identifier. *)
Lemma onData_events
    (decodeEvent : RawEvent -> option (string + ParsedEvent))
    (data : FetchResponse) (evs : list RawEvent) (latest : JSInt)
    (em : PubSubEventEmitter) :
  events data = Some evs ->
  decodeReplayId (latestReplayId data) = Some latest ->
  onData decodeEvent data em = Some (processEvents decodeEvent latest evs em).
Proof.
  intros Hevs Hlatest. unfold onData. rewrite Hlatest, Hevs. reflexivity.
Qed.

(** Whatever the order in which the events of a batch complete, every
    event yields at most one notification of its own, a "data" when it
    decodes and an "error" when it fails, and the received-event count
    increases by the number of "data" notifications only; an event whose
    lookup never settles yields nothing. *)
Lemma processEvents_any_order
    (decodeEvent : RawEvent -> option (string + ParsedEvent)) (latest : JSInt)
    (batch completion : list RawEvent) (em : PubSubEventEmitter) :
  Permutation completion batch ->
  let em' := processEvents decodeEvent latest completion em in
  countEmitted "data" (emitted em')
  = (countEmitted "data" (emitted em) + countDecoded decodeEvent batch)%nat
  /\ countEmitted "error" (emitted em')
     = (countEmitted "error" (emitted em) + countFailed decodeEvent batch)%nat
  /\ receivedEventCount em'
     = receivedEventCount em + Z.of_nat (countDecoded decodeEvent batch)
  /\ (countDecoded decodeEvent batch + countFailed decodeEvent batch
      <= List.length batch)%nat.
Proof.
  intros Hperm em'.
  destruct (processEvents_counts decodeEvent latest completion em)
    as (_ & Hr & Hd & He & _).
  fold em' in Hr, Hd, He.
  rewrite (countDecoded_Permutation decodeEvent _ _ Hperm) in Hr, Hd.
  rewrite (countFailed_Permutation decodeEvent _ _ Hperm) in He.
  repeat split; try assumption.
  apply countDecoded_countFailed.
Qed.

(** C1: on a message of two events of which the second fails to decode,
    the listener emits one "data" and one "error", and the received-event
    count goes from 0 to 1: the failed event has been received and is
    not counted, where the claim, like the documentation of
    [getReceivedEventCount], asks for 2. *)
Theorem received_count_skips_failed_event :
  exists em',
    onData Sample.decodeEvent Sample.batch
      (newPubSubEventEmitter "/event/Order__e" 10) = Some em'
    /\ map fst (emitted em') = ["data"; "error"]
    /\ getReceivedEventCount em' = 1
    /\ getReceivedEventCount em' <> 0 + 2.
Proof.
  eexists. split; [vm_compute; reflexivity|].
  repeat split. discriminate.
Qed.

Lemma processEvents_app
    (decodeEvent : RawEvent -> option (string + ParsedEvent)) (latest : JSInt)
    (l1 l2 : list RawEvent) (em : PubSubEventEmitter) :
  processEvents decodeEvent latest (l1 ++ l2) em
  = processEvents decodeEvent latest l2
      (processEvents decodeEvent latest l1 em).
Proof. unfold processEvents. apply fold_left_app. Qed.

(** On a subscription for [r] >= 1 events, no "lastevent" is emitted
    while fewer than [r] events have decoded, however many have failed;
    the event whose "data" notification brings the count to [r] is
    followed at once by "lastevent", the only one up to that point. *)
Lemma lastevent_follows_requested_data
    (decodeEvent : RawEvent -> option (string + ParsedEvent)) (latest : JSInt)
    (topic : string) (r : Z) (before : list RawEvent) (ev : RawEvent) :
  0 < r ->
  Z.of_nat (countDecoded decodeEvent before) = r - 1 ->
  decodes decodeEvent ev = true ->
  let fresh := newPubSubEventEmitter topic r in
  let em' := processEvents decodeEvent latest (before ++ [ev]) fresh in
  receivedEventCount em' = r
  /\ countEmitted "lastevent" (emitted em') = 1%nat
  /\ (exists log parsedEvent,
        emitted em'
        = log ++ [("data", ParsedArgs parsedEvent); ("lastevent", NoArgs)])
  /\ (forall evs,
        Z.of_nat (countDecoded decodeEvent evs) < r ->
        countEmitted "lastevent"
          (emitted (processEvents decodeEvent latest evs fresh)) = 0%nat).
Proof.
  intros Hr Hbefore Hev fresh em'.
  assert (Hnone : forall evs,
             Z.of_nat (countDecoded decodeEvent evs) < r ->
             countEmitted "lastevent"
               (emitted (processEvents decodeEvent latest evs fresh))
             = 0%nat).
  { intros evs Hlt.
    destruct (processEvents_counts decodeEvent latest evs fresh)
      as (_ & _ & _ & _ & Hl).
    rewrite Hl; [reflexivity | cbn; lia]. }
  destruct (processEvents_counts decodeEvent latest before fresh)
    as (Hq & Hrec & _ & _ & _).
  cbn [fresh newPubSubEventEmitter requestedEventCount receivedEventCount]
    in Hq, Hrec.
  subst em'. rewrite processEvents_app.
  set (emb := processEvents decodeEvent latest before fresh) in *.
  unfold processEvents at 1 2 3. cbn [fold_left].
  destruct (onEvent_spec decodeEvent latest emb ev) as (_ & _ & Hr1 & Hl1).
  rewrite Hev, Hrec in Hr1. rewrite Hev, Hq, Hrec in Hl1.
  replace (0 + Z.of_nat (countDecoded decodeEvent before) + 1) with r
    in Hr1, Hl1 by lia.
  rewrite Z.eqb_refl in Hl1.
  assert (Hdata : exists parsedEvent,
             eventNotification decodeEvent latest ev
             = [("data", ParsedArgs parsedEvent)]
             /\ settles decodeEvent ev = true).
  { unfold eventNotification, settles. unfold decodes in Hev.
    destruct (decodeEvent ev) as [[|parsedEvent]|]; try discriminate.
    exists parsedEvent. split; reflexivity. }
  destruct Hdata as (parsedEvent & Hdata & Hsettles).
  rewrite Hdata, Hsettles in Hl1. cbn [andb app] in Hl1.
  split; [exact Hr1|]. split; [|split; [|exact Hnone]].
  - rewrite Hl1, countEmitted_app. subst emb.
    rewrite Hnone by lia. reflexivity.
  - exists (emitted emb), parsedEvent. exact Hl1.
Qed.

(** C3: on a subscription for two events, a message of two events of
    which the second fails to decode brings no "lastevent": both
    requested events have been received, and the check that follows the
    failed one finds a count of 1, where the claim, like the comment on
    that check, asks for a "lastevent" once the requested number of
    events is reached, whether the last one decodes or not. *)
Theorem lastevent_missing_when_final_event_fails :
  exists em',
    onData Sample.decodeEvent Sample.batch
      (newPubSubEventEmitter "/event/Order__e" 2) = Some em'
    /\ map fst (emitted em') = ["data"; "error"]
    /\ countEmitted "lastevent" (emitted em') = 0%nat.
Proof.
  eexists. split; [vm_compute; reflexivity|]. split; reflexivity.
Qed.

(** The same batch on a subscription for one event: the failed second
    event finds the count still equal to the requested one, and
    "lastevent" is emitted a second time. *)
Lemma lastevent_repeated_after_failed_event :
  exists em',
    onData Sample.decodeEvent Sample.batch
      (newPubSubEventEmitter "/event/Order__e" 1) = Some em'
    /\ map fst (emitted em') = ["data"; "lastevent"; "error"; "lastevent"].
Proof.
  eexists. split; [vm_compute; reflexivity|]. reflexivity.
Qed.

(** C8: a message without events never changes the received-event count;
    when its latest replay identifier has its eight bytes, the listener
    emits exactly one notification, a "keepalive" carrying the message
    with the identifier replaced by the decoded number. *)
Theorem keepalive_on_message_without_events
    (decodeEvent : RawEvent -> option (string + ParsedEvent))
    (data : FetchResponse) (em : PubSubEventEmitter) :
  events data = None ->
  (forall em', onData decodeEvent data em = Some em' ->
               receivedEventCount em' = receivedEventCount em)
  /\ ((8 <= List.length (latestReplayId data))%nat ->
      exists latest,
        decodeReplayId (latestReplayId data) = Some (JNumber latest)
        /\ latest = roundToDouble (beValue (firstn 8 (latestReplayId data)))
        /\ onData decodeEvent data em
           = Some (mkPubSubEventEmitter (topicName em)
                     (requestedEventCount em) (receivedEventCount em)
                     (emitted em
                      ++ [("keepalive",
                           KeepaliveArgs
                             (mkKeepaliveData (JNumber latest) None
                                (pendingNumRequested data)))]))).
Proof.
  intros Hnone. unfold onData, decodeReplayId, readBigUInt64BE. split.
  - intros em'. rewrite Hnone.
    destruct (8 <=? List.length (latestReplayId data))%nat; cbn [bind];
      [|discriminate].
    intros [= <-]. reflexivity.
  - intros Hlen. apply Nat.leb_le in Hlen. rewrite Hlen. cbn [bind].
    eexists. split; [reflexivity|]. split; [reflexivity|].
    rewrite Hnone. reflexivity.
Qed.

Lemma keepalive_on_message_without_events_witness :
  onData Sample.decodeEvent Sample.keepalive
    (newPubSubEventEmitter "/event/Order__e" 10)
  = Some (mkPubSubEventEmitter "/event/Order__e" 10 0
            [("keepalive",
              KeepaliveArgs (mkKeepaliveData (JNumber 2) None 98))]).
Proof.
  destruct (keepalive_on_message_without_events Sample.decodeEvent
              Sample.keepalive
              (newPubSubEventEmitter "/event/Order__e" 10) eq_refl)
    as (_ & H).
  destruct (H ltac:(cbn; lia)) as (latest & _ & Hlatest & Hemit).
  rewrite Hemit, Hlatest. reflexivity.
Defined.

End SubscriptionFacts.

(** ** Flattening *)

Module FlattenFacts.

Import Value EventParser.

(** The test [Object.keys(value).length === 1], as a shape. *)
Lemma keys_single (value : JSValue) :
  List.length (keys value) = 1
  <-> exists k subValue, value = JSObject [(k, subValue)].
Proof.
  split.
  - destruct value as [p | [| [k sub] [| e props]]]; cbn; intros H;
      try discriminate H.
    exists k, sub. reflexivity.
  - intros (k & sub & ->). reflexivity.
Qed.

Lemma flatten_unfold (props : list (string * JSValue)) :
  flattenSinglePropertyObjects (JSObject props)
  = JSObject (map flattenEntry props).
Proof. reflexivity. Qed.

Lemma flattenEntry_key (entry : string * JSValue) :
  fst (flattenEntry entry) = fst entry.
Proof.
  destruct entry as [key value]. unfold flattenEntry.
  destruct (negb (key =? "ChangeEventHeader") && truthy value
            && (typeof value =? "object")); [|reflexivity].
  destruct value as [p | [| [k sub] [| e props]]]; try reflexivity.
  destruct (truthy sub && (typeof sub =? "object")); reflexivity.
Qed.

Lemma flattenEntry_header (value : JSValue) :
  flattenEntry ("ChangeEventHeader", value) = ("ChangeEventHeader", value).
Proof. reflexivity. Qed.

Lemma flattenEntry_single (key k : string) (subValue : JSValue) :
  key <> "ChangeEventHeader" ->
  flattenEntry (key, JSObject [(k, subValue)]) = (key, unwrapped subValue).
Proof.
  intros Hkey. unfold flattenEntry. apply String.eqb_neq in Hkey.
  rewrite Hkey. cbn [negb andb truthy typeof]. rewrite String.eqb_refl.
  destruct subValue as [p | sub]; [|reflexivity].
  destruct p as [| | b | [z | z] | s]; try reflexivity;
    cbn; rewrite andb_false_r; reflexivity.
Qed.

Lemma flattenEntry_other (key : string) (value : JSValue) :
  (forall k subValue, value <> JSObject [(k, subValue)]) ->
  flattenEntry (key, value) = (key, value).
Proof.
  intros Hns. unfold flattenEntry.
  destruct (negb (key =? "ChangeEventHeader") && truthy value
            && (typeof value =? "object")); [|reflexivity].
  destruct value as [p | [| [k sub] [| e props]]]; try reflexivity.
  exfalso. apply (Hns k sub). reflexivity.
Qed.

(** C7: flattening a record keeps its attributes and their order; the
    change-event header keeps its value; every other attribute whose
    value is a single-key structure gets the inner value instead, itself
    flattened when it is a structure; every other attribute keeps its
    value; a record without single-key structures outside the header is
    returned unchanged. *)
Theorem flatten_unwraps_single_key_attributes
    (props : list (string * JSValue)) :
  exists props',
    flattenSinglePropertyObjects (JSObject props) = JSObject props'
    /\ map fst props' = map fst props
    /\ (forall i key value,
          nth_error props i = Some (key, value) ->
          (key = "ChangeEventHeader" ->
           nth_error props' i = Some (key, value))
          /\ (forall k subValue,
                key <> "ChangeEventHeader" ->
                value = JSObject [(k, subValue)] ->
                nth_error props' i = Some (key, unwrapped subValue))
          /\ ((forall k subValue, value <> JSObject [(k, subValue)]) ->
               nth_error props' i = Some (key, value)))
    /\ ((forall key value k subValue,
           In (key, value) props -> key <> "ChangeEventHeader" ->
           value <> JSObject [(k, subValue)]) ->
        props' = props).
Proof.
  exists (map flattenEntry props). split; [apply flatten_unfold|].
  split; [|split].
  - rewrite map_map. apply map_ext. apply flattenEntry_key.
  - intros i key value Hnth. rewrite nth_error_map, Hnth. cbn [option_map].
    split; [|split].
    + intros ->. rewrite flattenEntry_header. reflexivity.
    + intros k subValue Hkey ->. rewrite flattenEntry_single by exact Hkey.
      reflexivity.
    + intros Hns. rewrite flattenEntry_other by exact Hns. reflexivity.
  - intros Hnone. rewrite <- (map_id props) at 2. apply map_ext_in.
    intros [key value] Hin.
    destruct (String.eqb_spec key "ChangeEventHeader") as [-> | Hkey].
    + apply flattenEntry_header.
    + apply flattenEntry_other. intros k subValue.
      apply (Hnone key value k subValue Hin Hkey).
Qed.

Lemma flatten_unwraps_single_key_attributes_witness :
  exists props',
    flattenSinglePropertyObjects Sample.decodedAccount = JSObject props'
    /\ nth_error props' 0
       = Some ("ChangeEventHeader",
               JSObject [("entityName", JSPrim (PString "Account"))])
    /\ nth_error props' 1 = Some ("Name", JSPrim (PString "Acme"))
    /\ nth_error props' 2 = Some ("Employees", JSPrim (PInt (JS.JNumber 5))).
Proof.
  destruct (flatten_unwraps_single_key_attributes Sample.accountAttributes)
    as (props' & Heq & _ & Hat & _).
  exists props'. split; [exact Heq|]. split; [|split].
  - apply (proj1 (Hat 0 _ _ eq_refl)). reflexivity.
  - apply (proj1 (proj2 (Hat 1 _ _ eq_refl)) "string" (JSPrim (PString "Acme")));
      [discriminate | reflexivity].
  - apply (proj2 (proj2 (Hat 2 _ _ eq_refl))). intros k subValue. discriminate.
Defined.

(** The sample record, flattened: the wrapper of "Owner" goes, the
    single-key object under it stays, since the flattening repeated on
    the replaced value looks at the attributes of that value. *)
Lemma flatten_sample_account :
  flattenSinglePropertyObjects Sample.decodedAccount
  = JSObject
      [("ChangeEventHeader",
        JSObject [("entityName", JSPrim (PString "Account"))]);
       ("Name", JSPrim (PString "Acme"));
       ("Employees", JSPrim (PInt (JS.JNumber 5)));
       ("Address",
        JSObject [("Street", JSPrim (PString "Main"));
                  ("City", JSPrim PNull)]);
       ("Owner", JSObject [("b", JSPrim (PBoolean true))])].
Proof. reflexivity. Qed.

End FlattenFacts.

(** ** The field bitmap resolver *)

Module BitmapFacts.

Import Str Avro EventParser BitmapSpec BitmapAux.

(** *** Strings and their character lists *)

Lemma list_ascii_of_string_app (s1 s2 : string) :
  list_ascii_of_string (String.append s1 s2)
  = list_ascii_of_string s1 ++ list_ascii_of_string s2.
Proof.
  induction s1 as [| c s1 IH]; [reflexivity|].
  cbn. rewrite IH. reflexivity.
Qed.

Lemma string_append_assoc (s1 s2 s3 : string) :
  String.append s1 (String.append s2 s3)
  = String.append (String.append s1 s2) s3.
Proof.
  induction s1 as [| c s1 IH]; [reflexivity|]. cbn. rewrite IH. reflexivity.
Qed.

(** *** [hexToBin] is a digit-by-digit expansion *)

Lemma replaceAll_app (c : ascii) (r s1 s2 : string) :
  replaceAll c r (String.append s1 s2)
  = String.append (replaceAll c r s1) (replaceAll c r s2).
Proof.
  induction s1 as [| a s1 IH]; [reflexivity|].
  cbn [String.append replaceAll]. rewrite IH.
  destruct (Ascii.eqb a c); [|reflexivity].
  apply string_append_assoc.
Qed.

Lemma hexToBin_prefix (hex : string) :
  hexToBin hex = hexToBin (String "0" (String "x" (substringFrom 2 hex))).
Proof. reflexivity. Qed.

Lemma hexToBin_app (s1 s2 : string) :
  hexToBin (String "0" (String "x" (String.append s1 s2)))
  = String.append (hexToBin (String "0" (String "x" s1)))
      (hexToBin (String "0" (String "x" s2))).
Proof.
  unfold hexToBin. cbn [substringFrom]. rewrite !replaceAll_app. reflexivity.
Qed.

Lemma hexToBin_char (c : ascii) :
  hexToBin (String "0" (String "x" (String c EmptyString))) = expandDigit c.
Proof.
  each_ascii c; reflexivity.
Qed.

Lemma hexToBin_digits (digits : string) :
  hexToBin (String "0" (String "x" digits)) = expandDigits digits.
Proof.
  induction digits as [| c digits IH]; [reflexivity|].
  change (String c digits)
    with (String.append (String c EmptyString) digits).
  rewrite hexToBin_app, hexToBin_char, IH. reflexivity.
Qed.

Lemma hexToBin_expandDigits (hex : string) :
  hexToBin hex = expandDigits (substringFrom 2 hex).
Proof. rewrite hexToBin_prefix. apply hexToBin_digits. Qed.

(** *** The loop of [getFieldNamesFromBitmap] *)

Lemma pushIfSet_acc (bits : string) (fields : list Field)
    (acc : list string) (i : nat) :
  pushIfSet bits fields acc i = acc ++ pushIfSet bits fields [] i.
Proof.
  unfold pushIfSet.
  destruct (String.get i bits) as [c|]; [|symmetry; apply app_nil_r].
  destruct (nth_error fields i) as [f|]; [|symmetry; apply app_nil_r].
  destruct (Ascii.eqb c "1"); [reflexivity | symmetry; apply app_nil_r].
Qed.

Lemma fold_pushIfSet_acc (bits : string) (fields : list Field)
    (indices : list nat) :
  forall acc,
    fold_left (pushIfSet bits fields) indices acc
    = acc ++ fold_left (pushIfSet bits fields) indices [].
Proof.
  induction indices as [| i indices IH]; intros acc; cbn [fold_left].
  - symmetry. apply app_nil_r.
  - rewrite IH, (IH (pushIfSet bits fields [] i)), pushIfSet_acc, app_assoc.
    reflexivity.
Qed.

Lemma fold_pushIfSet_shift (c : ascii) (bits : string) (f : Field)
    (fields : list Field) (indices : list nat) :
  forall acc,
    fold_left (pushIfSet (String c bits) (f :: fields)) (map S indices) acc
    = fold_left (pushIfSet bits fields) indices acc.
Proof.
  induction indices as [| i indices IH]; intros acc; [reflexivity|].
  cbn [map fold_left]. rewrite IH. reflexivity.
Qed.

Lemma fold_pushIfSet_namesOfBits (bits : string) :
  forall fields,
    fold_left (pushIfSet bits fields)
      (seq 0 (Nat.min (String.length bits) (List.length fields))) []
    = namesOfBits bits fields.
Proof.
  induction bits as [| c bits IH]; intros fields; [reflexivity|].
  destruct fields as [| f fields]; [reflexivity|].
  cbn [String.length List.length Nat.min seq fold_left namesOfBits].
  rewrite <- seq_shift, fold_pushIfSet_shift, fold_pushIfSet_acc, IH.
  unfold pushIfSet. cbn [String.get nth_error].
  destruct (Ascii.eqb c "1"); reflexivity.
Qed.

Lemma getFieldNamesFromBitmap_namesOfBits (fields : list Field)
    (hex : string) :
  getFieldNamesFromBitmap fields hex
  = namesOfBits (reverse (expandDigits (substringFrom 2 hex))) fields.
Proof.
  unfold getFieldNamesFromBitmap.
  rewrite fold_pushIfSet_namesOfBits, hexToBin_expandDigits. reflexivity.
Qed.

(** *** Bit strings and the bits of a number *)

Lemma namesOfBits_nil (bits : string) : namesOfBits bits [] = [].
Proof. destruct bits; reflexivity. Qed.

Lemma namesOfBits_setBitFieldsFrom (v : Z) (fields : list Field) :
  forall bits k,
    (forall i, bitAt (list_ascii_of_string bits) i
               = Z.testbit v (Z.of_nat (k + i))) ->
    namesOfBits bits fields = setBitFieldsFrom v k fields.
Proof.
  induction fields as [| f fields IH]; intros bits k Hbits.
  - apply namesOfBits_nil.
  - cbn [setBitFieldsFrom]. pose proof (Hbits 0) as H0.
    rewrite Nat.add_0_r in H0. rewrite <- H0.
    destruct bits as [| c bits].
    + cbn. rewrite <- (IH EmptyString (S k)); [reflexivity|].
      intros i. replace (S k + i) with (k + S i) by lia. rewrite <- Hbits.
      destruct i; reflexivity.
    + cbn. rewrite <- (IH bits (S k)); [reflexivity|].
      intros i. replace (S k + i) with (k + S i) by lia. rewrite <- Hbits.
      reflexivity.
Qed.

Lemma testbit_low (h d n : Z) :
  (0 <= d < 16)%Z -> (0 <= n < 4)%Z ->
  Z.testbit (16 * h + d) n = Z.testbit d n.
Proof.
  intros Hd Hn.
  rewrite <- (Z.mod_pow2_bits_low (16 * h + d) 4 n) by lia.
  f_equal. change (2 ^ 4)%Z with 16%Z.
  rewrite Z.add_comm, Z.mul_comm, Z.mod_add by lia.
  apply Z.mod_small. exact Hd.
Qed.

Lemma testbit_high (h d n : Z) :
  (0 <= d < 16)%Z -> (0 <= n)%Z ->
  Z.testbit (16 * h + d) (n + 4) = Z.testbit h n.
Proof.
  intros Hd Hn.
  rewrite <- (Z.div_pow2_bits (16 * h + d) 4 n) by lia.
  f_equal. change (2 ^ 4)%Z with 16%Z.
  rewrite Z.add_comm, Z.mul_comm, Z.div_add by lia.
  rewrite Z.div_small by exact Hd. reflexivity.
Qed.

Lemma hexDigitValue_range (c : ascii) : (0 <= hexDigitValue c < 16)%Z.
Proof.
  each_ascii c; vm_compute; split; congruence.
Qed.

(** The bit string of a list of digits. *)
Lemma list_ascii_of_expandDigits (digits : string) :
  list_ascii_of_string (expandDigits digits)
  = flat_map (fun c => list_ascii_of_string (expandDigit c))
      (list_ascii_of_string digits).
Proof.
  induction digits as [| c digits IH]; [reflexivity|].
  cbn [expandDigits list_ascii_of_string flat_map].
  rewrite list_ascii_of_string_app, IH. reflexivity.
Qed.

Lemma allChars_Forall (p : ascii -> bool) (s : string) :
  allChars p s = true ->
  Forall (fun c => p c = true) (list_ascii_of_string s).
Proof.
  induction s as [| c s IH]; cbn; intros H; [constructor|].
  apply andb_true_iff in H. destruct H as [Hc Hs].
  constructor; [exact Hc | apply IH; exact Hs].
Qed.

Lemma bitAt_ite (t : bool) :
  Ascii.eqb (if t then "1"%char else "0"%char) "1" = t.
Proof. destruct t; reflexivity. Qed.

Lemma expandDigits_bits (l : list ascii) :
  Forall (fun c => isUpperHex c = true) l ->
  forall i,
    bitAt (rev (flat_map (fun c => list_ascii_of_string (expandDigit c)) l)) i
    = Z.testbit
        (fold_left (fun acc c => (16 * acc + hexDigitValue c)%Z) l 0%Z)
        (Z.of_nat i).
Proof.
  induction l as [| d l IH] using rev_ind; intros Hall i.
  - cbn. rewrite Z.testbit_0_l. destruct i; reflexivity.
  - apply Forall_app in Hall. destruct Hall as [Hl Hd].
    inversion Hd as [| ? ? Hupper _]; subst.
    rewrite flat_map_app, rev_app_distr, fold_left_app.
    cbn [flat_map fold_left]. rewrite app_nil_r.
    unfold expandDigit at 1. rewrite Hupper. unfold binary4.
    cbn [list_ascii_of_string rev app].
    pose proof (hexDigitValue_range d) as Hrange.
    set (h := fold_left _ l 0%Z) in *.
    destruct i as [| [| [| [| j]]]].
    + unfold bitAt. cbn [nth_error]. rewrite bitAt_ite.
      symmetry. apply testbit_low; [exact Hrange | cbn; lia].
    + unfold bitAt. cbn [nth_error]. rewrite bitAt_ite.
      symmetry. apply testbit_low; [exact Hrange | cbn; lia].
    + unfold bitAt. cbn [nth_error]. rewrite bitAt_ite.
      symmetry. apply testbit_low; [exact Hrange | cbn; lia].
    + unfold bitAt. cbn [nth_error]. rewrite bitAt_ite.
      symmetry. apply testbit_low; [exact Hrange | cbn; lia].
    + replace (Z.of_nat (S (S (S (S j))))) with (Z.of_nat j + 4)%Z by lia.
      rewrite testbit_high by (try exact Hrange; lia).
      rewrite <- (IH Hl j). reflexivity.
Qed.

Lemma list_ascii_of_reverse (s : string) :
  list_ascii_of_string (reverse s) = rev (list_ascii_of_string s).
Proof. apply list_ascii_of_string_of_list_ascii. Qed.

(** On upper-case digits the parser emits the fields at the set bits of
    the number the digits denote. *)
Lemma getFieldNamesFromBitmap_setBitFields (fields : list Field)
    (digits : string) :
  allChars isUpperHex digits = true ->
  getFieldNamesFromBitmap fields (String "0" (String "x" digits))
  = setBitFields (hexValue digits) fields.
Proof.
  intros Hupper. rewrite getFieldNamesFromBitmap_namesOfBits.
  cbn [substringFrom]. apply namesOfBits_setBitFieldsFrom.
  intros i. rewrite list_ascii_of_reverse, list_ascii_of_expandDigits.
  cbn [Nat.add]. apply expandDigits_bits. apply allChars_Forall.
  exact Hupper.
Qed.

(** *** The child fields of a parent *)

Lemma fold_record_fields (types : list AvroType) :
  forall acc,
    forEach
      (fun fields type =>
         if instanceofRecordType type
         then recordFields <- getFields type ;; Some (fields ++ recordFields)
         else Some fields)
      types acc
    = Some (acc ++ flat_map (fun branch => match branch with
                                           | RecordType fields => fields
                                           | _ => []
                                           end) types).
Proof.
  induction types as [| t types IH]; intros acc; cbn [forEach flat_map].
  - rewrite app_nil_r. reflexivity.
  - destruct t; cbn [instanceofRecordType getFields bind]; rewrite IH;
      rewrite <- ?app_assoc; reflexivity.
Qed.

Lemma getChildFields_recordBranchFields (parent : Field) :
  getChildFields (Some parent) = recordBranchFields (fieldType parent).
Proof.
  unfold getChildFields, recordBranchFields, getTypes. cbn [bind].
  destruct (fieldType parent); try reflexivity.
  cbn [bind]. rewrite fold_record_fields. reflexivity.
Qed.

Lemma addChildFieldNames_resolvePair (allFields : list Field)
    (fieldNames : list string) (entry : string) :
  addChildFieldNames allFields fieldNames entry
  = (names <- resolvePair getFieldNamesFromBitmap allFields entry ;;
     Some (fieldNames ++ names)).
Proof.
  unfold addChildFieldNames, resolvePair.
  destruct (split "-" entry) as [| parentIndex [| childBitmap segs]];
    cbn [bind]; rewrite ?app_nil_r; try reflexivity.
  unfold arrayGet.
  destruct (parseInt parentIndex) as [index|]; cbn [bind]; [|reflexivity].
  destruct (0 <=? index)%Z; cbn [bind]; [|reflexivity].
  destruct (nth_error allFields (Z.to_nat index)) as [parent|];
    cbn [bind]; [|reflexivity].
  rewrite getChildFields_recordBranchFields.
  destruct (recordBranchFields (fieldType parent)); reflexivity.
Qed.

Lemma forEach_resolvePairs (allFields : list Field) (entries : list string) :
  forall fieldNames,
    forEach (addChildFieldNames allFields) entries fieldNames
    = (pairs <- resolvePairs getFieldNamesFromBitmap allFields entries ;;
       Some (fieldNames ++ pairs)).
Proof.
  induction entries as [| entry entries IH]; intros fieldNames;
    cbn [forEach resolvePairs bind].
  - rewrite app_nil_r. reflexivity.
  - rewrite addChildFieldNames_resolvePair.
    destruct (resolvePair getFieldNamesFromBitmap allFields entry)
      as [names|]; cbn [bind]; [|reflexivity].
    rewrite IH.
    destruct (resolvePairs getFieldNamesFromBitmap allFields entries)
      as [pairs|]; cbn [bind]; [|reflexivity].
    rewrite app_assoc. reflexivity.
Qed.

(** C5 (as amended): on a sequence of at least two entries whose last
    entry holds a "-", every entry is read as the pair
    "<parentFieldIndex>-<childBitmapHex>" (an entry without "-" yields
    nothing): the parent is the field at that index of the top-level
    list, the nested fields are those of the record-typed branches of
    its union type, the child bitmap is resolved against them by the
    top-level algorithm, and each child name is emitted after
    "<parentFieldName>."; these names follow those of a leading
    top-level bitmap, and the resolution fails when a parent cannot be
    resolved.  A sequence of exactly one entry is never read as a pair. *)
Theorem parent_child_pairs_resolved (allFields : list Field)
    (first : string) (rest : list string) :
  rest <> [] ->
  indexOf (last rest "") "-" <> (-1)%Z ->
  parseFieldBitmaps allFields (first :: rest)
  = (pairs <- resolvePairs getFieldNamesFromBitmap allFields
                (first :: rest) ;;
     Some ((if startsWith first "0x"
            then getFieldNamesFromBitmap allFields first else [])
           ++ pairs))
  /\ parseFieldBitmaps allFields [first]
     = Some (if startsWith first "0x"
             then getFieldNamesFromBitmap allFields first else []).
Proof.
  intros Hrest Hlast. split; [|reflexivity].
  unfold parseFieldBitmaps.
  assert (Hlen : (1 <? List.length (first :: rest))%nat = true).
  { destruct rest; [contradiction | reflexivity]. }
  assert (Hl : last (first :: rest) "" = last rest "").
  { destruct rest; [contradiction | reflexivity]. }
  rewrite Hlen, Hl. apply Z.eqb_neq in Hlast. rewrite Hlast.
  cbn [andb negb]. apply forEach_resolvePairs.
Qed.

Lemma parent_child_pairs_resolved_witness :
  parseFieldBitmaps Sample.accountFields ["0x05"; "4-0x05"]
  = Some ["Name"; "Website"; "Address.Street"; "Address.PostalCode"].
Proof.
  rewrite (proj1 (parent_child_pairs_resolved Sample.accountFields
                    "0x05" ["4-0x05"] ltac:(discriminate)
                    ltac:(vm_compute; discriminate))).
  reflexivity.
Defined.

(** C5 (as stated) fails on a sequence of exactly one entry: the pair
    "4-0x05" names two fields of the address, and alone in its sequence
    it resolves to nothing. *)
Lemma single_pair_entry_not_resolved :
  resolvePairs getFieldNamesFromBitmap Sample.accountFields ["4-0x05"]
  = Some ["Address.Street"; "Address.PostalCode"]
  /\ parseFieldBitmaps Sample.accountFields ["4-0x05"] = Some [].
Proof. split; reflexivity. Qed.

(** C6 (as amended): the empty sequence resolves to the empty result;
    when the first entry is "0x" followed by upper-case hexadecimal
    digits and the sequence is not one of parent-child pairs (it has one
    entry, or its last entry holds no "-"), the result is exactly the
    names of the fields whose position is a set bit of the number the
    digits denote, four bits a digit, in declaration order. *)
Theorem top_level_bitmap_resolved (allFields : list Field)
    (digits : string) (rest : list string) :
  allChars isUpperHex digits = true ->
  (rest <> [] -> indexOf (last rest "") "-" = (-1)%Z) ->
  parseFieldBitmaps allFields [] = Some []
  /\ parseFieldBitmaps allFields (String "0" (String "x" digits) :: rest)
     = Some (setBitFields (hexValue digits) allFields).
Proof.
  intros Hupper Hlast. split; [reflexivity|].
  unfold parseFieldBitmaps.
  replace (startsWith (String "0" (String "x" digits)) "0x") with true
    by (unfold startsWith; cbn; destruct digits; reflexivity).
  rewrite getFieldNamesFromBitmap_setBitFields by exact Hupper.
  destruct rest as [| entry rest]; [reflexivity|].
  assert (Hl : last (String "0" (String "x" digits) :: entry :: rest) ""
               = last (entry :: rest) "") by reflexivity.
  rewrite Hl, Hlast by discriminate.
  rewrite andb_false_r. reflexivity.
Qed.

Lemma top_level_bitmap_resolved_witness :
  parseFieldBitmaps Sample.accountFields ["0x2A"]
  = Some ["Phone"; "Industry"; "Rating"].
Proof.
  rewrite (proj2 (top_level_bitmap_resolved Sample.accountFields "2A" []
                    eq_refl ltac:(intros H; contradiction))).
  reflexivity.
Defined.

(** C6 (as stated) fails on a lower-case digit: "0x0a" is 00001010, the
    bits 1 and 3, and the parser resolves it to nothing. *)
Lemma lowercase_bitmap_not_resolved :
  setBitFields (hexValue "0a") Sample.accountFields = ["Phone"; "Industry"]
  /\ parseFieldBitmaps Sample.accountFields ["0x0a"] = Some []
  /\ parseFieldBitmaps Sample.accountFields ["0x0a"]
     <> Some (setBitFields (hexValue "0a") Sample.accountFields).
Proof. repeat split. discriminate. Qed.

(** *** Lower-case digits *)

Lemma countOnes_app (s1 s2 : string) :
  countOnes (String.append s1 s2) = countOnes s1 + countOnes s2.
Proof.
  induction s1 as [| c s1 IH]; [reflexivity|].
  cbn [String.append countOnes]. rewrite IH. apply Nat.add_assoc.
Qed.

Lemma countOnes_filter (s : string) :
  countOnes s
  = List.length (filter (fun c => Ascii.eqb c "1") (list_ascii_of_string s)).
Proof.
  induction s as [| c s IH]; [reflexivity|].
  cbn [countOnes list_ascii_of_string filter]. rewrite IH.
  destruct (Ascii.eqb c "1"); reflexivity.
Qed.

Lemma countOnes_reverse (s : string) : countOnes (reverse s) = countOnes s.
Proof.
  rewrite !countOnes_filter, list_ascii_of_reverse, filter_rev, length_rev.
  reflexivity.
Qed.

Lemma length_namesOfBits_le (bits : string) :
  forall fields, List.length (namesOfBits bits fields) <= countOnes bits.
Proof.
  induction bits as [| c bits IH]; intros fields; [apply Nat.le_refl|].
  destruct fields as [| f fields]; cbn [namesOfBits countOnes List.length];
    [lia|].
  rewrite length_app. specialize (IH fields).
  destruct (Ascii.eqb c "1"); cbn [List.length]; lia.
Qed.

Lemma countOnes_none (bits : string) :
  (forall i, bitAt (list_ascii_of_string bits) i = false) ->
  countOnes bits = 0.
Proof.
  induction bits as [| c bits IH]; intros Hnone; [reflexivity|].
  cbn [countOnes]. pose proof (Hnone 0) as H0. cbn in H0. rewrite H0.
  apply IH. intros i. apply (Hnone (S i)).
Qed.

(** When every "1" of the bit string faces a field, each is named. *)
Lemma length_namesOfBits_within (bits : string) :
  forall fields,
    (forall i, bitAt (list_ascii_of_string bits) i = true ->
               i < List.length fields) ->
    List.length (namesOfBits bits fields) = countOnes bits.
Proof.
  induction bits as [| c bits IH]; intros fields Hin; [reflexivity|].
  destruct fields as [| f fields].
  - cbn [namesOfBits List.length]. symmetry. apply countOnes_none.
    intros i. destruct (bitAt _ i) eqn:Hi; [|reflexivity].
    apply Hin in Hi. cbn in Hi. lia.
  - cbn [namesOfBits countOnes]. rewrite length_app, IH.
    + destruct (Ascii.eqb c "1"); reflexivity.
    + intros i Hi. specialize (Hin (S i) Hi). cbn in Hin. lia.
Qed.

(** What upper-casing does to one digit. *)
Lemma toUpperHex_digit (c : ascii) :
  isHexDigit c = true ->
  isUpperHex (toUpperHex c) = true
  /\ hexDigitValue (toUpperHex c) = hexDigitValue c
  /\ countOnes (expandDigit c) <= countOnes (expandDigit (toUpperHex c))
  /\ (isLowerHex c = true ->
      countOnes (expandDigit c) < countOnes (expandDigit (toUpperHex c))).
Proof.
  each_ascii c; vm_compute; intros H;
    try discriminate H;
    (split; [reflexivity|]; split; [reflexivity|];
     split; [repeat constructor|]; intros H'; try discriminate H';
     repeat constructor).
Qed.

Lemma toUpperHex_digits (digits : string) :
  allChars isHexDigit digits = true ->
  allChars isUpperHex (mapChars toUpperHex digits) = true
  /\ countOnes (expandDigits digits)
     <= countOnes (expandDigits (mapChars toUpperHex digits))
  /\ (someChar isLowerHex digits = true ->
      countOnes (expandDigits digits)
      < countOnes (expandDigits (mapChars toUpperHex digits))).
Proof.
  induction digits as [| c digits IH]; intros Hall.
  - cbn. repeat split; [lia | discriminate].
  - cbn [allChars] in Hall. apply andb_true_iff in Hall.
    destruct Hall as [Hc Hall].
    destruct (IH Hall) as (Hup & Hle & Hlt).
    destruct (toUpperHex_digit c Hc) as (Hcup & _ & Hcle & Hclt).
    cbn [mapChars allChars expandDigits someChar].
    rewrite Hcup, Hup, !countOnes_app. repeat split; [lia|].
    intros Hsome. apply orb_true_iff in Hsome.
    destruct Hsome as [Hlow | Hsome]; [specialize (Hclt Hlow) |
                                       specialize (Hlt Hsome)]; lia.
Qed.

Lemma hexValue_toUpperHex (digits : string) :
  allChars isHexDigit digits = true ->
  hexValue (mapChars toUpperHex digits) = hexValue digits.
Proof.
  unfold hexValue. generalize 0%Z.
  induction digits as [| c digits IH]; intros acc Hall; [reflexivity|].
  cbn [allChars] in Hall. apply andb_true_iff in Hall.
  destruct Hall as [Hc Hall].
  destruct (toUpperHex_digit c Hc) as (_ & Hv & _).
  cbn [mapChars list_ascii_of_string fold_left]. rewrite Hv.
  apply IH. exact Hall.
Qed.

(** *** What the parser reads off any string of digits *)

Lemma not_upper_not_one (c : ascii) :
  isUpperHex c = false -> Ascii.eqb c "1" = false.
Proof.
  destruct (Ascii.eqb_spec c "1") as [-> | _]; [discriminate | reflexivity].
Qed.

Lemma expandDigits_bits_any (l : list ascii) :
  forall i,
    bitAt (rev (flat_map (fun c => list_ascii_of_string (expandDigit c)) l)) i
    = Z.testbit
        (fold_left (fun acc c => if isUpperHex c
                                 then (16 * acc + hexDigitValue c)%Z
                                 else (2 * acc)%Z) l 0%Z)
        (Z.of_nat i).
Proof.
  induction l as [| d l IH] using rev_ind; intros i.
  - cbn. rewrite Z.testbit_0_l. destruct i; reflexivity.
  - rewrite flat_map_app, rev_app_distr, fold_left_app.
    cbn [flat_map fold_left]. rewrite app_nil_r.
    unfold expandDigit at 1.
    set (h := fold_left _ l 0%Z) in *.
    destruct (isUpperHex d) eqn:Hupper.
    + unfold binary4. cbn [list_ascii_of_string rev app].
      pose proof (hexDigitValue_range d) as Hrange.
      destruct i as [| [| [| [| j]]]].
      * unfold bitAt. cbn [nth_error]. rewrite bitAt_ite.
        symmetry. apply testbit_low; [exact Hrange | cbn; lia].
      * unfold bitAt. cbn [nth_error]. rewrite bitAt_ite.
        symmetry. apply testbit_low; [exact Hrange | cbn; lia].
      * unfold bitAt. cbn [nth_error]. rewrite bitAt_ite.
        symmetry. apply testbit_low; [exact Hrange | cbn; lia].
      * unfold bitAt. cbn [nth_error]. rewrite bitAt_ite.
        symmetry. apply testbit_low; [exact Hrange | cbn; lia].
      * replace (Z.of_nat (S (S (S (S j))))) with (Z.of_nat j + 4)%Z by lia.
        rewrite testbit_high by (try exact Hrange; lia).
        rewrite <- (IH j). reflexivity.
    + cbn [list_ascii_of_string rev app].
      destruct i as [| j].
      * unfold bitAt. cbn [nth_error].
        rewrite (not_upper_not_one d Hupper).
        symmetry. apply Z.testbit_even_0.
      * replace (Z.of_nat (S j)) with (Z.succ (Z.of_nat j)) by lia.
        rewrite Z.testbit_even_succ by lia.
        rewrite <- (IH j). reflexivity.
Qed.

(** Whatever the digits, the parser emits the fields at the set bits of
    the number it reads off them. *)
Lemma getFieldNamesFromBitmap_readValue (fields : list Field)
    (digits : string) :
  getFieldNamesFromBitmap fields (String "0" (String "x" digits))
  = setBitFields (readValue digits) fields.
Proof.
  rewrite getFieldNamesFromBitmap_namesOfBits.
  cbn [substringFrom]. apply namesOfBits_setBitFieldsFrom.
  intros i. rewrite list_ascii_of_reverse, list_ascii_of_expandDigits.
  cbn [Nat.add]. apply expandDigits_bits_any.
Qed.

Lemma length_list_ascii_of_string (s : string) :
  List.length (list_ascii_of_string s) = String.length s.
Proof.
  induction s as [| c s IH]; [reflexivity|]. cbn. rewrite IH. reflexivity.
Qed.

(** Digits read at four bits each, after a number already read. *)
Lemma fold_hex_acc (l : list ascii) :
  forall acc,
    fold_left (fun acc c => (16 * acc + hexDigitValue c)%Z) l acc
    = (16 ^ Z.of_nat (List.length l) * acc
       + fold_left (fun acc c => (16 * acc + hexDigitValue c)%Z) l 0)%Z.
Proof.
  induction l as [| c l IH]; intros acc.
  - cbn [fold_left List.length]. change (Z.of_nat 0) with 0%Z.
    rewrite Z.pow_0_r. lia.
  - cbn [fold_left List.length]. rewrite IH.
    rewrite (IH (16 * 0 + hexDigitValue c)%Z).
    replace (Z.of_nat (S (List.length l)))
      with (Z.succ (Z.of_nat (List.length l))) by lia.
    rewrite Z.pow_succ_r by lia. lia.
Qed.

(** On upper-case digits the parser reads four bits a digit. *)
Lemma fold_read_upper (l : list ascii) :
  Forall (fun c => isUpperHex c = true) l ->
  forall acc,
    fold_left (fun acc c => if isUpperHex c
                            then (16 * acc + hexDigitValue c)%Z
                            else (2 * acc)%Z) l acc
    = fold_left (fun acc c => (16 * acc + hexDigitValue c)%Z) l acc.
Proof.
  induction 1 as [| c l Hc _ IH]; intros acc; [reflexivity|].
  cbn [fold_left]. rewrite Hc. apply IH.
Qed.

(** A digit the parser does not expand, between upper-case digits: what
    the parser reads, and what the digits denote. *)
Lemma readValue_unexpanded_digit (high low : string) (c : ascii) :
  allChars isUpperHex high = true ->
  allChars isUpperHex low = true ->
  isUpperHex c = false ->
  let shift := (16 ^ Z.of_nat (String.length low))%Z in
  readValue (String.append high (String c low))
  = (2 * shift * hexValue high + hexValue low)%Z
  /\ hexValue (String.append high (String c low))
     = (16 * shift * hexValue high + shift * hexDigitValue c
        + hexValue low)%Z.
Proof.
  intros Hhigh Hlow Hc shift. unfold readValue, hexValue.
  rewrite list_ascii_of_string_app. cbn [list_ascii_of_string].
  rewrite !fold_left_app. cbn [fold_left]. rewrite Hc.
  apply allChars_Forall in Hhigh, Hlow.
  rewrite (fold_read_upper _ Hhigh), (fold_read_upper _ Hlow).
  set (h := fold_left _ (list_ascii_of_string high) 0%Z).
  rewrite (fold_hex_acc _ (2 * h)%Z), (fold_hex_acc _ (16 * h + _)%Z).
  rewrite length_list_ascii_of_string. fold shift. split; lia.
Qed.

(** C10 (as amended): [hexToBin] expands a bitmap character by
    character, an upper-case digit into the four bits of its value and
    any other character, so each of the letters a to f, into itself, a
    single mark that is no "1".  The fields resolved are therefore those
    at the set bits of the number read with four bits for an upper-case
    digit and one unset bit for any other character: next to the
    4-bits-per-digit reading, the bits of a lower-case digit are dropped
    and the digits before it stand three positions lower.  When every
    set bit of the bitmap addresses a field, the parser names fewer
    fields than the bitmap has set bits at four bits a digit. *)
Theorem lowercase_digits_left_unexpanded :
  (forall hex, hexToBin hex = expandDigits (substringFrom 2 hex))
  /\ (forall c, isUpperHex c = true ->
                expandDigit c = binary4 (hexDigitValue c))
  /\ (forall c, isLowerHex c = true ->
                expandDigit c = String c EmptyString
                /\ countOnes (expandDigit c) = 0)
  /\ (forall fields digits,
        getFieldNamesFromBitmap fields (String "0" (String "x" digits))
        = setBitFields (readValue digits) fields)
  /\ (forall high low c,
        allChars isUpperHex high = true ->
        allChars isUpperHex low = true ->
        isLowerHex c = true ->
        let shift := (16 ^ Z.of_nat (String.length low))%Z in
        readValue (String.append high (String c low))
        = (2 * shift * hexValue high + hexValue low)%Z
        /\ hexValue (String.append high (String c low))
           = (16 * shift * hexValue high + shift * hexDigitValue c
              + hexValue low)%Z)
  /\ (forall fields digits,
        allChars isHexDigit digits = true ->
        someChar isLowerHex digits = true ->
        (forall i, Z.testbit (hexValue digits) (Z.of_nat i) = true ->
                   i < List.length fields) ->
        List.length
          (getFieldNamesFromBitmap fields (String "0" (String "x" digits)))
        < List.length (setBitFields (hexValue digits) fields)).
Proof.
  split; [exact hexToBin_expandDigits|]. split; [|split; [|split; [|split]]].
  - intros c Hc. unfold expandDigit. rewrite Hc. reflexivity.
  - intros c. each_ascii c; vm_compute;
      intros H; try discriminate H; split; reflexivity.
  - exact getFieldNamesFromBitmap_readValue.
  - intros high low c Hhigh Hlow Hc.
    apply readValue_unexpanded_digit; try assumption.
    revert Hc. each_ascii c; vm_compute; intros H;
      try discriminate H; reflexivity.
  - intros fields digits Hall Hsome Hwithin.
    destruct (toUpperHex_digits digits Hall) as (Hup & _ & Hlt).
    specialize (Hlt Hsome).
    rewrite <- (hexValue_toUpperHex digits Hall) in *.
    rewrite <- (getFieldNamesFromBitmap_setBitFields fields _ Hup).
    rewrite !getFieldNamesFromBitmap_namesOfBits. cbn [substringFrom].
    rewrite (length_namesOfBits_within
               (reverse (expandDigits (mapChars toUpperHex digits)))).
    + pose proof (length_namesOfBits_le
                    (reverse (expandDigits digits)) fields) as Hle.
      rewrite countOnes_reverse in *. lia.
    + intros i. rewrite list_ascii_of_reverse, list_ascii_of_expandDigits.
      rewrite expandDigits_bits by (apply allChars_Forall; exact Hup).
      apply Hwithin.
Qed.

Lemma lowercase_digits_left_unexpanded_witness :
  readValue "1a" = 2%Z
  /\ hexValue "1a" = 26%Z
  /\ List.length (getFieldNamesFromBitmap Sample.accountFields "0x0a")
     < List.length (setBitFields (hexValue "0a") Sample.accountFields).
Proof.
  destruct lowercase_digits_left_unexpanded
    as (_ & _ & _ & _ & Hshift & Hfewer).
  destruct (Hshift "1" "" "a"%char eq_refl eq_refl eq_refl)
    as [Hread Hdenoted].
  split; [exact Hread|]. split; [exact Hdenoted|].
  apply (Hfewer Sample.accountFields "0a" eq_refl eq_refl).
  intros i Hi. change (hexValue "0a") with 10%Z in Hi.
  destruct i as [| [| [| [| i]]]]; cbn [Sample.accountFields List.length];
    try lia.
  exfalso. revert Hi.
  replace (Z.of_nat (S (S (S (S i))))) with (Z.of_nat i + 4)%Z by lia.
  rewrite <- (Z.div_pow2_bits 10 4 (Z.of_nat i)) by lia.
  change (10 / 2 ^ 4)%Z with 0%Z. rewrite Z.testbit_0_l. discriminate.
Defined.

(** C10 (as stated) fails where the bits of the lower-case digit, and
    those it displaces, address no field: on five fields "0xa1" resolves
    to the first field under both readings. *)
Lemma lowercase_bitmap_resolved_alike :
  someChar isLowerHex "a1" = true
  /\ getFieldNamesFromBitmap Sample.leadFields "0xa1" = ["Name"]
  /\ setBitFields (hexValue "a1") Sample.leadFields = ["Name"]
  /\ getFieldNamesFromBitmap Sample.leadFields "0xa1"
     = setBitFields (hexValue "a1") Sample.leadFields.
Proof. repeat split. Qed.

(** The digit 1 before a lower-case a: its bit lands on position 1, not
    on position 4, and the bits of the a are lost. *)
Lemma lowercase_digit_shifts_positions :
  hexToBin "0x1a" = "0001a"
  /\ getFieldNamesFromBitmap Sample.accountFields "0x1a" = ["Phone"]
  /\ setBitFields (hexValue "1a") Sample.accountFields
     = ["Phone"; "Industry"; "Address"]
  /\ getFieldNamesFromBitmap Sample.accountFields "0x1A"
     = ["Phone"; "Industry"; "Address"].
Proof. repeat split. Qed.

End BitmapFacts.

(** * Further properties *)

(** ** Replay identifiers: bounds and precision *)

Module ReplayIdBounds.

Import JS Buffer ReplayId ReplayIdFacts.
Local Open Scope Z_scope.

Lemma encodeReplayId_throws_iff (replayId : JSInt) :
  encodeReplayId replayId = None
  <-> valueOf replayId < 0 \/ 2 ^ 64 <= valueOf replayId.
Proof.
  unfold encodeReplayId, writeBigUInt64BE.
  replace (BigInt replayId) with (valueOf replayId)
    by (destruct replayId; reflexivity).
  destruct (Z.leb_spec 0 (valueOf replayId));
    destruct (Z.ltb_spec (valueOf replayId) (2 ^ 64)); cbn [andb];
    split; intros Hthrow; try discriminate Hthrow; try reflexivity;
    try (exfalso; lia); lia.
Qed.

(** X1: [encodeReplayId] throws exactly on the values outside
    [0, 2^64), whichever the representation of the argument, and
    otherwise returns eight bytes, each in [0, 256). *)
Theorem encodeReplayId_throws_out_of_range (replayId : JSInt) :
  (encodeReplayId replayId = None
   <-> valueOf replayId < 0 \/ 2 ^ 64 <= valueOf replayId)
  /\ (forall buf, encodeReplayId replayId = Some buf ->
        List.length buf = 8%nat /\ Forall (fun b => 0 <= b < 256) buf).
Proof.
  split; [apply encodeReplayId_throws_iff|].
  intros buf Hbuf.
  assert (Hin : 0 <= valueOf replayId < 2 ^ 64).
  { destruct (Z.lt_ge_cases (valueOf replayId) 0) as [Hlo | Hlo];
      [|destruct (Z.lt_ge_cases (valueOf replayId) (2 ^ 64)) as [Hhi | Hhi]];
      [|lia|].
    - rewrite (proj2 (encodeReplayId_throws_iff replayId)) in Hbuf
        by (left; exact Hlo).
      discriminate Hbuf.
    - rewrite (proj2 (encodeReplayId_throws_iff replayId)) in Hbuf
        by (right; exact Hhi).
      discriminate Hbuf. }
  unfold encodeReplayId in Hbuf.
  replace (BigInt replayId) with (valueOf replayId) in Hbuf
    by (destruct replayId; reflexivity).
  rewrite writeBigUInt64BE_bytes in Hbuf by exact Hin.
  injection Hbuf as <-. split; [reflexivity|].
  unfold bigEndianBytes.
  repeat (apply Forall_cons; [apply Z.mod_pos_bound; lia|]).
  apply Forall_nil.
Qed.

Lemma encodeReplayId_throws_out_of_range_witness :
  List.length [0; 0; 0; 0; 0; 0; 1; 2] = 8%nat
  /\ Forall (fun b => 0 <= b < 256) [0; 0; 0; 0; 0; 0; 1; 2].
Proof.
  apply (proj2 (encodeReplayId_throws_out_of_range (JNumber 258))).
  reflexivity.
Defined.

Lemma firstn_8_app (buf extra : Buffer) :
  (8 <= List.length buf)%nat -> firstn 8 (buf ++ extra) = firstn 8 buf.
Proof.
  intros Hlen. rewrite firstn_app.
  replace (8 - List.length buf)%nat with 0%nat by lia.
  cbn [firstn]. apply app_nil_r.
Qed.

Lemma decodeReplayId_throws_iff (buf : Buffer) :
  decodeReplayId buf = None <-> (List.length buf < 8)%nat.
Proof.
  unfold decodeReplayId, readBigUInt64BE.
  destruct (Nat.leb_spec 8 (List.length buf)); cbn [bind];
    split; intros H'; try discriminate H'; try reflexivity;
    try (exfalso; lia); lia.
Qed.

(** X2: [decodeReplayId] throws exactly on a buffer of fewer than eight
    bytes, and on a longer buffer it reads the first eight bytes only. *)
Theorem decodeReplayId_reads_eight_bytes (buf extra : Buffer) :
  (decodeReplayId buf = None <-> (List.length buf < 8)%nat)
  /\ ((8 <= List.length buf)%nat ->
      decodeReplayId (buf ++ extra) = decodeReplayId buf
      /\ decodeReplayId buf = decodeReplayId (firstn 8 buf)).
Proof.
  split; [apply decodeReplayId_throws_iff|].
  unfold decodeReplayId, readBigUInt64BE.
  - intros Hlen. split.
    + rewrite length_app.
      replace (8 <=? List.length buf + List.length extra)%nat with true
        by (symmetry; apply Nat.leb_le; lia).
      replace (8 <=? List.length buf)%nat with true
        by (symmetry; apply Nat.leb_le; lia).
      rewrite firstn_8_app by exact Hlen. reflexivity.
    + rewrite firstn_firstn, length_firstn.
      replace (Nat.min 8 (List.length buf)) with 8%nat by lia.
      replace (8 <=? List.length buf)%nat with true
        by (symmetry; apply Nat.leb_le; lia).
      reflexivity.
Qed.

Lemma decodeReplayId_reads_eight_bytes_witness :
  decodeReplayId ([0; 0; 0; 0; 0; 0; 1; 2] ++ [255; 255])
  = decodeReplayId [0; 0; 0; 0; 0; 0; 1; 2].
Proof.
  apply (proj2 (decodeReplayId_reads_eight_bytes
                  [0; 0; 0; 0; 0; 0; 1; 2] [255; 255])).
  cbn. lia.
Defined.

Lemma bigEndianBytes_beValue (b0 b1 b2 b3 b4 b5 b6 b7 : Z) :
  Forall (fun b => 0 <= b < 256) [b0; b1; b2; b3; b4; b5; b6; b7] ->
  bigEndianBytes (beValue [b0; b1; b2; b3; b4; b5; b6; b7])
  = [b0; b1; b2; b3; b4; b5; b6; b7]
  /\ 0 <= beValue [b0; b1; b2; b3; b4; b5; b6; b7] < 2 ^ 64.
Proof.
  intros Hall.
  repeat match goal with
         | H : Forall _ (_ :: _) |- _ => inversion H; subst; clear H
         end.
  unfold beValue, bigEndianBytes. cbn [fold_left].
  change (2 ^ 56) with 72057594037927936.
  change (2 ^ 48) with 281474976710656.
  change (2 ^ 40) with 1099511627776.
  change (2 ^ 32) with 4294967296.
  change (2 ^ 24) with 16777216.
  change (2 ^ 16) with 65536.
  change (2 ^ 8) with 256.
  change (2 ^ 64) with 18446744073709551616.
  split; [|lia].
  repeat f_equal; Z.to_euclidean_division_equations; lia.
Qed.

(** X3: an eight-byte cursor whose value is at most 2^53 survives the
    round trip through the decoded number: [encodeReplayId] of
    [decodeReplayId] of the buffer is the buffer. *)
Theorem replay_id_buffer_round_trip (buf : Buffer) :
  List.length buf = 8%nat ->
  Forall (fun b => 0 <= b < 256) buf ->
  beValue buf <= 2 ^ 53 ->
  decodeReplayId buf = Some (JNumber (beValue buf))
  /\ encodeReplayId (JNumber (beValue buf)) = Some buf.
Proof.
  intros Hlen Hall Hsafe.
  destruct buf as [| b0 [| b1 [| b2 [| b3 [| b4 [| b5 [| b6 [| b7 [| ? ?]]]]]]]]];
    try discriminate Hlen.
  destruct (bigEndianBytes_beValue _ _ _ _ _ _ _ _ Hall) as [Hbytes Hrange].
  split.
  - unfold decodeReplayId, readBigUInt64BE. cbn [List.length Nat.leb bind firstn].
    unfold Number. rewrite roundToDouble_exact; [reflexivity|].
    rewrite Z.abs_eq; lia.
  - unfold encodeReplayId. cbn [BigInt].
    rewrite writeBigUInt64BE_bytes by exact Hrange. rewrite Hbytes.
    reflexivity.
Qed.

Lemma replay_id_buffer_round_trip_witness :
  decodeReplayId [0; 0; 0; 0; 0; 0; 1; 2] = Some (JNumber 258)
  /\ encodeReplayId (JNumber 258) = Some [0; 0; 0; 0; 0; 0; 1; 2].
Proof.
  apply (replay_id_buffer_round_trip [0; 0; 0; 0; 0; 0; 1; 2]).
  - reflexivity.
  - repeat (apply Forall_cons; [lia|]). apply Forall_nil.
  - vm_compute. discriminate.
Defined.

(** Rounding to a double, on the 64-bit values: the error is at most
    half the spacing of the doubles there, and the result stays within
    [0, 2^64]. *)
Lemma roundToDouble_error (z : Z) :
  0 <= z < 2 ^ 64 ->
  Z.abs (roundToDouble z - z) <= 1024 /\ 0 <= roundToDouble z <= 2 ^ 64.
Proof.
  intros Hz. unfold roundToDouble. rewrite (Z.abs_eq z) by lia.
  destruct (Z.ltb_spec z (2 ^ 53)) as [Hsmall | Hbig].
  - rewrite Z.sub_diag. cbn. lia.
  - assert (Hpos : 0 < z) by lia.
    rewrite (Z.sgn_pos z) by exact Hpos. rewrite Z.mul_1_l.
    destruct (Z.log2_spec z Hpos) as [Hlo Hhi].
    assert (Hlog : 53 <= Z.log2 z <= 63).
    { split.
      - apply Z.log2_le_pow2; [exact Hpos | exact Hbig].
      - assert (Z.log2 z < 64); [|lia].
        apply Z.log2_lt_pow2; [exact Hpos | lia]. }
    set (e := Z.log2 z - 52) in *.
    assert (He : 1 <= e <= 11) by (subst e; lia).
    assert (HP : 2 ^ e = 2 * 2 ^ (e - 1)).
    { rewrite <- Z.pow_succ_r by lia. f_equal. lia. }
    assert (HH : 0 < 2 ^ (e - 1) <= 1024).
    { split; [apply Z.pow_pos_nonneg; lia|].
      change 1024 with (2 ^ 10). apply Z.pow_le_mono_r; lia. }
    assert (Hq : z / 2 ^ e < 2 ^ 53).
    { apply Z.div_lt_upper_bound; [lia|].
      rewrite <- Z.pow_add_r by lia.
      replace (e + 53) with (Z.succ (Z.log2 z)) by (subst e; lia).
      exact Hhi. }
    pose proof (Z.div_mod z (2 ^ e) ltac:(lia)) as Hdm.
    pose proof (Z.mod_pos_bound z (2 ^ e) ltac:(lia)) as Hr.
    assert (Hq0 : 0 <= z / 2 ^ e) by (apply Z.div_pos; lia).
    set (P := 2 ^ e) in *. set (H := 2 ^ (e - 1)) in *.
    set (q := z / P) in *. set (r := z mod P) in *.
    assert (HPle : P <= 2048) by lia.
    assert (Hup : (q + 1) * P <= 2 ^ 53 * 2048).
    { apply Z.mul_le_mono_nonneg; lia. }
    assert (Hqp : 0 <= q * P) by (apply Z.mul_nonneg_nonneg; lia).
    change (2 ^ 53 * 2048) with (2 ^ 64) in Hup.
    destruct ((H <? r) || ((H =? r) && Z.odd q)) eqn:Hcond.
    + assert (Hge : H <= r).
      { apply orb_true_iff in Hcond. destruct Hcond as [Hc | Hc].
        - apply Z.ltb_lt in Hc. lia.
        - apply andb_true_iff in Hc. destruct Hc as [Hc _].
          apply Z.eqb_eq in Hc. lia. }
      split; [|lia]. apply Z.abs_le. lia.
    + assert (Hle : r <= H).
      { apply orb_false_iff in Hcond. destruct Hcond as [Hc _].
        apply Z.ltb_ge in Hc. exact Hc. }
      split; [|lia]. apply Z.abs_le. lia.
Qed.

(** X4: the cursor that comes back from [decodeReplayId] after
    [encodeReplayId] is a number within 1024 of the 64-bit integer
    encoded, and it lies in [0, 2^64]. *)
Theorem replay_id_round_trip_precision (n : Z) :
  0 <= n < 2 ^ 64 ->
  exists buf d,
    encodeReplayId (JBigInt n) = Some buf
    /\ decodeReplayId buf = Some (JNumber d)
    /\ Z.abs (d - n) <= 1024
    /\ 0 <= d <= 2 ^ 64.
Proof.
  intros Hn. exists (bigEndianBytes n), (roundToDouble n).
  split; [apply (writeBigUInt64BE_bytes n Hn)|]. split.
  - unfold decodeReplayId, readBigUInt64BE.
    change (8 <=? List.length (bigEndianBytes n))%nat with true.
    change (firstn 8 (bigEndianBytes n)) with (bigEndianBytes n).
    rewrite beValue_bigEndianBytes by exact Hn. reflexivity.
  - apply roundToDouble_error. exact Hn.
Qed.

Lemma replay_id_round_trip_precision_witness :
  exists buf d,
    encodeReplayId (JBigInt 18446744073709551615) = Some buf
    /\ decodeReplayId buf = Some (JNumber d)
    /\ Z.abs (d - 18446744073709551615) <= 1024
    /\ 0 <= d <= 2 ^ 64.
Proof.
  apply (replay_id_round_trip_precision 18446744073709551615).
  cbn. lia.
Defined.

End ReplayIdBounds.

(** ** The custom long type: encoding and order *)

Module LongTypeRoundTrip.

Import JS Buffer LongType ReplayIdFacts LongTypeFacts.
Local Open Scope Z_scope.

Lemma writeBigInt64LE_bytes (v : Z) :
  - 2 ^ 63 <= v < 2 ^ 63 ->
  writeBigInt64LE v = Some (rev (bigEndianBytes v)).
Proof.
  intros Hv. unfold writeBigInt64LE.
  replace ((- 2 ^ 63 <=? v) && (v <? 2 ^ 63)) with true.
  - cbn [map]. rewrite !byte_of_shift by lia. unfold bigEndianBytes.
    cbn [rev app]. repeat f_equal. cbn. rewrite Z.div_1_r. reflexivity.
  - symmetry. apply andb_true_iff.
    split; [apply Z.leb_le | apply Z.ltb_lt]; lia.
Qed.

Lemma readBigInt64LE_bytes (v : Z) :
  - 2 ^ 63 <= v < 2 ^ 63 ->
  readBigInt64LE (rev (bigEndianBytes v)) = Some v.
Proof.
  intros Hv. unfold readBigInt64LE.
  change (8 <=? List.length (rev (bigEndianBytes v)))%nat with true.
  change (firstn 8 (rev (bigEndianBytes v))) with (rev (bigEndianBytes v)).
  rewrite rev_involutive.
  assert (Hu : beValue (bigEndianBytes v) = v mod 2 ^ 64).
  { unfold beValue, bigEndianBytes. cbn [fold_left].
    change (2 ^ 56) with 72057594037927936.
    change (2 ^ 48) with 281474976710656.
    change (2 ^ 40) with 1099511627776.
    change (2 ^ 32) with 4294967296.
    change (2 ^ 24) with 16777216.
    change (2 ^ 16) with 65536.
    change (2 ^ 8) with 256.
    change (2 ^ 64) with 18446744073709551616.
    Z.to_euclidean_division_equations; lia. }
  rewrite Hu. f_equal.
  change (2 ^ 63) with 9223372036854775808 in *.
  change (2 ^ 64) with 18446744073709551616.
  destruct (Z.ltb_spec (v mod 18446744073709551616) 9223372036854775808);
    Z.to_euclidean_division_equations; lia.
Qed.

(** X5: for every signed 64-bit integer, given as a number or as a
    BigInt, [fromBuffer] of [toBuffer] has the same value; it is a
    number when the value lies in the safe range and a BigInt when it
    does not. *)
Theorem long_round_trip (n : JSInt) :
  - 2 ^ 63 <= valueOf n < 2 ^ 63 ->
  exists buf,
    toBuffer n = Some buf
    /\ List.length buf = 8%nat
    /\ fromBuffer buf
       = Some (if (MIN_SAFE_INTEGER <=? valueOf n)
                  && (valueOf n <=? MAX_SAFE_INTEGER)
               then JNumber (valueOf n) else JBigInt (valueOf n)).
Proof.
  intros Hv. exists (rev (bigEndianBytes (valueOf n))).
  split; [|split].
  - unfold toBuffer.
    replace (BigInt n) with (valueOf n) by (destruct n; reflexivity).
    apply writeBigInt64LE_bytes. exact Hv.
  - reflexivity.
  - unfold fromBuffer. rewrite readBigInt64LE_bytes by exact Hv.
    cbn [bind]. unfold lessThan. cbn [valueOf]. f_equal.
    unfold MIN_SAFE_INTEGER, MAX_SAFE_INTEGER.
    destruct (Z.ltb_spec (valueOf n) (- (2 ^ 53 - 1)));
      destruct (Z.ltb_spec (2 ^ 53 - 1) (valueOf n));
      destruct (Z.leb_spec (- (2 ^ 53 - 1)) (valueOf n));
      destruct (Z.leb_spec (valueOf n) (2 ^ 53 - 1));
      cbn [orb andb]; try lia; try reflexivity.
    assert (Has : asIntN64 (valueOf n) = valueOf n).
    { unfold asIntN64. rewrite Z.mod_small; lia. }
    unfold Number. rewrite Has, roundToDouble_exact; [reflexivity|].
    apply Z.abs_le. lia.
Qed.

Lemma long_round_trip_witness :
  exists buf,
    toBuffer (JNumber (-2)) = Some buf
    /\ List.length buf = 8%nat
    /\ fromBuffer buf = Some (JNumber (-2)).
Proof.
  apply (long_round_trip (JNumber (-2))). cbn. lia.
Defined.

(** X6: [toBuffer] throws exactly on the values outside
    [-2^63, 2^63). *)
Theorem toBuffer_throws_out_of_range (n : JSInt) :
  toBuffer n = None <-> valueOf n < - 2 ^ 63 \/ 2 ^ 63 <= valueOf n.
Proof.
  unfold toBuffer, writeBigInt64LE.
  replace (BigInt n) with (valueOf n) by (destruct n; reflexivity).
  destruct (Z.leb_spec (- 2 ^ 63) (valueOf n));
    destruct (Z.ltb_spec (valueOf n) (2 ^ 63)); cbn [andb];
    split; intros Hthrow; try discriminate Hthrow; try reflexivity;
    try (exfalso; lia); lia.
Qed.

(** X7: on two values decoded by [fromBuffer], [compare] is the
    comparison of their numeric values: 0 exactly when they are equal,
    and reversed when the operands are exchanged. *)
Theorem compare_of_decoded_values (buf1 buf2 : Buffer) (n1 n2 : JSInt) :
  fromBuffer buf1 = Some n1 ->
  fromBuffer buf2 = Some n2 ->
  compare n1 n2 = numericCompare n1 n2
  /\ (compare n1 n2 = 0 <-> valueOf n1 = valueOf n2)
  /\ (compare n1 n2 = -1 <-> valueOf n1 < valueOf n2)
  /\ compare n2 n1 = - compare n1 n2.
Proof.
  intros H1 H2.
  rewrite (compare_decoded buf1 buf2 n1 n2 H1 H2).
  rewrite (compare_decoded buf2 buf1 n2 n1 H2 H1).
  unfold numericCompare. rewrite (Z.compare_antisym (valueOf n1)).
  destruct (Z.compare_spec (valueOf n1) (valueOf n2)); cbn [CompOpp];
    repeat split; intros; try lia; try discriminate.
Qed.

Lemma compare_of_decoded_values_witness :
  compare (JNumber 5) (JBigInt 9007199254740993) = -1.
Proof.
  destruct (compare_of_decoded_values
              [5; 0; 0; 0; 0; 0; 0; 0] [1; 0; 0; 0; 0; 0; 32; 0]
              (JNumber 5) (JBigInt 9007199254740993) eq_refl eq_refl)
    as (_ & _ & Hlt & _).
  apply Hlt. cbn. lia.
Defined.

End LongTypeRoundTrip.

(** ** The field bitmap resolver: what it never does *)

Module BitmapBounds.

Import Str Avro EventParser BitmapSpec BitmapAux BitmapFacts Seq.

Lemma Subsequence_nil {A : Type} (l : list A) : Subsequence [] l.
Proof. induction l; constructor; assumption. Qed.

Lemma Subsequence_length {A : Type} (l1 l2 : list A) :
  Subsequence l1 l2 -> List.length l1 <= List.length l2.
Proof. induction 1; cbn; lia. Qed.

Lemma namesOfBits_Subsequence (bits : string) :
  forall fields, Subsequence (namesOfBits bits fields) (map getName fields).
Proof.
  induction bits as [| c bits IH]; intros fields;
    [apply Subsequence_nil|].
  destruct fields as [| f fields]; [constructor|].
  cbn [namesOfBits map].
  destruct (Ascii.eqb c "1"); cbn [app]; constructor; apply IH.
Qed.

(** X8: whatever the string it is given, [getFieldNamesFromBitmap]
    returns names of the field list, each at most once per field and in
    declaration order; so never more names than there are fields. *)
Theorem getFieldNamesFromBitmap_subsequence (fields : list Field)
    (hex : string) :
  Subsequence (getFieldNamesFromBitmap fields hex) (map getName fields)
  /\ List.length (getFieldNamesFromBitmap fields hex) <= List.length fields.
Proof.
  assert (Hsub : Subsequence (getFieldNamesFromBitmap fields hex)
                   (map getName fields)).
  { rewrite getFieldNamesFromBitmap_namesOfBits.
    apply namesOfBits_Subsequence. }
  split; [exact Hsub|].
  rewrite <- (length_map getName fields).
  apply Subsequence_length. exact Hsub.
Qed.

Lemma expandDigits_app (s1 s2 : string) :
  expandDigits (String.append s1 s2)
  = String.append (expandDigits s1) (expandDigits s2).
Proof.
  induction s1 as [| c s1 IH]; [reflexivity|].
  cbn [String.append expandDigits]. rewrite IH.
  apply string_append_assoc.
Qed.

Lemma string_length_append (s1 s2 : string) :
  String.length (String.append s1 s2)
  = String.length s1 + String.length s2.
Proof.
  induction s1 as [| c s1 IH]; [reflexivity|]. cbn. rewrite IH. reflexivity.
Qed.

Lemma allChars_append (p : ascii -> bool) (s1 s2 : string) :
  allChars p (String.append s1 s2) = allChars p s1 && allChars p s2.
Proof.
  induction s1 as [| c s1 IH]; [reflexivity|].
  cbn [String.append allChars]. rewrite IH. apply andb_assoc.
Qed.

(** A binary digit. *)
Lemma expandDigit_upper (c : ascii) :
  isUpperHex c = true ->
  String.length (expandDigit c) = 4
  /\ allChars (fun b => Ascii.eqb b "0" || Ascii.eqb b "1") (expandDigit c)
     = true.
Proof.
  each_ascii c; vm_compute; intros H; try discriminate H;
    split; reflexivity.
Qed.

(** The expansion of upper-case digits: four characters a digit, each
    of them "0" or "1". *)
Lemma expandDigits_upper (digits : string) :
  allChars isUpperHex digits = true ->
  String.length (expandDigits digits) = 4 * String.length digits
  /\ allChars (fun b => Ascii.eqb b "0" || Ascii.eqb b "1")
       (expandDigits digits) = true.
Proof.
  induction digits as [| c digits IH]; intros Hall; [split; reflexivity|].
  cbn [allChars] in Hall. apply andb_true_iff in Hall.
  destruct Hall as [Hc Hall].
  destruct (IH Hall) as [Hlen Hbits].
  destruct (expandDigit_upper c Hc) as [Hclen Hcbits].
  cbn [expandDigits String.length].
  rewrite string_length_append, allChars_append, Hclen, Hlen, Hcbits, Hbits.
  split; [lia | reflexivity].
Qed.

(** X9: on a bitmap of upper-case hexadecimal digits, [hexToBin] gives
    exactly four characters a digit, each of them "0" or "1". *)
Theorem hexToBin_upper_case (digits : string) :
  allChars isUpperHex digits = true ->
  String.length (hexToBin (String "0" (String "x" digits)))
  = 4 * String.length digits
  /\ allChars (fun b => Ascii.eqb b "0" || Ascii.eqb b "1")
       (hexToBin (String "0" (String "x" digits))) = true.
Proof.
  rewrite hexToBin_digits. apply expandDigits_upper.
Qed.

Lemma hexToBin_upper_case_witness :
  String.length (hexToBin "0x2A") = 8.
Proof.
  apply (proj1 (hexToBin_upper_case "2A" eq_refl)).
Defined.

Lemma list_ascii_of_string_inj (s1 s2 : string) :
  list_ascii_of_string s1 = list_ascii_of_string s2 -> s1 = s2.
Proof.
  intros H. rewrite <- (string_of_list_ascii_of_string s1),
              <- (string_of_list_ascii_of_string s2), H.
  reflexivity.
Qed.

Lemma reverse_append (s1 s2 : string) :
  reverse (String.append s1 s2) = String.append (reverse s2) (reverse s1).
Proof.
  apply list_ascii_of_string_inj.
  rewrite list_ascii_of_string_app, !list_ascii_of_reverse,
    list_ascii_of_string_app.
  apply rev_app_distr.
Qed.

Lemma reverse_length (s : string) :
  String.length (reverse s) = String.length s.
Proof.
  rewrite <- (string_of_list_ascii_of_string s) at 2.
  unfold reverse.
  generalize (list_ascii_of_string s). intros l.
  assert (Hlen : forall l', String.length (string_of_list_ascii l')
                            = List.length l').
  { induction l' as [| c l' IH]; [reflexivity|]. cbn. rewrite IH.
    reflexivity. }
  rewrite !Hlen. apply length_rev.
Qed.

Lemma namesOfBits_app (bits1 bits2 : string) :
  forall fields,
    List.length fields <= String.length bits1 ->
    namesOfBits (String.append bits1 bits2) fields
    = namesOfBits bits1 fields.
Proof.
  induction bits1 as [| c bits1 IH]; intros fields Hlen.
  - destruct fields; [|cbn in Hlen; lia].
    cbn [String.append]. apply namesOfBits_nil.
  - destruct fields as [| f fields]; [reflexivity|].
    cbn [String.append namesOfBits]. rewrite IH; [reflexivity|].
    cbn in Hlen. lia.
Qed.

(** X10: the digits of a bitmap beyond the bits of the field list do
    not matter: when the upper-case digits [low] have a bit for every
    field, whatever is written before them leaves the result
    unchanged. *)
Theorem getFieldNamesFromBitmap_ignores_high_digits
    (fields : list Field) (high low : string) :
  allChars isUpperHex low = true ->
  List.length fields <= 4 * String.length low ->
  getFieldNamesFromBitmap fields
    (String "0" (String "x" (String.append high low)))
  = getFieldNamesFromBitmap fields (String "0" (String "x" low)).
Proof.
  intros Hupper Hcover.
  rewrite !getFieldNamesFromBitmap_namesOfBits. cbn [substringFrom].
  rewrite expandDigits_app, reverse_append.
  apply namesOfBits_app.
  rewrite reverse_length.
  rewrite (proj1 (expandDigits_upper low Hupper)). exact Hcover.
Qed.

Lemma getFieldNamesFromBitmap_ignores_high_digits_witness :
  getFieldNamesFromBitmap Sample.accountFields "0xzz-F02A"
  = getFieldNamesFromBitmap Sample.accountFields "0x2A".
Proof.
  apply (getFieldNamesFromBitmap_ignores_high_digits
           Sample.accountFields "zz-F0" "2A" eq_refl).
  cbn. lia.
Defined.

Lemma forEach_throws {A S : Type} (callback : S -> A -> option S)
    (a : A) (l : list A) :
  In a l -> (forall s, callback s a = None) ->
  forall s, forEach callback l s = None.
Proof.
  intros Hin Hfail. induction l as [| b l IH]; [contradiction|].
  intros s. cbn [forEach].
  destruct Hin as [-> | Hin].
  - rewrite Hfail. reflexivity.
  - destruct (callback s b) as [s'|]; cbn [bind]; [|reflexivity].
    apply IH. exact Hin.
Qed.

(** X11: in a sequence of parent-child pairs (two entries or more, the
    last holding a "-"), one pair whose parent cannot be resolved makes
    [parseFieldBitmaps] throw: an index that is no number, that lies
    outside the field list, or that names a field whose type is not a
    union. *)
Theorem parseFieldBitmaps_throws_on_unresolved_parent
    (allFields : list Field) (bitmaps : list string)
    (entry parentIndex childBitmap : string) (segments : list string) :
  1 < List.length bitmaps ->
  indexOf (last bitmaps "") "-" <> (-1)%Z ->
  In entry bitmaps ->
  split "-" entry = parentIndex :: childBitmap :: segments ->
  (parseInt parentIndex = None
   \/ (exists index, parseInt parentIndex = Some index
                     /\ (index < 0
                         \/ Z.of_nat (List.length allFields) <= index)%Z)
   \/ (exists index parent,
         parseInt parentIndex = Some index /\ (0 <= index)%Z
         /\ nth_error allFields (Z.to_nat index) = Some parent
         /\ getTypes (fieldType parent) = None)) ->
  parseFieldBitmaps allFields bitmaps = None.
Proof.
  intros Hlen Hlast Hin Hsplit Hparent.
  unfold parseFieldBitmaps.
  destruct bitmaps as [| first rest]; [contradiction|].
  apply Nat.ltb_lt in Hlen. rewrite Hlen.
  apply Z.eqb_neq in Hlast. rewrite Hlast. cbn [negb andb].
  apply (forEach_throws _ entry); [exact Hin|].
  intros names. unfold addChildFieldNames. rewrite Hsplit.
  assert (Hchild : getChildFields (arrayGet allFields (parseInt parentIndex))
                   = None).
  { destruct Hparent as [Hnan | [(index & Hint & Hout)
                                | (index & parent & Hint & Hpos & Hnth & Hty)]].
    - rewrite Hnan. reflexivity.
    - rewrite Hint. unfold arrayGet.
      destruct (Z.leb_spec 0 index); [|reflexivity].
      replace (nth_error allFields (Z.to_nat index)) with (@None Field);
        [reflexivity|].
      symmetry. apply nth_error_None. lia.
    - rewrite Hint. unfold arrayGet.
      apply Z.leb_le in Hpos. rewrite Hpos, Hnth.
      unfold getChildFields. cbn [bind]. rewrite Hty. reflexivity. }
  rewrite Hchild. reflexivity.
Qed.

Lemma parseFieldBitmaps_throws_on_unresolved_parent_witness :
  parseFieldBitmaps Sample.accountFields ["0x01"; "9-0x01"] = None.
Proof.
  apply (parseFieldBitmaps_throws_on_unresolved_parent
           Sample.accountFields ["0x01"; "9-0x01"] "9-0x01" "9" "0x01" []).
  - cbn. lia.
  - vm_compute. discriminate.
  - right. left. reflexivity.
  - reflexivity.
  - right. left. exists 9%Z. split; [reflexivity|]. right. cbn. lia.
Defined.

End BitmapBounds.

(** ** Flattening loses no value *)

Module FlattenLeaves.

Import Value EventParser Leaves FlattenFacts.

Lemma leaves_flattenEntry (n : nat) :
  (forall v, size v <= n ->
             leaves (flattenSinglePropertyObjects v) = leaves v) ->
  forall entry,
    size (snd entry) <= S n ->
    leaves (snd (flattenEntry entry)) = leaves (snd entry).
Proof.
  intros IH [key value] Hsize. unfold flattenEntry.
  destruct (negb (key =? "ChangeEventHeader") && truthy value
            && (typeof value =? "object")); [|reflexivity].
  destruct value as [p | [| [k sub] [| e props]]]; try reflexivity.
  cbn [snd leaves flat_map] in *. rewrite app_nil_r.
  destruct (truthy sub && (typeof sub =? "object")); [|reflexivity].
  cbn [snd]. apply IH. cbn [size fold_right snd] in Hsize. lia.
Qed.

Lemma leaves_flatten_bounded (n : nat) :
  forall v, size v <= n ->
            leaves (flattenSinglePropertyObjects v) = leaves v.
Proof.
  induction n as [| n IH]; intros v Hsize.
  - destruct v; cbn in Hsize; lia.
  - destruct v as [p | props]; [reflexivity|].
    rewrite flatten_unfold. cbn [leaves]. cbn [size] in Hsize.
    apply le_S_n in Hsize. revert Hsize.
    induction props as [| entry props IHprops]; intros Hsize;
      [reflexivity|].
    cbn [map flat_map fold_right] in *.
    rewrite IHprops by lia.
    rewrite (leaves_flattenEntry n IH entry) by lia. reflexivity.
Qed.

(** X12: flattening drops wrapper keys only: the primitive values of
    the flattened record are those of the record, in the same order. *)
Theorem flatten_keeps_primitive_values (theObject : JSValue) :
  leaves (flattenSinglePropertyObjects theObject) = leaves theObject.
Proof. apply (leaves_flatten_bounded (size theObject)). apply Nat.le_refl. Qed.

End FlattenLeaves.

(** ** [parseEvent]: what makes an event fail *)

Module ParseEventFacts.

Import JS Buffer ReplayId Avro Value EventParser ParseEvent.

Lemma parseHeader_firstUnresolved (allFields : list Field)
    (h : ChangeEventHeader) :
  match firstUnresolved allFields h with
  | Some list_name =>
      parseHeader allFields h = inl (FailedToParse list_name)
  | None => exists h', parseHeader allFields h = inr h'
  end.
Proof.
  unfold firstUnresolved, parseHeader, tryParse.
  destruct (parseFieldBitmaps allFields (nulledFields h)); [|reflexivity].
  destruct (parseFieldBitmaps allFields (diffFields h)); [|reflexivity].
  destruct (parseFieldBitmaps allFields (changedFields h)); [|reflexivity].
  eexists. reflexivity.
Qed.

(** On a record schema: the three failures of [parseEvent], in the
    order in which the source reaches them. *)
Lemma parseEvent_record_failures (fromBuffer : Buffer -> option Payload)
    (allFields : list Field) (encodedReplayId encodedPayload : Buffer)
    (failure : ParseFailure) :
  parseEvent fromBuffer (RecordType allFields) encodedReplayId
    encodedPayload
  = inl failure
  <-> (failure = ReplayIdUnreadable /\ List.length encodedReplayId < 8)
      \/ (failure = PayloadUndecodable
          /\ 8 <= List.length encodedReplayId
          /\ fromBuffer encodedPayload = None)
      \/ (exists decoded h list_name,
            failure = FailedToParse list_name
            /\ 8 <= List.length encodedReplayId
            /\ fromBuffer encodedPayload = Some decoded
            /\ header decoded = Some h
            /\ firstUnresolved allFields h = Some list_name).
Proof.
  unfold parseEvent. cbn [getFields].
  pose proof (ReplayIdBounds.decodeReplayId_throws_iff encodedReplayId)
    as Hshort.
  destruct (decodeReplayId encodedReplayId) as [replayId|] eqn:Hid.
  - assert (Hlen : 8 <= List.length encodedReplayId).
    { destruct (Nat.le_gt_cases 8 (List.length encodedReplayId)) as [H | H];
        [exact H|].
      apply Hshort in H. discriminate H. }
    destruct (fromBuffer encodedPayload) as [decoded|] eqn:Hpayload.
    + destruct (header decoded) as [h|] eqn:Hheader.
      * pose proof (parseHeader_firstUnresolved allFields h)
          as Hfirst.
        destruct (firstUnresolved allFields h)
          as [list_name|] eqn:Hun.
        -- rewrite Hfirst. split.
           ++ intros [= <-]. right. right.
              exists decoded, h, list_name. repeat split; assumption.
           ++ intros [[_ H] | [[_ [_ H]]
                              | (d & h' & name & -> & _ & Hd & Hh & Hn)]];
                [lia | discriminate H |].
              injection Hd as <-. rewrite Hheader in Hh.
              injection Hh as <-. rewrite Hun in Hn.
              injection Hn as <-. reflexivity.
        -- destruct Hfirst as [h' Hfirst]. rewrite Hfirst. split.
           ++ discriminate.
           ++ intros [[_ H] | [[_ [_ H]]
                              | (d & h'' & name & _ & _ & Hd & Hh & Hn)]];
                [lia | discriminate H |].
              injection Hd as <-. rewrite Hheader in Hh.
              injection Hh as <-. rewrite Hun in Hn. discriminate Hn.
      * split; [discriminate|].
        intros [[_ H] | [[_ [_ H]]
                        | (d & h' & name & _ & _ & Hd & Hh & _)]];
          [lia | discriminate H |].
        injection Hd as <-. rewrite Hheader in Hh. discriminate Hh.
    + split.
      * intros [= <-]. right. left. repeat split. exact Hlen.
      * intros [[_ H] | [[-> _] | (d & h' & name & _ & _ & Hd & _)]];
          [lia | reflexivity | discriminate Hd].
  - assert (Hlen : List.length encodedReplayId < 8).
    { apply Hshort. reflexivity. }
    split.
    + intros [= <-]. left. split; [reflexivity | exact Hlen].
    + intros [[-> _] | [[_ [H _]] | (d & h' & name & _ & H & _)]];
        [reflexivity | lia | lia].
Qed.


(** X13: [parseEvent] throws the TypeError of [schema.type.getFields()]
    exactly when the schema is not a record, whatever the event; on a
    record schema it throws the error of [decodeReplayId] exactly when
    the replay identifier has fewer than eight bytes; otherwise the
    error of the Avro decoder when that throws; otherwise, for a payload
    with a change event header, "Failed to parse" with the first of
    nulledFields, diffFields and changedFields whose bitmaps do not
    resolve; and it throws in no other case. *)
Theorem parseEvent_failures (fromBuffer : Buffer -> option Payload)
    (schemaType : AvroType) (encodedReplayId encodedPayload : Buffer)
    (failure : ParseFailure) :
  parseEvent fromBuffer schemaType encodedReplayId encodedPayload
  = inl failure
  <-> (failure = SchemaNotRecord /\ instanceofRecordType schemaType = false)
      \/ (exists allFields,
            getFields schemaType = Some allFields
            /\ ((failure = ReplayIdUnreadable
                 /\ List.length encodedReplayId < 8)
                \/ (failure = PayloadUndecodable
                    /\ 8 <= List.length encodedReplayId
                    /\ fromBuffer encodedPayload = None)
                \/ (exists decoded h list_name,
                      failure = FailedToParse list_name
                      /\ 8 <= List.length encodedReplayId
                      /\ fromBuffer encodedPayload = Some decoded
                      /\ header decoded = Some h
                      /\ firstUnresolved allFields h = Some list_name))).
Proof.
  destruct schemaType as [name | fields | types].
  - split.
    + intros [= <-]. left. split; reflexivity.
    + intros [[-> _] | (allFields & Hfields & _)];
        [reflexivity | discriminate Hfields].
  - rewrite parseEvent_record_failures. split.
    + intros H. right. exists fields. split; [reflexivity | exact H].
    + intros [[_ H] | (allFields & [= <-] & H)];
        [discriminate H | exact H].
  - split.
    + intros [= <-]. left. split; reflexivity.
    + intros [[-> _] | (allFields & Hfields & _)];
        [reflexivity | discriminate Hfields].
Qed.

End ParseEventFacts.

(** ** The stream of a subscription: invariants of the emitter *)

Module StreamFacts.

Import JS Buffer ReplayId Value Subscription Stream SubscriptionFacts.
Local Open Scope Z_scope.

Lemma extends_refl (em : PubSubEventEmitter) : extends em em.
Proof.
  exists []. rewrite app_nil_r. cbn. repeat split. lia.
Qed.

Lemma extends_trans (em1 em2 em3 : PubSubEventEmitter) :
  extends em1 em2 -> extends em2 em3 -> extends em1 em3.
Proof.
  intros (a1 & Hl1 & Hr1 & Ht1 & Hq1) (a2 & Hl2 & Hr2 & Ht2 & Hq2).
  exists (a1 ++ a2). rewrite Hl2, Hl1, Hr2, Hr1, Ht2, Ht1, Hq2, Hq1.
  rewrite countEmitted_app, app_assoc. repeat split. lia.
Qed.

Lemma extends_emit (eventName : string) (args : Args)
    (em : PubSubEventEmitter) :
  extends em (emit eventName args em).
Proof.
  exists [(eventName, args)]. unfold emit, countEmitted.
  cbn [emitted receivedEventCount topicName requestedEventCount filter fst].
  destruct (eventName =? "data")%string; cbn; repeat split; lia.
Qed.

Section WithDecoder.

Variable decodeEvent : RawEvent -> option (string + ParsedEvent).

Lemma extends_onEvent (latest : JSInt) (em : PubSubEventEmitter)
    (ev : RawEvent) :
  extends em (onEvent decodeEvent latest em ev).
Proof.
  unfold onEvent.
  destruct (decodeEvent ev) as [outcome|]; [|apply extends_refl].
  set (em1 := match outcome with
              | inl _ => _
              | inr _ => _
              end).
  assert (H1 : extends em em1).
  { subst em1. destruct outcome; apply extends_emit. }
  destruct (getReceivedEventCount em1 =? getRequestedEventCount em1);
    [|exact H1].
  eapply extends_trans; [exact H1 | apply extends_emit].
Qed.

Lemma extends_processEvents (latest : JSInt) (evs : list RawEvent) :
  forall em, extends em (processEvents decodeEvent latest evs em).
Proof.
  unfold processEvents.
  induction evs as [| ev evs IH]; intros em; cbn [fold_left].
  - apply extends_refl.
  - eapply extends_trans; [apply extends_onEvent | apply IH].
Qed.

Lemma extends_handle (em em' : PubSubEventEmitter) (ev : StreamEvent) :
  handle decodeEvent em ev = Some em' -> extends em em'.
Proof.
  destruct ev as [data | | error | status]; cbn [handle].
  - unfold onData.
    destruct (decodeReplayId (latestReplayId data)) as [latest|];
      cbn [bind]; [|discriminate].
    destruct (events data) as [evs|]; intros [= <-].
    + apply extends_processEvents.
    + apply extends_emit.
  - intros [= <-]. apply extends_emit.
  - intros [= <-]. apply extends_emit.
  - intros [= <-]. apply extends_emit.
Qed.

End WithDecoder.

(** X14: whatever the stream delivers (messages with events, keepalives,
    end, errors, statuses, in any order), the listeners only append to
    the notifications already emitted, the received-event count grows
    by the number of "data" notifications appended and by nothing else,
    and the topic name and the requested count stay as they were. *)
Theorem stream_only_appends_and_counts_data
    (decodeEvent : RawEvent -> option (string + ParsedEvent))
    (evs : list StreamEvent) (em em' : PubSubEventEmitter) :
  run decodeEvent evs em = Some em' ->
  exists added,
    emitted em' = emitted em ++ added
    /\ receivedEventCount em'
       = receivedEventCount em + Z.of_nat (countEmitted "data" added)
    /\ topicName em' = topicName em
    /\ requestedEventCount em' = requestedEventCount em.
Proof.
  revert em. induction evs as [| ev evs IH]; intros em; cbn [run].
  - intros [= <-]. apply extends_refl.
  - destruct (handle decodeEvent em ev) as [em1|] eqn:Hstep; cbn [bind];
      [|discriminate].
    intros Hrun. eapply extends_trans.
    + eapply extends_handle. exact Hstep.
    + apply IH. exact Hrun.
Qed.

Lemma stream_only_appends_and_counts_data_witness :
  let em := mkPubSubEventEmitter "/event/Order__e" 10 0
              [("status", StatusArgs "open")] in
  exists em',
    run Sample.decodeEvent
      [StreamData Sample.keepalive; StreamData Sample.batch;
       StreamError "UNAVAILABLE"; StreamEnd] em = Some em'
    /\ exists added,
         emitted em' = emitted em ++ added
         /\ receivedEventCount em'
            = receivedEventCount em + Z.of_nat (countEmitted "data" added)
         /\ topicName em' = topicName em
         /\ requestedEventCount em' = requestedEventCount em.
Proof.
  intros em. eexists. split; [reflexivity|].
  apply (stream_only_appends_and_counts_data Sample.decodeEvent
           [StreamData Sample.keepalive; StreamData Sample.batch;
            StreamError "UNAVAILABLE"; StreamEnd] em).
  reflexivity.
Defined.

(** X27: the data listener throws exactly on a message whose latest
    replay identifier has fewer than eight bytes, keepalive or not, and
    whatever its events are: it throws before any event of the message
    is looked at, and it throws on nothing else. *)
Theorem onData_throws_iff
    (decodeEvent : RawEvent -> option (string + ParsedEvent))
    (data : FetchResponse) (em : PubSubEventEmitter) :
  onData decodeEvent data em = None
  <-> (List.length (latestReplayId data) < 8)%nat.
Proof.
  rewrite <- ReplayIdBounds.decodeReplayId_throws_iff. unfold onData.
  destruct (decodeReplayId (latestReplayId data)); cbn [bind].
  - destruct (events data); split; discriminate.
  - split; reflexivity.
Qed.

Section AllDecode.

Variable decodeEvent : RawEvent -> option (string + ParsedEvent).

Lemma countDecoded_allDecode (evs : list RawEvent) :
  allDecode decodeEvent evs ->
  countDecoded decodeEvent evs = List.length evs.
Proof.
  induction 1 as [| ev evs Hev _ IH]; [reflexivity|].
  rewrite countDecoded_cons, Hev, IH. reflexivity.
Qed.

(** Once the count has reached the requested one, events that decode
    bring no "lastevent". *)
Lemma no_lastevent_past_requested (latest : JSInt) (evs : list RawEvent) :
  allDecode decodeEvent evs ->
  forall em,
    requestedEventCount em <= receivedEventCount em ->
    countEmitted "lastevent"
      (emitted (processEvents decodeEvent latest evs em))
    = countEmitted "lastevent" (emitted em).
Proof.
  induction 1 as [| ev evs Hev _ IH]; intros em Hpast; [reflexivity|].
  unfold processEvents. cbn [fold_left].
  fold (processEvents decodeEvent latest evs
          (onEvent decodeEvent latest em ev)).
  destruct (onEvent_spec decodeEvent latest em ev) as (_ & Hq & Hr & Hl).
  rewrite Hev in Hr, Hl.
  rewrite IH by (rewrite Hq, Hr; lia).
  rewrite Hl, !countEmitted_app.
  replace (receivedEventCount em + 1 =? requestedEventCount em) with false
    by (symmetry; apply Z.eqb_neq; lia).
  rewrite andb_false_r, eventNotification_names, Hev.
  assert (Hfails : fails decodeEvent ev = false).
  { unfold fails. unfold decodes in Hev.
    destruct (decodeEvent ev) as [[|]|]; try discriminate Hev.
    reflexivity. }
  rewrite Hfails. cbn. lia.
Qed.

End AllDecode.

(** X15: on a subscription for [r] >= 1 events, when every event
    delivered decodes, "lastevent" is emitted exactly once if at least
    [r] events are delivered and not at all otherwise; events delivered
    beyond the requested count are notified and counted like the
    others. *)
Theorem lastevent_once_when_all_decode
    (decodeEvent : RawEvent -> option (string + ParsedEvent)) (latest : JSInt)
    (topic : string) (r : Z) (evs : list RawEvent) :
  0 < r ->
  allDecode decodeEvent evs ->
  let em' := processEvents decodeEvent latest evs
               (newPubSubEventEmitter topic r) in
  countEmitted "lastevent" (emitted em')
  = (if r <=? Z.of_nat (List.length evs) then 1%nat else 0%nat)
  /\ countEmitted "data" (emitted em') = List.length evs
  /\ receivedEventCount em' = Z.of_nat (List.length evs).
Proof.
  intros Hr Hall em'. subst em'.
  set (fresh := newPubSubEventEmitter topic r).
  destruct (processEvents_counts decodeEvent latest evs fresh)
    as (_ & Hrec & Hdata & _ & Hnone).
  rewrite (countDecoded_allDecode decodeEvent evs Hall) in *.
  cbn [fresh newPubSubEventEmitter receivedEventCount requestedEventCount
       emitted] in Hrec, Hdata, Hnone.
  split; [|split; [exact Hdata | rewrite Hrec; lia]].
  destruct (Z.leb_spec r (Z.of_nat (List.length evs))) as [Hle | Hlt];
    [|apply Hnone; lia].
  set (k := Z.to_nat (r - 1)).
  assert (Hk : (k < List.length evs)%nat) by (subst k; lia).
  rewrite <- (firstn_skipn k evs) in Hall |- *.
  apply Forall_app in Hall. destruct Hall as [Hfirst Hrest].
  destruct (skipn k evs) as [| ev rest] eqn:Hskip.
  { apply (f_equal (@List.length RawEvent)) in Hskip.
    rewrite length_skipn in Hskip. cbn in Hskip. lia. }
  inversion Hrest as [| ? ? Hev Hrest']; subst.
  change (ev :: rest) with ([ev] ++ rest).
  rewrite !processEvents_app.
  set (emb := processEvents decodeEvent latest (firstn k evs) fresh).
  destruct (processEvents_counts decodeEvent latest (firstn k evs) fresh)
    as (Hq & Hrb & _ & _ & Hnb).
  rewrite (countDecoded_allDecode decodeEvent _ Hfirst) in *.
  rewrite length_firstn in *.
  replace (Nat.min k (List.length evs)) with k in * by lia.
  fold emb in Hq, Hrb, Hnb.
  cbn [fresh newPubSubEventEmitter receivedEventCount requestedEventCount
       emitted] in Hq, Hrb, Hnb.
  unfold processEvents at 2. cbn [fold_left].
  destruct (onEvent_spec decodeEvent latest emb ev) as (_ & Hq1 & Hr1 & Hl1).
  rewrite Hev, Hrb in Hr1. rewrite Hev, Hrb, Hq in Hl1.
  replace (0 + Z.of_nat k + 1) with r in Hr1, Hl1 by (subst k; lia).
  rewrite Z.eqb_refl in Hl1.
  assert (Hsettles : settles decodeEvent ev = true).
  { unfold settles. unfold decodes in Hev.
    destruct (decodeEvent ev); [reflexivity | discriminate Hev]. }
  rewrite Hsettles in Hl1. cbn [andb] in Hl1.
  rewrite (no_lastevent_past_requested decodeEvent latest rest Hrest')
    by (rewrite Hq1, Hr1, Hq; lia).
  rewrite Hl1, !countEmitted_app, Hnb by (subst k; lia).
  rewrite eventNotification_names, Hev.
  assert (Hfails : fails decodeEvent ev = false).
  { unfold fails. unfold decodes in Hev.
    destruct (decodeEvent ev) as [[|]|]; try discriminate Hev.
    reflexivity. }
  rewrite Hfails. reflexivity.
Qed.

Lemma lastevent_once_when_all_decode_witness :
  countEmitted "lastevent"
    (emitted
       (processEvents Sample.decodeEvent (JNumber 2)
          [Sample.goodEvent; Sample.goodEvent; Sample.goodEvent]
          (newPubSubEventEmitter "/event/Order__e" 2)))
  = 1%nat.
Proof.
  apply (lastevent_once_when_all_decode Sample.decodeEvent (JNumber 2)
           "/event/Order__e" 2
           [Sample.goodEvent; Sample.goodEvent; Sample.goodEvent]).
  - lia.
  - repeat constructor.
Defined.

(** X16: [subscribeFromReplayId] throws the RangeError of
    [encodeReplayId] for a replay identifier outside [0, 2^64), even
    when the client is not connected; within the range it throws
    "Failed to subscribe" when the client is not connected, and
    otherwise writes a request with preset 2 and an eight-byte cursor
    that decodes to the double nearest to the identifier, and returns
    an emitter that has received nothing. *)
Theorem subscribeFromReplayId_request (connected : bool) (topic : string)
    (requested : Z) (replayId : JSInt) :
  (valueOf replayId < 0 \/ 2 ^ 64 <= valueOf replayId ->
   subscribeFromReplayId connected topic requested replayId
   = inl ReplayIdOutOfRange)
  /\ (0 <= valueOf replayId < 2 ^ 64 ->
      if connected then
        exists encoded,
          subscribeFromReplayId connected topic requested replayId
          = inr (mkSubscribeRequest topic requested (Some 2) (Some encoded),
                 mkPubSubEventEmitter topic requested 0 [])
          /\ List.length encoded = 8%nat
          /\ decodeReplayId encoded
             = Some (JNumber (roundToDouble (valueOf replayId)))
      else
        subscribeFromReplayId connected topic requested replayId
        = inl (FailedToSubscribe topic)).
Proof.
  unfold subscribeFromReplayId. split.
  - intros Hout.
    apply ReplayIdBounds.encodeReplayId_throws_iff in Hout.
    rewrite Hout. reflexivity.
  - intros Hin.
    assert (Henc : encodeReplayId replayId
                   = Some (bigEndianBytes (valueOf replayId))).
    { unfold encodeReplayId.
      replace (BigInt replayId) with (valueOf replayId)
        by (destruct replayId; reflexivity).
      apply ReplayIdFacts.writeBigUInt64BE_bytes. exact Hin. }
    rewrite Henc. destruct connected; [|reflexivity].
    exists (bigEndianBytes (valueOf replayId)).
    split; [reflexivity|]. split; [reflexivity|].
    unfold decodeReplayId, readBigUInt64BE.
    change (8 <=? List.length (bigEndianBytes (valueOf replayId)))%nat
      with true.
    change (firstn 8 (bigEndianBytes (valueOf replayId)))
      with (bigEndianBytes (valueOf replayId)).
    rewrite ReplayIdFacts.beValue_bigEndianBytes by exact Hin.
    reflexivity.
Qed.

Lemma subscribeFromReplayId_request_witness :
  subscribeFromReplayId false "/event/Order__e" 10 (JNumber (-1))
  = inl ReplayIdOutOfRange.
Proof.
  apply (proj1 (subscribeFromReplayId_request false "/event/Order__e" 10
                  (JNumber (-1)))).
  left. cbn. lia.
Defined.

End StreamFacts.

(** ** Configuration and the choice of the authentication flow *)

Module ConfigurationFacts.

Import Configuration SalesforceAuth.

Lemma checkMandatoryVariables_ok (env : Env) (varNames : list string) :
  checkMandatoryVariables env varNames = inr tt
  <-> Forall (fun varName => missing env varName = false) varNames.
Proof.
  induction varNames as [| v varNames IH]; cbn [checkMandatoryVariables].
  - split; [constructor | reflexivity].
  - destruct (missing env v) eqn:Hv.
    + split; [discriminate|]. intros H. inversion H; congruence.
    + rewrite IH. split; [constructor; assumption|].
      intros H. inversion H; assumption.
Qed.

Lemma checkMandatoryVariables_error (env : Env) (varNames : list string)
    (error : ConfigurationError) :
  checkMandatoryVariables env varNames = inl error ->
  exists varName,
    error = MissingVariable varName
    /\ In varName varNames /\ missing env varName = true.
Proof.
  induction varNames as [| v varNames IH]; cbn [checkMandatoryVariables];
    [discriminate|].
  destruct (missing env v) eqn:Hv.
  - intros [= <-]. exists v. repeat split; [left; reflexivity | exact Hv].
  - intros H. destruct (IH H) as (w & -> & Hin & Hw).
    exists w. repeat split; [right; exact Hin | exact Hw].
Qed.

(** The mode of a configuration that [load] accepts. *)
Lemma load_success_modes (readFile : string -> option string) (env : Env) :
  load readFile env = inr tt ->
  isUsernamePasswordAuth env = true
  \/ isOAuthClientCredentialsAuth env = true
  \/ isOAuthJwtBearerAuth env = true
  \/ isUserSuppliedAuth env = true.
Proof.
  unfold load.
  destruct (checkMandatoryVariables env
              ["SALESFORCE_AUTH_TYPE"; "PUB_SUB_ENDPOINT"]);
    [discriminate|].
  destruct (isUsernamePasswordAuth env); [tauto|].
  destruct (isOAuthClientCredentialsAuth env); [tauto|].
  destruct (isOAuthJwtBearerAuth env); [tauto|].
  destruct (isUserSuppliedAuth env); [tauto | discriminate].
Qed.

(** X17: when [load] returns, the endpoint is set and the
    authentication type is one of the four modes, with every variable
    that the mode reads set and not empty, and, for the JWT bearer
    flow, a private key file that could be read. *)
Theorem load_success (readFile : string -> option string) (env : Env) :
  load readFile env = inr tt ->
  missing env "PUB_SUB_ENDPOINT" = false
  /\ ((isUsernamePasswordAuth env = true
       /\ Forall (fun v => missing env v = false)
            ["SALESFORCE_LOGIN_URL"; "SALESFORCE_USERNAME";
             "SALESFORCE_PASSWORD"])
      \/ (isOAuthClientCredentialsAuth env = true
          /\ Forall (fun v => missing env v = false)
               ["SALESFORCE_LOGIN_URL"; "SALESFORCE_CLIENT_ID";
                "SALESFORCE_CLIENT_SECRET"])
      \/ (isOAuthJwtBearerAuth env = true
          /\ Forall (fun v => missing env v = false)
               ["SALESFORCE_LOGIN_URL"; "SALESFORCE_CLIENT_ID";
                "SALESFORCE_USERNAME"; "SALESFORCE_PRIVATE_KEY_FILE"]
          /\ exists key, getSfPrivateKey readFile env = inr key)
      \/ isUserSuppliedAuth env = true).
Proof.
  unfold load.
  destruct (checkMandatoryVariables env
              ["SALESFORCE_AUTH_TYPE"; "PUB_SUB_ENDPOINT"])
    as [error | []] eqn:Hbase; [discriminate|].
  apply checkMandatoryVariables_ok in Hbase.
  inversion Hbase as [| ? ? _ Hrest]; subst.
  inversion Hrest as [| ? ? Hendpoint _]; subst.
  intros Hload. split; [exact Hendpoint|].
  destruct (isUsernamePasswordAuth env).
  { left. split; [reflexivity|].
    apply checkMandatoryVariables_ok. exact Hload. }
  destruct (isOAuthClientCredentialsAuth env).
  { right. left. split; [reflexivity|].
    apply checkMandatoryVariables_ok. exact Hload. }
  destruct (isOAuthJwtBearerAuth env).
  { right. right. left. split; [reflexivity|].
    destruct (checkMandatoryVariables env
                ["SALESFORCE_LOGIN_URL"; "SALESFORCE_CLIENT_ID";
                 "SALESFORCE_USERNAME"; "SALESFORCE_PRIVATE_KEY_FILE"])
      as [error | []] eqn:Hjwt; [discriminate|].
    split; [apply checkMandatoryVariables_ok; exact Hjwt|].
    destruct (getSfPrivateKey readFile env) as [error | key];
      [discriminate|].
    exists key. reflexivity. }
  right. right. right.
  destruct (isUserSuppliedAuth env); [reflexivity | discriminate].
Qed.

Lemma load_success_witness :
  isOAuthClientCredentialsAuth Fixtures.clientCredentialsEnv = true
  /\ missing Fixtures.clientCredentialsEnv "SALESFORCE_CLIENT_SECRET"
     = false.
Proof.
  destruct (load_success Fixtures.noFiles Fixtures.clientCredentialsEnv
              eq_refl)
    as (_ & [[H _] | [[Hmode Hvars] | [[H _] | H]]]);
    try discriminate H.
  split; [exact Hmode|].
  inversion Hvars as [| ? ? _ Hvars1]; subst.
  inversion Hvars1 as [| ? ? _ Hvars2]; subst.
  inversion Hvars2 as [| ? ? Hsecret _]; subst.
  exact Hsecret.
Defined.

(** X18: [load] reports a missing authentication type before anything
    else; it reports an invalid authentication type exactly when the
    type and the endpoint are set and the type is none of the four
    modes; and a variable it reports missing is indeed unset or
    empty. *)
Theorem load_errors (readFile : string -> option string) (env : Env) :
  (missing env "SALESFORCE_AUTH_TYPE" = true ->
   load readFile env = inl (MissingVariable "SALESFORCE_AUTH_TYPE"))
  /\ (forall value,
        load readFile env = inl (InvalidAuthType value)
        <-> missing env "SALESFORCE_AUTH_TYPE" = false
            /\ missing env "PUB_SUB_ENDPOINT" = false
            /\ value = getAuthType env
            /\ isUsernamePasswordAuth env = false
            /\ isOAuthClientCredentialsAuth env = false
            /\ isOAuthJwtBearerAuth env = false
            /\ isUserSuppliedAuth env = false)
  /\ (forall varName,
        load readFile env = inl (MissingVariable varName) ->
        missing env varName = true).
Proof.
  unfold load.
  change (checkMandatoryVariables env
            ["SALESFORCE_AUTH_TYPE"; "PUB_SUB_ENDPOINT"])
    with (if missing env "SALESFORCE_AUTH_TYPE"
          then inl (MissingVariable "SALESFORCE_AUTH_TYPE")
          else if missing env "PUB_SUB_ENDPOINT"
               then inl (MissingVariable "PUB_SUB_ENDPOINT")
               else @inr ConfigurationError unit tt).
  destruct (missing env "SALESFORCE_AUTH_TYPE") eqn:Htype.
  { split; [reflexivity|]. split.
    - intros value. split; [discriminate | intros [H _]; discriminate H].
    - intros varName [= <-]. exact Htype. }
  split; [discriminate|].
  destruct (missing env "PUB_SUB_ENDPOINT") eqn:Hendpoint.
  { split.
    - intros value. split; [discriminate | intros [_ [H _]]; discriminate H].
    - intros varName [= <-]. exact Hendpoint. }
  assert (Hmissing : forall varNames varName,
             checkMandatoryVariables env varNames
             = inl (MissingVariable varName) ->
             missing env varName = true).
  { intros varNames varName H.
    destruct (checkMandatoryVariables_error _ _ _ H) as (w & [= <-] & _ & Hw).
    exact Hw. }
  assert (Hcheck : forall varNames value,
             checkMandatoryVariables env varNames
             <> inl (InvalidAuthType value)).
  { intros varNames value H.
    destruct (checkMandatoryVariables_error _ _ _ H) as (w & Hw & _).
    discriminate Hw. }
  destruct (isUsernamePasswordAuth env).
  { split; [|apply Hmissing].
    intros value. split; [intros H; destruct (Hcheck _ _ H)|].
    intros (_ & _ & _ & H & _). discriminate H. }
  destruct (isOAuthClientCredentialsAuth env).
  { split; [|apply Hmissing].
    intros value. split; [intros H; destruct (Hcheck _ _ H)|].
    intros (_ & _ & _ & _ & H & _). discriminate H. }
  destruct (isOAuthJwtBearerAuth env).
  { destruct (checkMandatoryVariables env
                ["SALESFORCE_LOGIN_URL"; "SALESFORCE_CLIENT_ID";
                 "SALESFORCE_USERNAME"; "SALESFORCE_PRIVATE_KEY_FILE"])
      as [error | []] eqn:Hjwt.
    - split.
      + intros value. split; [intros [= ->]; destruct (Hcheck _ _ Hjwt)|].
        intros (_ & _ & _ & _ & _ & H & _). discriminate H.
      + intros varName [= ->]. apply (Hmissing _ _ Hjwt).
    - unfold getSfPrivateKey.
      destruct (env "SALESFORCE_PRIVATE_KEY_FILE") as [keyPath|];
        [destruct (readFile keyPath)|];
        (split; [|intros varName; discriminate]);
        intros value; (split; [discriminate|]);
        intros (_ & _ & _ & _ & _ & H & _); discriminate H. }
  destruct (isUserSuppliedAuth env); cbn [negb].
  - split; [|intros varName; discriminate].
    intros value. split; [discriminate|].
    intros (_ & _ & _ & _ & _ & _ & H). discriminate H.
  - split; [|intros varName; discriminate].
    intros value. split.
    + intros [= <-]. repeat split.
    + intros (_ & _ & -> & _). reflexivity.
Qed.

Lemma load_errors_witness :
  load Fixtures.noFiles Fixtures.unknownModeEnv
  = inl (InvalidAuthType (Some "password")).
Proof.
  apply (proj1 (proj2 (load_errors Fixtures.noFiles
                         Fixtures.unknownModeEnv))).
  repeat split.
Defined.

(** X19: once [load] has returned, [connect] never fails for an
    unsupported authentication mode: it refuses the user-supplied mode,
    and for every other configuration it starts the flow of the
    configured type. *)
Theorem connect_after_load (readFile : string -> option string)
    (env : Env) :
  load readFile env = inr tt ->
  connect env <> inl FailedToAuthenticate
  /\ (connect env = inl UserSuppliedModeSelected
      <-> isUserSuppliedAuth env = true)
  /\ (connect env = inr UsernamePasswordFlow
      <-> isUsernamePasswordAuth env = true)
  /\ (connect env = inr OAuthClientCredentialsFlow
      <-> isOAuthClientCredentialsAuth env = true)
  /\ (connect env = inr OAuthJwtBearerFlow
      <-> isOAuthJwtBearerAuth env = true).
Proof.
  intros Hload. apply load_success_modes in Hload.
  unfold connect, selectFlow.
  unfold isUsernamePasswordAuth, isOAuthClientCredentialsAuth,
    isOAuthJwtBearerAuth, isUserSuppliedAuth, isAuth in *.
  destruct (getAuthType env) as [value|];
    [|destruct Hload as [H | [H | [H | H]]]; discriminate H].
  destruct Hload as [H | [H | [H | H]]];
    apply String.eqb_eq in H; subst value; cbn;
    repeat split; intros; try discriminate; reflexivity.
Qed.

Lemma connect_after_load_witness :
  connect Fixtures.clientCredentialsEnv = inr OAuthClientCredentialsFlow.
Proof.
  apply (proj1 (proj2 (proj2 (proj2
           (connect_after_load Fixtures.noFiles
              Fixtures.clientCredentialsEnv eq_refl))))).
  reflexivity.
Defined.

End ConfigurationFacts.

(** ** What the authentication hands on *)

Module AuthSoundness.

Import Str Auth.

(** X20: [connectWithAuth] never passes on connection metadata that it
    has not checked: whenever it goes on, the instance URL starts with
    "https://", the organization id has 15 or 18 characters, the access
    token is the one supplied, and the organization id is the one
    supplied unless that was absent or empty. *)
Theorem connectWithAuth_sound
    (accessToken instanceUrl organizationId : option string)
    (metadata : ConnectionMetadata) :
  connectWithAuth accessToken instanceUrl organizationId = inr metadata ->
  instanceUrl = Some (Auth.instanceUrl metadata)
  /\ startsWith (Auth.instanceUrl metadata) "https://" = true
  /\ (String.length (Auth.organizationId metadata) = 15
      \/ String.length (Auth.organizationId metadata) = 18)
  /\ Auth.accessToken metadata = accessToken
  /\ (falsy organizationId = false ->
      organizationId = Some (Auth.organizationId metadata))
  /\ (falsy organizationId = true ->
      deriveOrganizationId accessToken
      = Some (Auth.organizationId metadata)).
Proof.
  unfold connectWithAuth.
  destruct instanceUrl as [url|]; [|discriminate].
  destruct (falsy (Some url) || negb (startsWith url "https://")) eqn:Hurl;
    [discriminate|].
  apply orb_false_iff in Hurl. destruct Hurl as [_ Hurl].
  apply negb_false_iff in Hurl.
  destruct (if falsy organizationId then deriveOrganizationId accessToken
            else organizationId) as [id|] eqn:Hid; [|discriminate].
  destruct (Nat.eqb_spec (String.length id) 15) as [H15 | H15];
    destruct (Nat.eqb_spec (String.length id) 18) as [H18 | H18];
    cbn [negb andb]; try discriminate;
    intros [= <-]; cbn [Auth.instanceUrl Auth.organizationId Auth.accessToken];
    (repeat split; [exact Hurl | lia | |]);
    intros Hfalsy; rewrite Hfalsy in Hid; exact Hid.
Qed.

Lemma connectWithAuth_sound_witness :
  startsWith "https://acme.my.salesforce.com" "https://" = true
  /\ (String.length "00D5e000000abcd" = 15
      \/ String.length "00D5e000000abcd" = 18).
Proof.
  destruct (connectWithAuth_sound (Some "00D5e000000abcd!AQEAQ")
              (Some "https://acme.my.salesforce.com") None
              (mkConnectionMetadata (Some "00D5e000000abcd!AQEAQ")
                 "https://acme.my.salesforce.com" "00D5e000000abcd")
              eq_refl)
    as (_ & Hurl & Hid & _).
  split; [exact Hurl | exact Hid].
Defined.

End AuthSoundness.

(** ** The OAuth flows *)

Module OAuthFacts.

Import Configuration SalesforceAuth.
Local Open Scope Z_scope.

(** X21: whatever the identity endpoints answer, [#authWithOAuth]
    first sends the token request; it sends a second request only
    after a 200 answer with a JSON body to the first, and that second
    request is the user-info request bearing the access token of that
    answer; it sends no third request. *)
Theorem authWithOAuth_requests (fetch : Request -> option Response)
    (env : Env) (requestBody : string) :
  let requests := snd (authWithOAuth fetch env requestBody) in
  requests = [tokenRequest env requestBody]
  \/ exists loginResponse login,
       fetch (tokenRequest env requestBody) = Some loginResponse
       /\ status loginResponse = 200
       /\ json loginResponse = Some login
       /\ requests
          = [tokenRequest env requestBody;
             userInfoRequest env (property "access_token" login)]
       /\ authorization
            (userInfoRequest env (property "access_token" login))
          = Some (String.append "Bearer "
                    (toText (property "access_token" login))).
Proof.
  cbn zeta. unfold authWithOAuth.
  destruct (fetch (tokenRequest env requestBody)) as [loginResponse|];
    [|left; reflexivity].
  destruct (Z.eqb_spec (status loginResponse) 200) as [Hok | Hko];
    cbn [negb]; [|left; reflexivity].
  destruct (json loginResponse) as [login|] eqn:Hjson; [|left; reflexivity].
  right. exists loginResponse, login.
  split; [reflexivity|]. split; [exact Hok|]. split; [exact Hjson|].
  split; [|reflexivity].
  destruct (fetch (userInfoRequest env (property "access_token" login)))
    as [userInfoResponse|]; [|reflexivity].
  destruct (negb (status userInfoResponse =? 200)); [reflexivity|].
  destruct (json userInfoResponse); reflexivity.
Qed.

(** X22: [#authWithOAuth] returns connection metadata only when both
    endpoints have answered 200 with a JSON body; the access token and
    the instance URL are then those of the token answer, the
    organization id and the user name those of the user-info answer to
    the request bearing that token. *)
Theorem authWithOAuth_success (fetch : Request -> option Response)
    (env : Env) (requestBody : string) (metadata : ConnectionMetadata) :
  fst (authWithOAuth fetch env requestBody) = inr metadata ->
  exists loginResponse login userInfoResponse info,
    fetch (tokenRequest env requestBody) = Some loginResponse
    /\ status loginResponse = 200
    /\ json loginResponse = Some login
    /\ fetch (userInfoRequest env (accessToken metadata))
       = Some userInfoResponse
    /\ status userInfoResponse = 200
    /\ json userInfoResponse = Some info
    /\ accessToken metadata = property "access_token" login
    /\ instanceUrl metadata = property "instance_url" login
    /\ organizationId metadata = property "organization_id" info
    /\ username metadata = property "preferred_username" info.
Proof.
  unfold authWithOAuth.
  destruct (fetch (tokenRequest env requestBody)) as [loginResponse|]
    eqn:Hlogin; [|discriminate].
  destruct (Z.eqb_spec (status loginResponse) 200) as [Hok | Hko];
    cbn [negb]; [|discriminate].
  destruct (json loginResponse) as [login|] eqn:Hjson; [|discriminate].
  destruct (fetch (userInfoRequest env (property "access_token" login)))
    as [userInfoResponse|] eqn:Hinfo; [|discriminate].
  destruct (Z.eqb_spec (status userInfoResponse) 200) as [Hok2 | Hko2];
    cbn [negb]; [|discriminate].
  destruct (json userInfoResponse) as [info|] eqn:Hjson2; [|discriminate].
  cbn [fst]. intros [= <-].
  exists loginResponse, login, userInfoResponse, info.
  cbn [accessToken instanceUrl organizationId username].
  repeat split; assumption.
Qed.

Lemma authWithOAuth_success_witness :
  exists loginResponse login userInfoResponse info,
    Fixtures.acceptingFetch
      (tokenRequest Fixtures.clientCredentialsEnv "grant_type=x")
    = Some loginResponse
    /\ status loginResponse = 200
    /\ json loginResponse = Some login
    /\ Fixtures.acceptingFetch
         (userInfoRequest Fixtures.clientCredentialsEnv (Some "00D!tok"))
       = Some userInfoResponse
    /\ status userInfoResponse = 200
    /\ json userInfoResponse = Some info
    /\ Some "00D!tok" = property "access_token" login
    /\ Some "https://acme.my.salesforce.com"
       = property "instance_url" login
    /\ Some "00D5e000000abcdEAA" = property "organization_id" info
    /\ Some "ada@acme.com" = property "preferred_username" info.
Proof.
  apply (authWithOAuth_success Fixtures.acceptingFetch
           Fixtures.clientCredentialsEnv "grant_type=x"
           (mkConnectionMetadata (Some "00D!tok")
              (Some "https://acme.my.salesforce.com")
              (Some "00D5e000000abcdEAA") (Some "ada@acme.com"))).
  reflexivity.
Defined.

(** X23: a token endpoint that does not answer 200 makes the flow fail
    with the status and the body of that answer, and the user-info
    endpoint is not called; a user-info endpoint that does not answer
    200 makes it fail with the status and the body of that answer. *)
Theorem authWithOAuth_http_errors (fetch : Request -> option Response)
    (env : Env) (requestBody : string) :
  (forall loginResponse,
     fetch (tokenRequest env requestBody) = Some loginResponse ->
     status loginResponse <> 200 ->
     authWithOAuth fetch env requestBody
     = (inl (AuthenticationHttpError (status loginResponse)
               (text loginResponse)),
        [tokenRequest env requestBody]))
  /\ (forall loginResponse login userInfoResponse,
        fetch (tokenRequest env requestBody) = Some loginResponse ->
        status loginResponse = 200 ->
        json loginResponse = Some login ->
        fetch (userInfoRequest env (property "access_token" login))
        = Some userInfoResponse ->
        status userInfoResponse <> 200 ->
        fst (authWithOAuth fetch env requestBody)
        = inl (UserInfoHttpError (status userInfoResponse)
                 (text userInfoResponse))).
Proof.
  unfold authWithOAuth. split.
  - intros loginResponse -> Hko. apply Z.eqb_neq in Hko. rewrite Hko.
    reflexivity.
  - intros loginResponse login userInfoResponse -> Hok -> -> Hko.
    rewrite Hok. cbn [Z.eqb Pos.eqb negb].
    apply Z.eqb_neq in Hko. rewrite Hko. reflexivity.
Qed.

Lemma authWithOAuth_http_errors_witness :
  authWithOAuth Fixtures.refusingFetch Fixtures.clientCredentialsEnv
    "grant_type=x"
  = (inl (AuthenticationHttpError 400 "invalid_client"),
     [tokenRequest Fixtures.clientCredentialsEnv "grant_type=x"])
  /\ fst (authWithOAuth Fixtures.halfwayFetch
            Fixtures.clientCredentialsEnv "grant_type=x")
     = inl (UserInfoHttpError 403 "Forbidden").
Proof.
  split.
  - apply (proj1 (authWithOAuth_http_errors Fixtures.refusingFetch
                    Fixtures.clientCredentialsEnv "grant_type=x")
             (mkResponse 400 "invalid_client" None)).
    + reflexivity.
    + cbn. lia.
  - apply (proj2 (authWithOAuth_http_errors Fixtures.halfwayFetch
                    Fixtures.clientCredentialsEnv "grant_type=x")
             (mkResponse 200 ""
                (Some [("access_token", "00D!tok");
                       ("instance_url", "https://acme.my.salesforce.com")]))
             [("access_token", "00D!tok");
              ("instance_url", "https://acme.my.salesforce.com")]
             (mkResponse 403 "Forbidden" None)).
    + reflexivity.
    + reflexivity.
    + reflexivity.
    + reflexivity.
    + cbn. lia.
Defined.

End OAuthFacts.

(** ** The schema cache *)

Module SchemaCacheFacts.

Import Avro SchemaCache.

Lemma get_set_same (key : string) (schema : Schema) (map : SchemaMap) :
  get key (set key schema map) = Some schema.
Proof.
  induction map as [| [k old] map IH]; cbn [set get].
  - rewrite String.eqb_refl. reflexivity.
  - destruct (k =? key)%string eqn:Hk; cbn [get]; rewrite Hk;
      [reflexivity | exact IH].
Qed.

Lemma get_set_other (key other : string) (schema : Schema)
    (map : SchemaMap) :
  other <> key -> get other (set key schema map) = get other map.
Proof.
  intros Hneq. induction map as [| [k old] map IH]; cbn [set get].
  - apply String.eqb_neq in Hneq. rewrite String.eqb_sym, Hneq.
    reflexivity.
  - destruct (k =? key)%string eqn:Hk; cbn [get].
    + apply String.eqb_eq in Hk. subst k.
      apply String.eqb_neq in Hneq. rewrite String.eqb_sym, Hneq.
      reflexivity.
    + rewrite IH. reflexivity.
Qed.

Section WithTransport.

Variable parse : string -> option AvroType.
Variable transport : Transport.

(** What a lookup by schema id does, by the state of the cache. *)
Lemma getEventSchemaById_cases (schemaId : string) (state : ClientState) :
  let called :=
    mkClientState (schemaCache state)
      (calls state ++ [GetSchema schemaId]) in
  getEventSchemaById parse transport schemaId state
  = match get schemaId (schemaCache state) with
    | Some schema => (Some (inr schema), state)
    | None =>
        match getSchema transport schemaId with
        | inl cause =>
            (Some (inl (FailedToLoadSchemaForId schemaId cause)), called)
        | inr schemaJson =>
            match parse schemaJson with
            | Some schemaType =>
                (Some (inr (mkSchema schemaId schemaType)),
                 mkClientState
                   (set schemaId (mkSchema schemaId schemaType)
                      (schemaCache state))
                   (calls called))
            | None => (None, called)
            end
        end
    end.
Proof.
  unfold getEventSchemaById, fetchEventSchemaWithClientById.
  destruct (get schemaId (schemaCache state)); [reflexivity|].
  destruct (getSchema transport schemaId) as [cause | schemaJson];
    [reflexivity|].
  destruct (parse schemaJson); reflexivity.
Qed.

(** What a lookup by topic name does, by the state of the cache. *)
Lemma getEventSchema_cases (topicName : string) (state : ClientState) :
  let called :=
    mkClientState (schemaCache state)
      (calls state ++ [GetTopic topicName]) in
  getEventSchema parse transport topicName state
  = match get topicName (schemaCache state) with
    | Some schema => (Some (inr schema), state)
    | None =>
        match getTopic transport topicName with
        | inl cause =>
            (Some (inl (FailedToLoadSchemaForTopic topicName cause)), called)
        | inr schemaId =>
            let called' :=
              mkClientState (schemaCache state)
                (calls called ++ [GetSchema schemaId]) in
            match getSchema transport schemaId with
            | inl cause =>
                (Some (inl (FailedToLoadSchemaForTopic topicName cause)),
                 called')
            | inr schemaJson =>
                match parse schemaJson with
                | Some schemaType =>
                    (Some (inr (mkSchema schemaId schemaType)),
                     mkClientState
                       (set topicName (mkSchema schemaId schemaType)
                          (schemaCache state))
                       (calls called'))
                | None => (None, called')
                end
            end
        end
    end.
Proof.
  unfold getEventSchema, fetchEventSchemaWithClient,
    fetchEventSchemaWithClientById.
  destruct (get topicName (schemaCache state)); [reflexivity|].
  destruct (getTopic transport topicName) as [cause | schemaId];
    [reflexivity|].
  cbn [schemaCache calls].
  destruct (getSchema transport schemaId) as [cause | schemaJson];
    [reflexivity|].
  destruct (parse schemaJson); reflexivity.
Qed.

(** A lookup that runs alone is the run of its events: the state they
    leave is the state the lookup leaves, and nothing stays in flight. *)
Lemma alone_is_a_run (lookup : Lookup) (st : ClientState) :
  let events :=
    match lookup with
    | ById schemaId => aloneById transport schemaId st
    | ByTopic topicName => aloneByTopic transport topicName st
    end in
  let st' :=
    match lookup with
    | ById schemaId => snd (getEventSchemaById parse transport schemaId st)
    | ByTopic topicName => snd (getEventSchema parse transport topicName st)
    end in
  steps parse events (mkClient st []) = Some (mkClient st' []).
Proof.
  destruct lookup as [schemaId | topicName]; cbn zeta.
  - rewrite getEventSchemaById_cases. unfold aloneById.
    destruct (get schemaId (schemaCache st)) as [schema|] eqn:Hget;
      cbn [steps step bind]; unfold called; cbn [state]; rewrite Hget;
      [reflexivity|].
    cbn [inFlight app resume state schemaCache calls].
    rewrite String.eqb_refl. cbn [sameRpc andb].
    rewrite String.eqb_refl. cbn [bind].
    destruct (getSchema transport schemaId) as [cause | schemaJson];
      [reflexivity|].
    destruct (parse schemaJson); reflexivity.
  - rewrite getEventSchema_cases. unfold aloneByTopic.
    destruct (get topicName (schemaCache st)) as [schema|] eqn:Hget;
      cbn [steps step bind]; unfold called; cbn [state]; rewrite Hget;
      [reflexivity|].
    cbn [inFlight app resume state schemaCache calls].
    rewrite String.eqb_refl. cbn [sameRpc andb].
    rewrite String.eqb_refl. cbn [bind].
    destruct (getTopic transport topicName) as [cause | schemaId];
      [reflexivity|].
    cbn [steps step bind inFlight app resume state schemaCache calls].
    rewrite !String.eqb_refl. cbn [sameRpc andb].
    rewrite String.eqb_refl. cbn [bind state schemaCache calls].
    destruct (getSchema transport schemaId) as [cause | schemaJson];
      [reflexivity|].
    destruct (parse schemaJson); reflexivity.
Qed.

(** One event changes the cache at the key it settles, if at all, and
    takes no entry away. *)
Lemma step_cache (event : Event) (client client' : Client) :
  step parse event client = Some client' ->
  (forall other,
     settledKey event <> Some other ->
     get other (schemaCache (state client'))
     = get other (schemaCache (state client)))
  /\ (forall key,
        get key (schemaCache (state client)) <> None ->
        get key (schemaCache (state client')) <> None).
Proof.
  destruct event as [lookup | topicName answer | key schemaId answer];
    cbn [step settledKey].
  - intros [= <-]. unfold called.
    destruct (get _ (schemaCache (state client))); split; intros; auto.
  - destruct (resume _ _ (inFlight client)); cbn [bind]; [|discriminate].
    destruct answer; intros [= <-]; split; intros; auto.
  - destruct (resume _ _ (inFlight client)); cbn [bind]; [|discriminate].
    destruct answer as [schemaError | schemaJson];
      [intros [= <-]; split; intros; auto|].
    destruct (parse schemaJson) as [schemaType|];
      intros [= <-]; [|split; intros; auto].
    cbn [state schemaCache]. split.
    + intros other Hother. apply get_set_other.
      intros ->. apply Hother. reflexivity.
    + intros k Hk. destruct (String.eqb_spec k key) as [-> | Hneq].
      * rewrite get_set_same. discriminate.
      * rewrite get_set_other by exact Hneq. exact Hk.
Qed.

End WithTransport.

(** X24: a lookup that has succeeded is served from the cache the next
    time: the same key then gives the same schema again, without any
    call on the transport and without any change of the cache, by topic
    name as by schema id. *)
Theorem second_lookup_hits_cache (parse : string -> option AvroType)
    (transport : Transport) (key : string)
    (state state' : ClientState) (schema : Schema) :
  (getEventSchema parse transport key state = (Some (inr schema), state') ->
   getEventSchema parse transport key state' = (Some (inr schema), state'))
  /\ (getEventSchemaById parse transport key state
      = (Some (inr schema), state') ->
      getEventSchemaById parse transport key state'
      = (Some (inr schema), state')).
Proof.
  split.
  - intros Hfirst.
    pose proof (getEventSchema_cases parse transport key state) as Hc.
    pose proof (getEventSchema_cases parse transport key state') as Hc'.
    cbn zeta in Hc, Hc'. rewrite Hc'. rewrite Hc in Hfirst.
    destruct (get key (schemaCache state)) as [cached|] eqn:Hget.
    + injection Hfirst as <- <-. rewrite Hget. reflexivity.
    + destruct (getTopic transport key) as [cause | schemaId];
        [discriminate Hfirst|].
      destruct (getSchema transport schemaId) as [cause | schemaJson];
        [discriminate Hfirst|].
      destruct (parse schemaJson) as [schemaType|]; [|discriminate Hfirst].
      injection Hfirst as <- <-. cbn [schemaCache].
      rewrite get_set_same. reflexivity.
  - intros Hfirst.
    pose proof (getEventSchemaById_cases parse transport key state) as Hc.
    pose proof (getEventSchemaById_cases parse transport key state') as Hc'.
    cbn zeta in Hc, Hc'. rewrite Hc'. rewrite Hc in Hfirst.
    destruct (get key (schemaCache state)) as [cached|] eqn:Hget.
    + injection Hfirst as <- <-. rewrite Hget. reflexivity.
    + destruct (getSchema transport key) as [cause | schemaJson];
        [discriminate Hfirst|].
      destruct (parse schemaJson) as [schemaType|]; [|discriminate Hfirst].
      injection Hfirst as <- <-. cbn [schemaCache].
      rewrite get_set_same. reflexivity.
Qed.

Lemma second_lookup_hits_cache_witness :
  let first := getEventSchema Fixtures.parse Fixtures.transport
                 "/event/Order__e" Fixtures.emptyState in
  getEventSchema Fixtures.parse Fixtures.transport "/event/Order__e"
    (snd first)
  = (Some (inr (mkSchema "schema-1" Fixtures.orderType)), snd first).
Proof.
  apply (proj1 (second_lookup_hits_cache Fixtures.parse Fixtures.transport
                  "/event/Order__e" Fixtures.emptyState _ _)).
  reflexivity.
Defined.



(** X26: while lookups overlap, in any order of their events, the
    cache entry of a key changes only when a lookup called for that key
    gets its schema, and a key that is cached stays cached; but the
    entry itself can be replaced: two lookups of an uncached key that
    are both called before either gets its answer make the call twice,
    and the schema of the later answer takes the place of the
    earlier. *)
Theorem overlapping_lookups (parse : string -> option AvroType) :
  (forall events client client',
     steps parse events client = Some client' ->
     (forall other,
        (forall event, In event events -> settledKey event <> Some other) ->
        get other (schemaCache (state client'))
        = get other (schemaCache (state client)))
     /\ (forall key,
           get key (schemaCache (state client)) <> None ->
           get key (schemaCache (state client')) <> None))
  /\ (forall schemaId first second firstType secondType,
        parse first = Some firstType ->
        parse second = Some secondType ->
        exists client',
          steps parse
            [Called (ById schemaId); Called (ById schemaId);
             SchemaAnswered schemaId schemaId (inr first);
             SchemaAnswered schemaId schemaId (inr second)]
            (mkClient (mkClientState [] []) [])
          = Some client'
          /\ calls (state client')
             = [GetSchema schemaId; GetSchema schemaId]
          /\ schemaCache (state client')
             = [(schemaId, mkSchema schemaId secondType)]
          /\ inFlight client' = []).
Proof.
  split.
  - induction events as [| event events IH]; intros client client';
      cbn [steps].
    + intros [= <-]. split; intros; auto.
    + destruct (step parse event client) as [client1|] eqn:Hstep;
        cbn [bind]; [|discriminate].
      intros Hrun. destruct (IH _ _ Hrun) as [Hframe Hkeep].
      destruct (step_cache parse event client client1 Hstep)
        as [Hframe1 Hkeep1].
      split.
      * intros other Hother. rewrite Hframe, Hframe1.
        -- reflexivity.
        -- apply Hother. left. reflexivity.
        -- intros e He. apply Hother. right. exact He.
      * intros key Hkey. apply Hkeep, Hkeep1, Hkey.
  - intros schemaId first second firstType secondType Hfirst Hsecond.
    eexists.
    cbn [steps step bind called state schemaCache calls inFlight get app
         resume sameRpc].
    rewrite !String.eqb_refl. cbn [andb bind state schemaCache calls get set
                                     inFlight resume sameRpc].
    rewrite Hfirst. cbn [bind state schemaCache calls get set inFlight
                          resume sameRpc].
    rewrite !String.eqb_refl, Hsecond. cbn [andb bind].
    repeat split.
Qed.

Lemma overlapping_lookups_witness :
  exists client',
    steps Fixtures.parse
      [Called (ById "schema-1"); Called (ById "schema-1");
       SchemaAnswered "schema-1" "schema-1" (inr Fixtures.orderJson);
       SchemaAnswered "schema-1" "schema-1" (inr Fixtures.orderJson)]
      (mkClient (mkClientState [] []) [])
    = Some client'
    /\ calls (state client') = [GetSchema "schema-1"; GetSchema "schema-1"].
Proof.
  destruct (proj2 (overlapping_lookups Fixtures.parse) "schema-1"
              Fixtures.orderJson Fixtures.orderJson Fixtures.orderType
              Fixtures.orderType eq_refl eq_refl)
    as (client' & Hrun & Hcalls & _).
  exists client'. split; [exact Hrun | exact Hcalls].
Defined.

(** X30: a lookup never settles exactly when the key is not cached and
    the server answers with a schema that [avro.parse] rejects: the
    calls have been made, nothing is cached, and the promise of the
    lookup is neither fulfilled nor rejected. *)
Theorem unparsable_schema_never_settles (parse : string -> option AvroType)
    (transport : Transport) (key : string) (state state' : ClientState) :
  (getEventSchemaById parse transport key state = (None, state')
   <-> get key (schemaCache state) = None
       /\ (exists schemaJson,
             getSchema transport key = inr schemaJson
             /\ parse schemaJson = None)
       /\ state' = mkClientState (schemaCache state)
                     (calls state ++ [GetSchema key]))
  /\ (getEventSchema parse transport key state = (None, state')
      <-> get key (schemaCache state) = None
          /\ exists schemaId schemaJson,
               getTopic transport key = inr schemaId
               /\ getSchema transport schemaId = inr schemaJson
               /\ parse schemaJson = None
               /\ state' = mkClientState (schemaCache state)
                             (calls state
                              ++ [GetTopic key; GetSchema schemaId])).
Proof.
  split.
  - rewrite getEventSchemaById_cases. cbn zeta.
    destruct (get key (schemaCache state)) as [cached|].
    { split; [discriminate | intros [H _]; discriminate H]. }
    destruct (getSchema transport key) as [cause | schemaJson].
    { split; [discriminate | intros (_ & (json & H & _) & _)];
        discriminate H. }
    destruct (parse schemaJson) as [schemaType|] eqn:Hparse.
    { split; [discriminate | intros (_ & (json & [= <-] & H) & _)].
      rewrite Hparse in H. discriminate H. }
    split.
    + intros [= <-]. split; [reflexivity|]. split; [|reflexivity].
      exists schemaJson. split; [reflexivity | exact Hparse].
    + intros (_ & _ & ->). reflexivity.
  - rewrite getEventSchema_cases. cbn zeta.
    destruct (get key (schemaCache state)) as [cached|].
    { split; [discriminate | intros [H _]; discriminate H]. }
    destruct (getTopic transport key) as [cause | schemaId].
    { split; [discriminate | intros (_ & sid & json & H & _)];
        discriminate H. }
    destruct (getSchema transport schemaId) as [cause | schemaJson]
      eqn:Hschema.
    { split; [discriminate | intros (_ & sid & json & [= <-] & H & _)].
      rewrite Hschema in H. discriminate H. }
    destruct (parse schemaJson) as [schemaType|] eqn:Hparse.
    { split; [discriminate | intros (_ & sid & json & [= <-] & H & H' & _)].
      rewrite Hschema in H. injection H as <-.
      rewrite Hparse in H'. discriminate H'. }
    cbn [calls]. rewrite <- app_assoc. cbn [app]. split.
    + intros [= <-]. split; [reflexivity|].
      exists schemaId, schemaJson.
      split; [reflexivity|]. split; [exact Hschema|].
      split; [exact Hparse | reflexivity].
    + intros (_ & sid & json & [= <-] & _ & _ & ->). reflexivity.
Qed.

Lemma unparsable_schema_never_settles_witness :
  getEventSchemaById Fixtures.parse Fixtures.transport "schema-0"
    Fixtures.emptyState
  = (None, mkClientState [] [GetSchema "schema-0"]).
Proof.
  apply (proj1 (unparsable_schema_never_settles Fixtures.parse
                  Fixtures.transport "schema-0" Fixtures.emptyState _)).
  split; [reflexivity|]. split; [|reflexivity].
  exists "{". split; reflexivity.
Defined.

End SchemaCacheFacts.

(** ** The per-event callback and the listeners *)

Module ListenerFacts.

Import JS Buffer ReplayId Value Subscription Stream SubscriptionFacts.
Local Open Scope Z_scope.

Section WithListeners.

Variable decodeEvent : RawEvent -> option (string + ParsedEvent).
Variable superEmit : string -> Args -> option string.

(** When every call of [super.emit] returns, the callback is [onEvent],
    and its promise is fulfilled unless the lookup never settles. *)
Lemma perEvent_onEvent (latest : JSInt) (em : PubSubEventEmitter)
    (ev : RawEvent) :
  (forall eventName args, superEmit eventName args = None) ->
  perEvent decodeEvent superEmit latest em ev
  = (onEvent decodeEvent latest em ev,
     if settles decodeEvent ev then Fulfilled else Suspended).
Proof.
  intros Hreturns.
  unfold perEvent, onEvent, settles, tryEmitData, catchAndEmitError.
  destruct (decodeEvent ev) as [[error | parsedEvent] |]; [| |reflexivity];
    rewrite ?Hreturns;
    match goal with
    | |- context [?a =? ?b] => destruct (a =? b)
    end; rewrite ?Hreturns; reflexivity.
Qed.

(** What the callback adds to the emitter, whatever the listeners do. *)
Lemma perEvent_log (latest : JSInt) (em : PubSubEventEmitter)
    (ev : RawEvent) :
  let em' := fst (perEvent decodeEvent superEmit latest em ev) in
  let counted := if decodes decodeEvent ev then 1 else 0 in
  topicName em' = topicName em
  /\ requestedEventCount em' = requestedEventCount em
  /\ receivedEventCount em' = receivedEventCount em + counted
  /\ exists added,
       emitted em' = emitted em ++ added
       /\ countEmitted "data" added = Z.to_nat counted
       /\ (countEmitted "error" added <= 2)%nat
       /\ (fails decodeEvent ev = true ->
           (1 <= countEmitted "error" added)%nat)
       /\ (countEmitted "lastevent" added <= 1)%nat.
Proof.
  unfold perEvent, decodes, fails, tryEmitData, catchAndEmitError,
    getReceivedEventCount, getRequestedEventCount.
  destruct (decodeEvent ev) as [[error | parsedEvent] |];
    repeat match goal with
           | |- context [superEmit ?n ?a] => destruct (superEmit n a)
           | |- context [?a =? ?b] => destruct (a =? b)
           end;
    cbn -[Z.add]; rewrite ?Z.add_0_r, <- ?app_assoc;
    (repeat split;
     [eexists; split;
      [try reflexivity; symmetry; apply app_nil_r
      | cbn; repeat split; try discriminate; lia]]).
Qed.

End WithListeners.

(** X28: whatever the listeners registered on the emitter do, return or
    throw, the per-event callback counts an event exactly when it
    decodes and emits its "data" exactly then, emits "error" at least
    once for an event that fails and never more than twice, emits
    "lastevent" at most once, and leaves the topic and the requested
    count alone; its promise stays pending exactly for an event whose
    lookup never settles; and when every call of [super.emit] returns,
    the callback is [onEvent]. *)
Theorem perEvent_whatever_the_listeners
    (decodeEvent : RawEvent -> option (string + ParsedEvent))
    (superEmit : string -> Args -> option string)
    (latest : JSInt) (em : PubSubEventEmitter) (ev : RawEvent) :
  let em' := fst (perEvent decodeEvent superEmit latest em ev) in
  let completion := snd (perEvent decodeEvent superEmit latest em ev) in
  let counted := if decodes decodeEvent ev then 1 else 0 in
  topicName em' = topicName em
  /\ requestedEventCount em' = requestedEventCount em
  /\ receivedEventCount em' = receivedEventCount em + counted
  /\ (exists added,
        emitted em' = emitted em ++ added
        /\ countEmitted "data" added = Z.to_nat counted
        /\ (countEmitted "error" added <= 2)%nat
        /\ (fails decodeEvent ev = true ->
            (1 <= countEmitted "error" added)%nat)
        /\ (countEmitted "lastevent" added <= 1)%nat)
  /\ (completion = Suspended <-> decodeEvent ev = None)
  /\ ((forall eventName args, superEmit eventName args = None) ->
      em' = onEvent decodeEvent latest em ev
      /\ forall reason, completion <> Rejected reason).
Proof.
  cbn zeta.
  destruct (perEvent_log decodeEvent superEmit latest em ev)
    as (Ht & Hq & Hr & Hlog).
  repeat (split; [assumption|]). split.
  - unfold perEvent, tryEmitData, catchAndEmitError.
    destruct (decodeEvent ev) as [[error | parsedEvent] |];
      repeat match goal with
             | |- context [superEmit ?n ?a] => destruct (superEmit n a)
             | |- context [?a =? ?b] => destruct (a =? b)
             end;
      cbn [snd]; split; try discriminate; reflexivity.
  - intros Hreturns. rewrite perEvent_onEvent by exact Hreturns.
    cbn [fst snd]. split; [reflexivity|].
    intros reason. destruct (settles decodeEvent ev); discriminate.
Qed.

Lemma perEvent_whatever_the_listeners_witness :
  fst (perEvent Sample.decodeEvent (fun _ _ => None) (JNumber 2)
         (newPubSubEventEmitter "/event/Order__e" 1) Sample.goodEvent)
  = onEvent Sample.decodeEvent (JNumber 2)
      (newPubSubEventEmitter "/event/Order__e" 1) Sample.goodEvent.
Proof.
  destruct (perEvent_whatever_the_listeners Sample.decodeEvent
              (fun _ _ => None) (JNumber 2)
              (newPubSubEventEmitter "/event/Order__e" 1) Sample.goodEvent)
    as (_ & _ & _ & _ & _ & H).
  apply H. reflexivity.
Defined.

(** X29: on an emitter for which [super.emit] throws on "error", as it
    does when no listener is registered for it, an event that fails to
    decode is emitted as "error" twice, first the parse error, then what
    that first emission threw; the second emission throws out of the
    callback, whose promise is rejected, and the received-event count is
    not compared with the requested one: no "lastevent" follows, even
    when the two are equal. *)
Theorem unhandled_error_skips_lastevent
    (decodeEvent : RawEvent -> option (string + ParsedEvent))
    (superEmit : string -> Args -> option string)
    (latest : JSInt) (em : PubSubEventEmitter) (ev : RawEvent)
    (error : string) :
  decodeEvent ev = Some (inl error) ->
  (forall args, superEmit "error" args <> None) ->
  exists parseError thrown reason,
    perEvent decodeEvent superEmit latest em ev
    = (mkPubSubEventEmitter (topicName em) (requestedEventCount em)
         (receivedEventCount em)
         (emitted em ++ [("error", ParseErrorArgs parseError);
                         ("error", ThrownArgs thrown)]),
       Rejected reason)
    /\ cause parseError = error
    /\ event parseError = ev
    /\ superEmit "error" (ParseErrorArgs parseError) = Some thrown
    /\ superEmit "error" (ThrownArgs thrown) = Some reason.
Proof.
  intros Hfails Hthrows.
  unfold perEvent, tryEmitData, catchAndEmitError. rewrite Hfails.
  set (parseError := mkEventParseError _ error _ ev latest).
  destruct (superEmit "error" (ParseErrorArgs parseError))
    as [thrown|] eqn:Hfirst; [|destruct (Hthrows _ Hfirst)].
  destruct (superEmit "error" (ThrownArgs thrown))
    as [reason|] eqn:Hsecond; [|destruct (Hthrows _ Hsecond)].
  exists parseError, thrown, reason.
  unfold emit.
  cbn [String.eqb Ascii.eqb Bool.eqb topicName requestedEventCount
       receivedEventCount emitted].
  rewrite <- app_assoc. repeat split; assumption.
Qed.

Lemma unhandled_error_skips_lastevent_witness :
  map fst
    (emitted
       (fst (perEvent Sample.decodeEvent Sample.noErrorListener (JNumber 2)
               (mkPubSubEventEmitter "/event/Order__e" 1 1
                  [("data", NoArgs); ("lastevent", NoArgs)])
               Sample.badEvent)))
  = ["data"; "lastevent"; "error"; "error"].
Proof.
  destruct (unhandled_error_skips_lastevent Sample.decodeEvent
              Sample.noErrorListener (JNumber 2)
              (mkPubSubEventEmitter "/event/Order__e" 1 1
                 [("data", NoArgs); ("lastevent", NoArgs)])
              Sample.badEvent "truncated payload" eq_refl
              ltac:(intros args; discriminate))
    as (parseError & thrown & reason & Hrun & _).
  rewrite Hrun. cbn [fst emitted]. rewrite map_app. reflexivity.
Defined.

End ListenerFacts.
